(** * A dynamically resizable worker pool (main.go)

    The pool of main.go is a bounded channel of string jobs served by
    worker goroutines that are added and cancelled one at a time, with a
    three-phase Shutdown.  This development embeds the program as an
    interleaving transition system and proves the properties its
    specification states about it, and further properties of the code.

    ** The embedding

    - The [Pool] struct is a record with the fields of the source
      ([mu], [workers], [jobs], [nextID], [wg]); the registry is a finite
      map from ids to [Worker]s.
    - The Go objects the pool uses are modelled next to it, with the
      behaviour the language and its [sync] and [context] packages give
      them: a channel is its buffer, its capacity, its closed flag and
      the queue of goroutines blocked in a receive (a send hands its
      value to the oldest of them, stores it in the buffer when there is
      room, and panics on a closed channel); a context is a flag set by
      its cancel function; the wait group is its counter; the mutex is
      one bit.  [int] is 64 bits wide and wraps around.
    - Every worker goroutine is a record with the variables its closure
      captured ([id], [ctx]) and a program counter [pc] over the
      statements of the closure, the deferred function included.  A
      select with several ready cases takes any of them: a step of a
      goroutine carries the case it prefers.
    - Method bodies are written in a small state, trace and error monad
      [M], one primitive per source statement; a computation returns,
      blocks or panics.  What a statement does that another thread or the
      caller can observe is recorded as an [event].
    - A method body that runs between [p.mu.Lock()] and [p.mu.Unlock()]
      is one transition of the caller.  The deferred function of a
      goroutine takes and releases the mutex in transitions of its own,
      so a caller can find the mutex held and has to wait.  Shutdown is
      three transitions, one per statement, since other threads run
      between them.
    - A schedule is a list of [action]s (calls of the methods, steps of
      Shutdown, steps of goroutines); [exec] runs one action, [run] a
      schedule.  The relation [step] lists the transitions case by case
      and is proved to be the graph of [exec].
    - [main] is the sequence of its calls, written in [M]; it takes a
      scheduler that gives the steps of the goroutines between two of
      its statements.

    Not modelled: the duration of [time.Sleep], the text of the printed
    lines (an [output] value stands for each), and the limits of the host
    (memory for the channel buffer and for goroutines). *)

From Stdlib Require Import ZArith List Lia.
From stdpp Require Import gmap strings list fin_maps pretty.

Local Open Scope Z_scope.

(** ** Go's [int] *)

(** [int] is 64 bits wide on the platforms the program targets; [++]
    wraps around in two's complement. *)
Definition int_bits : Z := 64.
Definition max_int : Z := 2 ^ (int_bits - 1) - 1.
Definition min_int : Z := - 2 ^ (int_bits - 1).
Definition wrap_int (z : Z) : Z :=
  (z + 2 ^ (int_bits - 1)) mod 2 ^ int_bits - 2 ^ (int_bits - 1).

(** ** Data *)

(** [type Worker struct { ID int; Cancel context.CancelFunc }].  A
    [context.CancelFunc] is the capability to cancel one context: it is
    represented by the index of that context in the context store. *)
Record Worker := mkWorker { ID : Z; Cancel : nat }.

(** [chan string].  [recvq] is the queue of goroutines blocked in a
    receive on the channel, oldest first. *)
Record chan := mkChan {
  buf : list string;
  cap : Z;
  closed : bool;
  recvq : list nat
}.

(** [type Pool struct]. *)
Record Pool := mkPool {
  mu : bool;
  workers : gmap Z Worker;
  jobs : chan;
  nextID : Z;
  wg : Z
}.

(** Program counter of a worker goroutine (the closure of AddWorker,
    lines 53-79); the comments give the statement about to run. *)
Inductive pc :=
| WStart                 (* fmt.Printf("Worker %d started\n", id) *)
| WSelect                (* select { ... }, not yet evaluated *)
| WParked                (* blocked in the select, on ctx.Done() and p.jobs *)
| WProc (job : string)   (* job received: Printf("... processing job"), Sleep *)
| WLock                  (* deferred: p.mu.Lock() *)
| WDelete                (* deferred: delete(p.workers, id) *)
| WUnlock                (* deferred: p.mu.Unlock() *)
| WDone                  (* deferred: p.wg.Done() *)
| WStopMsg               (* deferred: fmt.Printf("Worker %d stopped\n", id) *)
| WExited.

Record goroutine := mkG { g_id : Z; g_ctx : nat; g_pc : pc }.

(** Progress of the call of Shutdown. *)
Inductive sd_pc :=
| SdNotCalled
| SdClosed       (* close(p.jobs) done *)
| SdCancelled    (* the loop over p.workers done, mutex released *)
| SdReturned.    (* p.wg.Wait() returned *)

(** The pool together with the Go objects it refers to. *)
Record state := mkState {
  pool : Pool;
  ctxs : list bool;        (* per context: has cancel() been called *)
  gs : list goroutine;     (* worker goroutines, in spawn order *)
  sd : sd_pc
}.

(** ** Events *)

Inductive thread := Caller | G (tid : nat).

Inductive output :=
| Started (id : Z)
| Processing (id : Z) (job : string)
| Stopped (id : Z).

Inductive event :=
| EvLock (t : thread)
| EvUnlock (t : thread)
| EvStore (id : Z)
| EvDelete (tid : nat) (id : Z)
| EvWgAdd
| EvWgDone (tid : nat)
| EvWgWait
| EvCancel (c : nat)
| EvClose
| EvSpawn (tid : nat)
| EvAccept (job : string)
| EvReject (job : string)
| EvDeliver (tid : nat) (job : string)
| EvReturn (id : Z)
| EvPrint (o : output).

Global Instance pc_eq_dec : EqDecision pc.
Proof. solve_decision. Defined.
Global Instance thread_eq_dec : EqDecision thread.
Proof. solve_decision. Defined.
Global Instance output_eq_dec : EqDecision output.
Proof. solve_decision. Defined.
Global Instance event_eq_dec : EqDecision event.
Proof. solve_decision. Defined.

(** ** The monad of method bodies *)

Inductive outcome (A : Type) : Type :=
| Ret (a : A)
| Blocked
| Panic (msg : string).
Arguments Ret {A} a.
Arguments Blocked {A}.
Arguments Panic {A} msg.

(** A computation reads and writes the state, appends to the trace, and
    may block or panic. *)
Definition M (A : Type) : Type := state → outcome (A * list event * state).

Global Instance M_ret : MRet M := λ A a s, Ret (a, [], s).
Global Instance M_bind : MBind M := λ A B f m s,
  match m s with
  | Ret (a, evs, s') =>
      match f a s' with
      | Ret (b, evs', s'') => Ret (b, evs ++ evs', s'')
      | Blocked => Blocked
      | Panic msg => Panic msg
      end
  | Blocked => Blocked
  | Panic msg => Panic msg
  end.

Definition emit (e : event) : M unit := λ s, Ret (tt, [e], s).
Definition panic {A} (msg : string) : M A := λ _, Panic msg.
Definition block {A} : M A := λ _, Blocked.
Definition modify (f : state → state) : M unit := λ s, Ret (tt, [], f s).
Definition gets {A} (f : state → A) : M A := λ s, Ret (f s, [], s).

(** Field updates. *)
Definition set_pool (f : Pool → Pool) (s : state) : state :=
  mkState (f (pool s)) (ctxs s) (gs s) (sd s).
Definition set_ctxs (f : list bool → list bool) (s : state) : state :=
  mkState (pool s) (f (ctxs s)) (gs s) (sd s).
Definition set_gs (f : list goroutine → list goroutine) (s : state) : state :=
  mkState (pool s) (ctxs s) (f (gs s)) (sd s).
Definition set_sd (x : sd_pc) (s : state) : state :=
  mkState (pool s) (ctxs s) (gs s) x.

Definition set_mu (b : bool) (p : Pool) : Pool :=
  mkPool b (workers p) (jobs p) (nextID p) (wg p).
Definition set_workers (f : gmap Z Worker → gmap Z Worker) (p : Pool) : Pool :=
  mkPool (mu p) (f (workers p)) (jobs p) (nextID p) (wg p).
Definition set_jobs (f : chan → chan) (p : Pool) : Pool :=
  mkPool (mu p) (workers p) (f (jobs p)) (nextID p) (wg p).
Definition set_nextID (x : Z) (p : Pool) : Pool :=
  mkPool (mu p) (workers p) (jobs p) x (wg p).
Definition set_wg (x : Z) (p : Pool) : Pool :=
  mkPool (mu p) (workers p) (jobs p) (nextID p) x.

Definition with_buf (b : list string) (ch : chan) : chan :=
  mkChan b (cap ch) (closed ch) (recvq ch).
Definition with_recvq (q : list nat) (ch : chan) : chan :=
  mkChan (buf ch) (cap ch) (closed ch) q.

Definition set_pc (x : pc) (g : goroutine) : goroutine :=
  mkG (g_id g) (g_ctx g) x.

(** Goroutine [tid] moves to statement [x]. *)
Definition moved (tid : nat) (x : pc) (s : state) : state :=
  set_gs (alter (set_pc x) tid) s.

(** ** Go primitives *)

(** [sync.Mutex]. *)
Definition Lock (t : thread) : M unit := λ s,
  if mu (pool s) then Blocked
  else Ret (tt, [EvLock t], set_pool (set_mu true) s).

Definition Unlock (t : thread) : M unit := λ s,
  if mu (pool s) then Ret (tt, [EvUnlock t], set_pool (set_mu false) s)
  else Panic "sync: unlock of unlocked mutex".

(** [sync.WaitGroup]: Add panics when the counter becomes negative, Wait
    blocks until it is zero. *)
Definition wgAdd (d : Z) (e : event) : M unit := λ s,
  let n := wg (pool s) + d in
  if n <? 0 then Panic "sync: negative WaitGroup counter"
  else Ret (tt, [e], set_pool (set_wg n) s).

Definition wgWait : M unit := λ s,
  if wg (pool s) =? 0 then Ret (tt, [EvWgWait], s) else Blocked.

(** [context.WithCancel(context.Background())]: a new context, not
    cancelled; the cancel function returned is its index. *)
Definition WithCancel : M nat := λ s,
  Ret (length (ctxs s), [], set_ctxs (λ l, l ++ [false]) s).

Definition is_parked (x : pc) : bool :=
  match x with WParked => true | _ => false end.

Definition ctx_done (c : nat) (s : state) : bool :=
  match ctxs s !! c with Some b => b | None => false end.

(** A goroutine blocked in the select of line 65 on the Done channel of
    context [c]. *)
Definition waits_on (c : nat) (g : goroutine) : bool :=
  is_parked (g_pc g) && Nat.eqb (g_ctx g) c.

(** Does the blocked receiver [tid] stay blocked when [c] is cancelled. *)
Definition stays_parked (c : nat) (l : list goroutine) (tid : nat) : bool :=
  match l !! tid with
  | Some g => negb (waits_on c g)
  | None => true
  end.

(** Calling a cancel function: the context becomes done, and a goroutine
    blocked in a select on its Done channel leaves the select through the
    [case <-ctx.Done(): return] branch, so that its deferred function
    runs next.  Calling it again changes nothing. *)
Definition cancel_ctx (c : nat) (s : state) : state :=
  mkState
    (set_jobs (λ ch, with_recvq (filter (λ tid, stays_parked c (gs s) tid) (recvq ch)) ch)
       (pool s))
    (<[c := true]> (ctxs s))
    ((λ g, if waits_on c g then set_pc WLock g else g) <$> gs s)
    (sd s).

Definition cancel (c : nat) : M unit := λ s,
  Ret (tt, [EvCancel c], cancel_ctx c s).

(** [close(p.jobs)]: panics on a closed channel; the blocked receivers
    are woken with [ok = false], which is the [return] of line 72. *)
Definition wake_all (q : list nat) (l : list goroutine) : list goroutine :=
  foldr (λ tid l, alter (set_pc WLock) tid l) l q.

Definition close_chan (ch : chan) : chan := mkChan (buf ch) (cap ch) true [].

Definition closed_state (s : state) : state :=
  set_gs (wake_all (recvq (jobs (pool s)))) (set_pool (set_jobs close_chan) s).

Definition closeJobs : M unit := λ s,
  if closed (jobs (pool s)) then Panic "close of closed channel"
  else Ret (tt, [EvClose], closed_state s).

(** The [go] statement: a new goroutine at the first line of the
    closure. *)
Definition go (id : Z) (c : nat) : M unit := λ s,
  Ret (tt, [EvSpawn (length (gs s))], set_gs (λ l, l ++ [mkG id c WStart]) s).

(** [make(chan string, bufferSize)] panics when the size is negative. *)
Definition makeChan (size : Z) : outcome chan :=
  if size <? 0 then Panic "makechan: size out of range"
  else Ret (mkChan [] size false []).

(** ** The methods of Pool *)

(** [func NewPool(bufferSize int) *Pool]. *)
Definition NewPool (bufferSize : Z) : outcome state :=
  match makeChan bufferSize with
  | Ret ch => Ret (mkState (mkPool false ∅ ch 0 0) [] [] SdNotCalled)
  | Blocked => Blocked
  | Panic msg => Panic msg
  end.

(** [func (p *Pool) AddWorker() int]; the deferred Unlock runs last. *)
Definition AddWorker : M Z :=
  Lock Caller ;;
  c ← WithCancel ;
  id ← gets (λ s, nextID (pool s)) ;
  modify (set_pool (set_nextID (wrap_int (id + 1)))) ;;
  modify (set_pool (set_workers <[id := mkWorker id c]>)) ;;
  emit (EvStore id) ;;
  wgAdd 1 EvWgAdd ;;
  go id c ;;
  Unlock Caller ;;
  mret id.

(** [func (p *Pool) RemoveWorker(id int)]. *)
Definition RemoveWorker (id : Z) : M unit :=
  Lock Caller ;;
  w ← gets (λ s, workers (pool s) !! id) ;
  match w with
  | Some worker => cancel (Cancel worker)
  | None => mret tt
  end ;;
  Unlock Caller.

(** The send case [p.jobs <- job] of a select with a default branch: it
    panics on a closed channel, hands the value to the oldest blocked
    receiver if there is one, stores it if the buffer has room, and is
    not ready otherwise. *)
Definition trySend (job : string) : M bool := λ s,
  let ch := jobs (pool s) in
  if closed ch then Panic "send on closed channel"
  else
    match recvq ch with
    | tid :: q =>
        Ret (true, [EvAccept job; EvDeliver tid job],
             moved tid (WProc job) (set_pool (set_jobs (with_recvq q)) s))
    | [] =>
        if Z.of_nat (length (buf ch)) <? cap ch
        then Ret (true, [EvAccept job],
                  set_pool (set_jobs (with_buf (buf ch ++ [job]))) s)
        else Ret (false, [EvReject job], s)
    end.

(** [fmt.Errorf("job queue is full")]. *)
Definition QueueFullError : string := "job queue is full".

(** [func (p *Pool) SendJob(job string) error]; [None] is [nil]. *)
Definition SendJob (job : string) : M (option string) :=
  trySend job ≫= λ sent : bool,
  if sent then mret None else mret (Some QueueFullError).

Fixpoint forM_ {A} (l : list A) (f : A → M unit) : M unit :=
  match l with
  | [] => mret tt
  | x :: l' => f x ;; forM_ l' f
  end.

(** [for _, worker := range p.workers { worker.Cancel() }]: the cancel
    functions stored in the registry, called one after the other. *)
Definition handles (s : state) : list nat :=
  (λ kv : Z * Worker, Cancel kv.2) <$> map_to_list (workers (pool s)).

Definition rangeCancel : M unit := λ s, forM_ (handles s) cancel s.

(** The three statements of [func (p *Pool) Shutdown()]. *)
Definition Shutdown_close : M unit := closeJobs.
Definition Shutdown_cancel : M unit :=
  Lock Caller ;; rangeCancel ;; Unlock Caller.
Definition Shutdown_wait : M unit := wgWait.

Definition Shutdown : M unit :=
  Shutdown_close ;; Shutdown_cancel ;; Shutdown_wait.

(** ** The worker goroutine *)

(** Which ready case the select takes when both are ready (Go chooses
    at random). *)
Inductive branch := PreferDone | PreferJob.

Definition goto (tid : nat) (x : pc) : M unit := modify (moved tid x).

(** [case job, ok := <-p.jobs] when the receive can proceed: the oldest
    buffered job, or [ok = false] on a closed and drained channel. *)
Definition recvJob (tid : nat) : M unit := λ s,
  match buf (jobs (pool s)) return M unit with
  | job :: rest =>
      modify (set_pool (set_jobs (with_buf rest))) ;;
      emit (EvDeliver tid job) ;;
      goto tid (WProc job)
  | [] => goto tid WLock
  end s.

(** Blocking in the select: the goroutine joins the receivers of
    [p.jobs]. *)
Definition park (tid : nat) : M unit :=
  modify (set_pool (set_jobs (λ ch, with_recvq (recvq ch ++ [tid]) ch))) ;;
  goto tid WParked.

(** The select of lines 65-77. *)
Definition selectWorker (tid : nat) (g : goroutine) (pref : branch) : M unit := λ s,
  let done_ready := ctx_done (g_ctx g) s in
  let recv_ready :=
    match buf (jobs (pool s)) with [] => closed (jobs (pool s)) | _ => true end in
  match done_ready, recv_ready with
  | false, false => park tid s
  | true, false => goto tid WLock s
  | false, true => recvJob tid s
  | true, true =>
      match pref with
      | PreferDone => goto tid WLock s
      | PreferJob => recvJob tid s
      end
  end.

(** One step of goroutine [tid]. *)
Definition worker_step (tid : nat) (pref : branch) : M unit := λ s,
  match gs s !! tid with
  | None => Blocked
  | Some g =>
      match g_pc g return M unit with
      | WStart => emit (EvPrint (Started (g_id g))) ;; goto tid WSelect
      | WSelect => selectWorker tid g pref
      | WParked => block
      | WProc job =>
          emit (EvPrint (Processing (g_id g) job)) ;; goto tid WSelect
      | WLock => Lock (G tid) ;; goto tid WDelete
      | WDelete =>
          modify (set_pool (set_workers (delete (g_id g)))) ;;
          emit (EvDelete tid (g_id g)) ;;
          goto tid WUnlock
      | WUnlock => Unlock (G tid) ;; goto tid WDone
      | WDone => wgAdd (-1) (EvWgDone tid) ;; goto tid WStopMsg
      | WStopMsg => emit (EvPrint (Stopped (g_id g))) ;; goto tid WExited
      | WExited => block
      end s
  end.

(** ** Schedules *)

Inductive action :=
| AddWorkerCall
| RemoveWorkerCall (id : Z)
| SendJobCall (job : string)
| ShutdownStep
| Go (tid : nat) (pref : branch).

Global Instance branch_eq_dec : EqDecision branch.
Proof. solve_decision. Defined.
Global Instance action_eq_dec : EqDecision action.
Proof. solve_decision. Defined.

(** The next statement of the call of Shutdown.  After it has returned,
    a further step is the first statement of a second call. *)
Definition Shutdown_step : M unit := λ s,
  match sd s return M unit with
  | SdNotCalled | SdReturned => Shutdown_close ;; modify (set_sd SdClosed)
  | SdClosed => Shutdown_cancel ;; modify (set_sd SdCancelled)
  | SdCancelled => Shutdown_wait ;; modify (set_sd SdReturned)
  end s.

Definition exec (a : action) : M unit :=
  match a with
  | AddWorkerCall => id ← AddWorker ; emit (EvReturn id)
  | RemoveWorkerCall id => RemoveWorker id
  | SendJobCall job => SendJob job ;; mret tt
  | ShutdownStep => Shutdown_step
  | Go tid pref => worker_step tid pref
  end.

Fixpoint run (acts : list action) : M unit :=
  match acts with
  | [] => mret tt
  | a :: acts' => exec a ;; run acts'
  end.

(** States the program can be in: those a schedule reaches from a new
    pool. *)
Definition reachable (s : state) : Prop :=
  ∃ n s0 acts evs, NewPool n = Ret s0 ∧ run acts s0 = Ret (tt, evs, s).

(** ** Observations on traces and states *)

(** Jobs for which SendJob returned nil, and jobs received by a worker,
    both in order. *)
Definition accepted (evs : list event) : list string :=
  omap (λ e, match e with EvAccept job => Some job | _ => None end) evs.
Definition delivered (evs : list event) : list string :=
  omap (λ e, match e with EvDeliver _ job => Some job | _ => None end) evs.

(** Ids returned by AddWorker, in order. *)
Definition returned_ids (evs : list event) : list Z :=
  omap (λ e, match e with EvReturn id => Some id | _ => None end) evs.

(** A goroutine whose [p.wg.Done()] is still to come. *)
Definition live (g : goroutine) : bool :=
  match g_pc g with WStopMsg | WExited => false | _ => true end.

(** A goroutine whose [delete(p.workers, id)] is still to come. *)
Definition registered (g : goroutine) : bool :=
  match g_pc g with
  | WUnlock | WDone | WStopMsg | WExited => false
  | _ => true
  end.

(** A goroutine inside the critical section of its deferred function. *)
Definition holds_mu (g : goroutine) : bool :=
  match g_pc g with WDelete | WUnlock => true | _ => false end.

Fixpoint countb {A} (p : A → bool) (l : list A) : nat :=
  match l with
  | [] => 0
  | x :: l' => ((if p x then 1 else 0) + countb p l')%nat
  end.

(** How far a goroutine has come: the statements of the deferred
    function are the steps from 2 to 7. *)
Definition rank (x : pc) : nat :=
  match x with
  | WStart => 0
  | WSelect | WParked | WProc _ => 1
  | WLock => 2
  | WDelete => 3
  | WUnlock => 4
  | WDone => 5
  | WStopMsg => 6
  | WExited => 7
  end.


(** ** Invariants of the reachable states *)

Record Inv (s : state) : Prop := mkInv {
  (* goroutine [tid] owns context [tid] *)
  inv_ctx_len : length (ctxs s) = length (gs s);
  inv_ctx : ∀ tid g, gs s !! tid = Some g → g_ctx g = tid;
  (* the mutex is held exactly when one goroutine is between its Lock
     and its Unlock *)
  inv_mu : countb holds_mu (gs s) = if mu (pool s) then 1%nat else 0%nat;
  (* the wait group counts the goroutines that have not called Done *)
  inv_wg : wg (pool s) = Z.of_nat (countb live (gs s));
  (* a registry entry is stored under its own id, holds a cancel function
     that exists, and belongs to a goroutine that has not deleted it *)
  inv_reg : ∀ k w, workers (pool s) !! k = Some w →
    ID w = k ∧ (Cancel w < length (ctxs s))%nat ∧
    ∃ tid g, gs s !! tid = Some g ∧ g_id g = k ∧ registered g = true;
  (* the receive queue of the channel lists the blocked goroutines *)
  inv_recvq_nodup : NoDup (recvq (jobs (pool s)));
  inv_recvq : ∀ tid, tid ∈ recvq (jobs (pool s)) ↔
    ∃ g, gs s !! tid = Some g ∧ g_pc g = WParked;
  (* a goroutine blocks only on an open, empty channel *)
  inv_parked : recvq (jobs (pool s)) ≠ [] →
    buf (jobs (pool s)) = [] ∧ closed (jobs (pool s)) = false;
  inv_cap : Z.of_nat (length (buf (jobs (pool s)))) ≤ cap (jobs (pool s));
  (* the channel is closed by Shutdown and by nothing else *)
  inv_sd : closed (jobs (pool s)) = false ↔ sd s = SdNotCalled;
  (* ids are handed out in spawn order *)
  inv_next : nextID (pool s) = wrap_int (Z.of_nat (length (gs s)));
  inv_ids : ∀ tid g, gs s !! tid = Some g → g_id g = wrap_int (Z.of_nat tid)
}.

(** The state AddWorker leaves behind. *)
Definition added (s : state) : state :=
  let id := nextID (pool s) in
  let c := length (ctxs s) in
  mkState
    (mkPool false (<[id := mkWorker id c]> (workers (pool s))) (jobs (pool s))
       (wrap_int (id + 1)) (wg (pool s) + 1))
    (ctxs s ++ [false])
    (gs s ++ [mkG id c WStart])
    (sd s).


(** The state the loop of Shutdown leaves behind. *)
Definition cancel_list (cs : list nat) (s : state) : state :=
  foldl (λ s c, cancel_ctx c s) s cs.

(** ** The transitions, case by case *)

(** [step s a evs s']: action [a] is enabled in [s], emits [evs] and
    leaves [s'].  It is the graph of [exec] on its returning runs
    ([exec_step] below). *)
Inductive step (s : state) : action → list event → state → Prop :=
| step_add :
    mu (pool s) = false → 0 ≤ wg (pool s) + 1 →
    step s AddWorkerCall
      [EvLock Caller; EvStore (nextID (pool s)); EvWgAdd;
       EvSpawn (length (gs s)); EvUnlock Caller; EvReturn (nextID (pool s))]
      (added s)
| step_remove_hit id w :
    mu (pool s) = false → workers (pool s) !! id = Some w →
    step s (RemoveWorkerCall id)
      [EvLock Caller; EvCancel (Cancel w); EvUnlock Caller]
      (cancel_ctx (Cancel w) s)
| step_remove_miss id :
    mu (pool s) = false → workers (pool s) !! id = None →
    step s (RemoveWorkerCall id) [EvLock Caller; EvUnlock Caller] s
| step_send_handoff job tid q :
    closed (jobs (pool s)) = false → recvq (jobs (pool s)) = tid :: q →
    step s (SendJobCall job) [EvAccept job; EvDeliver tid job]
      (moved tid (WProc job) (set_pool (set_jobs (with_recvq q)) s))
| step_send_enqueue job :
    closed (jobs (pool s)) = false → recvq (jobs (pool s)) = [] →
    Z.of_nat (length (buf (jobs (pool s)))) < cap (jobs (pool s)) →
    step s (SendJobCall job) [EvAccept job]
      (set_pool (set_jobs (with_buf (buf (jobs (pool s)) ++ [job]))) s)
| step_send_full job :
    closed (jobs (pool s)) = false → recvq (jobs (pool s)) = [] →
    cap (jobs (pool s)) ≤ Z.of_nat (length (buf (jobs (pool s)))) →
    step s (SendJobCall job) [EvReject job] s
| step_close :
    sd s = SdNotCalled ∨ sd s = SdReturned → closed (jobs (pool s)) = false →
    step s ShutdownStep [EvClose] (set_sd SdClosed (closed_state s))
| step_cancel :
    sd s = SdClosed → mu (pool s) = false →
    step s ShutdownStep
      (EvLock Caller :: (EvCancel <$> handles s) ++ [EvUnlock Caller])
      (set_sd SdCancelled (cancel_list (handles s) s))
| step_wait :
    sd s = SdCancelled → wg (pool s) = 0 →
    step s ShutdownStep [EvWgWait] (set_sd SdReturned s)
| step_start tid pref g :
    gs s !! tid = Some g → g_pc g = WStart →
    step s (Go tid pref) [EvPrint (Started (g_id g))] (moved tid WSelect s)
| step_park tid pref g :
    gs s !! tid = Some g → g_pc g = WSelect →
    ctx_done (g_ctx g) s = false →
    buf (jobs (pool s)) = [] → closed (jobs (pool s)) = false →
    step s (Go tid pref) []
      (moved tid WParked
         (set_pool (set_jobs (λ ch, with_recvq (recvq ch ++ [tid]) ch)) s))
| step_cancelled tid pref g :
    gs s !! tid = Some g → g_pc g = WSelect →
    ctx_done (g_ctx g) s = true →
    pref = PreferDone ∨
      (buf (jobs (pool s)) = [] ∧ closed (jobs (pool s)) = false) →
    step s (Go tid pref) [] (moved tid WLock s)
| step_recv tid pref g job rest :
    gs s !! tid = Some g → g_pc g = WSelect →
    buf (jobs (pool s)) = job :: rest →
    pref = PreferJob ∨ ctx_done (g_ctx g) s = false →
    step s (Go tid pref) [EvDeliver tid job]
      (moved tid (WProc job) (set_pool (set_jobs (with_buf rest)) s))
| step_drained tid pref g :
    gs s !! tid = Some g → g_pc g = WSelect →
    buf (jobs (pool s)) = [] → closed (jobs (pool s)) = true →
    pref = PreferJob ∨ ctx_done (g_ctx g) s = false →
    step s (Go tid pref) [] (moved tid WLock s)
| step_proc tid pref g job :
    gs s !! tid = Some g → g_pc g = WProc job →
    step s (Go tid pref) [EvPrint (Processing (g_id g) job)] (moved tid WSelect s)
| step_lock tid pref g :
    gs s !! tid = Some g → g_pc g = WLock → mu (pool s) = false →
    step s (Go tid pref) [EvLock (G tid)]
      (moved tid WDelete (set_pool (set_mu true) s))
| step_delete tid pref g :
    gs s !! tid = Some g → g_pc g = WDelete →
    step s (Go tid pref) [EvDelete tid (g_id g)]
      (moved tid WUnlock (set_pool (set_workers (delete (g_id g))) s))
| step_unlock tid pref g :
    gs s !! tid = Some g → g_pc g = WUnlock → mu (pool s) = true →
    step s (Go tid pref) [EvUnlock (G tid)]
      (moved tid WDone (set_pool (set_mu false) s))
| step_done tid pref g :
    gs s !! tid = Some g → g_pc g = WDone → 0 ≤ wg (pool s) + -1 →
    step s (Go tid pref) [EvWgDone tid]
      (moved tid WStopMsg (set_pool (set_wg (wg (pool s) + -1)) s))
| step_stopmsg tid pref g :
    gs s !! tid = Some g → g_pc g = WStopMsg →
    step s (Go tid pref) [EvPrint (Stopped (g_id g))] (moved tid WExited s).

(** ** Predicates used in the invariant proofs *)

Definition b2n (b : bool) : nat := if b then 1%nat else 0%nat.

(** A transition other than the go statement changes goroutines in
    their program counter only. *)
Definition only_pc (l l' : list goroutine) : Prop :=
  length l' = length l ∧
  ∀ t g, l !! t = Some g → ∃ x, l' !! t = Some (set_pc x g).

Definition unpark (g : goroutine) : goroutine :=
  if is_parked (g_pc g) then set_pc WLock g else g.

(** Waking a blocked goroutine changes none of the counts. *)
Definition wake_blind (p : goroutine → bool) : Prop :=
  ∀ g, g_pc g = WParked → p (set_pc WLock g) = p g.

(** Goroutines that have not run their delete keep that status. *)
Definition reg_kept (l l' : list goroutine) : Prop :=
  ∀ t g, l !! t = Some g → registered g = true →
    ∃ g', l' !! t = Some g' ∧ g_id g' = g_id g ∧ registered g' = true.

Definition reg_ok (s : state) : Prop :=
  ∀ k w, workers (pool s) !! k = Some w →
    ID w = k ∧ (Cancel w < length (ctxs s))%nat ∧
    ∃ tid g, gs s !! tid = Some g ∧ g_id g = k ∧ registered g = true.

(** The channel part of the invariant. *)
Definition parked_at (l : list goroutine) (t : nat) : Prop :=
  ∃ g, l !! t = Some g ∧ g_pc g = WParked.

Definition chan_ok (s : state) : Prop :=
  NoDup (recvq (jobs (pool s))) ∧
  (∀ t, t ∈ recvq (jobs (pool s)) ↔ parked_at (gs s) t) ∧
  (recvq (jobs (pool s)) ≠ [] →
     buf (jobs (pool s)) = [] ∧ closed (jobs (pool s)) = false) ∧
  Z.of_nat (length (buf (jobs (pool s)))) ≤ cap (jobs (pool s)).

(** Goroutines woken from their select, the others unchanged. *)
Definition woken (l l' : list goroutine) : Prop :=
  length l' = length l ∧
  ∀ t g, l !! t = Some g →
    l' !! t = Some g ∨ (g_pc g = WParked ∧ l' !! t = Some (set_pc WLock g)).

(** ** Pools used in the examples *)

(** [NewPool(0)], [NewPool(1)] and [NewPool(2)]. *)
Definition pool0 : state :=
  mkState (mkPool false ∅ (mkChan [] 0 false []) 0 0) [] [] SdNotCalled.
Definition pool1 : state :=
  mkState (mkPool false ∅ (mkChan [] 1 false []) 0 0) [] [] SdNotCalled.
Definition pool2 : state :=
  mkState (mkPool false ∅ (mkChan [] 2 false []) 0 0) [] [] SdNotCalled.


(** The schedule of example C4: a worker is added on [NewPool(0)] and runs
    until it blocks in its select. *)
Definition rendezvous_schedule : list action :=
  [AddWorkerCall; Go 0%nat PreferJob; Go 0%nat PreferJob].

(** Number of AddWorker calls in a schedule. *)
Definition count_adds (acts : list action) : nat :=
  countb (λ a, bool_decide (a = AddWorkerCall)) acts.


(** Two workers on [NewPool(2)]; the second one has received "Task 0"
    and is in the middle of it. *)
Definition mid_job_schedule : list action :=
  [AddWorkerCall; AddWorkerCall; SendJobCall "Task 0";
   Go 1%nat PreferJob; Go 1%nat PreferJob].

Definition mid_job_state : state :=
  Eval vm_compute in
    match run mid_job_schedule pool2 with
    | Ret (_, _, s) => s
    | _ => pool2
    end.

(** ** The deferred function in the trace *)





(** One worker on [NewPool(1)]; Shutdown closes the queue, the worker
    finds it closed and drained and runs its deferred function up to its
    Done. *)
Definition exit_schedule : list action :=
  [AddWorkerCall; ShutdownStep; Go 0%nat PreferJob; Go 0%nat PreferJob;
   Go 0%nat PreferJob; Go 0%nat PreferJob; Go 0%nat PreferJob; Go 0%nat PreferJob].

Definition exit_trace : list event :=
  Eval vm_compute in
    match run exit_schedule pool1 with
    | Ret (_, evs, _) => evs
    | _ => []
    end.

Definition exit_state : state :=
  Eval vm_compute in
    match run exit_schedule pool1 with
    | Ret (_, _, s) => s
    | _ => pool1
    end.

(** One worker on [NewPool(2)] and two jobs.  The worker is in the middle
    of "Task 0" when Shutdown closes the queue and cancels it; back at its
    select it finds its context done and "Task 1" in the buffer, and the
    select takes the Done case.  Shutdown returns right after the
    worker's Done. *)
Definition drop_schedule : list action :=
  [AddWorkerCall; SendJobCall "Task 0"; SendJobCall "Task 1";
   Go 0%nat PreferJob; Go 0%nat PreferJob;
   ShutdownStep; ShutdownStep;
   Go 0%nat PreferJob; Go 0%nat PreferDone;
   Go 0%nat PreferJob; Go 0%nat PreferJob; Go 0%nat PreferJob; Go 0%nat PreferJob;
   ShutdownStep].

(** ** Termination of the workers after the queue is closed *)

(** Steps a goroutine can still take before it has exited, not counting
    the jobs it may still receive. *)
Definition weight (g : goroutine) : nat :=
  match g_pc g with
  | WExited => 0
  | WStopMsg => 1
  | WDone => 2
  | WUnlock => 3
  | WDelete => 4
  | WLock => 5
  | WSelect | WParked => 6
  | WProc _ | WStart => 7
  end.

Fixpoint sumf {A} (f : A → nat) (l : list A) : nat :=
  match l with
  | [] => 0
  | x :: l' => (f x + sumf f l')%nat
  end.

(** A bound on the number of worker steps once the queue is closed:
    every buffered job costs a receive and a processing step. *)
Definition measure (s : state) : nat :=
  (sumf weight (gs s) + 2 * length (buf (jobs (pool s))))%nat.

Definition is_go (a : action) : Prop :=
  match a with Go _ _ => True | _ => False end.

(** A complete run on [NewPool(1)]: one worker processes one job, then
    Shutdown closes the queue, cancels the worker, and returns after the
    worker's Done; the worker prints its last line afterwards. *)
Definition full_schedule : list action :=
  [AddWorkerCall; SendJobCall "Task 0";
   Go 0%nat PreferJob; Go 0%nat PreferJob; Go 0%nat PreferJob;
   ShutdownStep; ShutdownStep;
   Go 0%nat PreferJob; Go 0%nat PreferJob; Go 0%nat PreferJob;
   Go 0%nat PreferJob; Go 0%nat PreferJob;
   ShutdownStep; Go 0%nat PreferJob].

Definition full_trace : list event :=
  Eval vm_compute in
    match run full_schedule pool1 with
    | Ret (_, evs, _) => evs
    | _ => []
    end.

Definition full_state : state :=
  Eval vm_compute in
    match run full_schedule pool1 with
    | Ret (_, _, s) => s
    | _ => pool1
    end.

(** ** The run of [main] shown in the README *)

(** The lines printed by the workers, in order. *)
Definition printed (evs : list event) : list output :=
  omap (λ e, match e with EvPrint o => Some o | _ => None end) evs.

(** A schedule of [main]: two workers, five jobs, a third worker, three
    more jobs, the removal of worker 0, Shutdown. *)
Definition main_schedule : list action :=
  let go t := Go t PreferJob in
  [AddWorkerCall; AddWorkerCall;
   go 0; go 1; go 0; go 1]%nat ++
  (SendJobCall <$> ["Task 0"; "Task 1"; "Task 2"; "Task 3"; "Task 4"]) ++
  [go 1; go 0; go 0; go 0; go 1; go 1; go 0; go 0; go 1; go 0;
   AddWorkerCall]%nat ++
  (SendJobCall <$> ["Task 5"; "Task 6"; "Task 7"]) ++
  [go 0; go 2; go 2; go 2; go 1; go 0; go 1; go 2;
   RemoveWorkerCall 0;
   go 0; go 0; go 0; go 0; go 0;
   ShutdownStep; ShutdownStep;
   go 2; go 2; go 2; go 2; go 2;
   go 1; go 1; go 1; go 1; go 1;
   ShutdownStep]%nat.

(** ** Termination of Shutdown *)

(** Statements of Shutdown that are still to run. *)
Definition sd_left (x : sd_pc) : nat :=
  match x with
  | SdNotCalled => 3
  | SdClosed => 2
  | SdCancelled => 1
  | SdReturned => 0
  end.

(** The statement of Shutdown after [x]. *)
Definition sd_next (x : sd_pc) : sd_pc :=
  match x with
  | SdNotCalled => SdClosed
  | SdClosed => SdCancelled
  | SdCancelled | SdReturned => SdReturned
  end.

(** A bound on the number of steps of the workers and of Shutdown once
    the queue is closed. *)
Definition shutdown_measure (s : state) : nat :=
  (measure s + sd_left (sd s))%nat.

(** The pool after a call of Shutdown on a pool without workers. *)
Definition shut_pool1 : state :=
  set_sd SdReturned (set_sd SdCancelled (set_sd SdClosed (closed_state pool1))).

(** ** Blocked workers *)

(** A goroutine blocked in its select has a context that is not
    cancelled. *)
Definition parked_live (s : state) : Prop :=
  ∀ tid g, gs s !! tid = Some g → g_pc g = WParked →
    ctx_done (g_ctx g) s = false.

(** One worker on [NewPool(0)], blocked in its select. *)
Definition parked_state : state :=
  Eval vm_compute in
    match run rendezvous_schedule pool0 with
    | Ret (_, _, s) => s
    | _ => pool0
    end.

(** ** Sending *)

(** Jobs for which SendJob returned the queue-full error, and the jobs a
    schedule passes to SendJob, both in order. *)
Definition rejected (evs : list event) : list string :=
  omap (λ e, match e with EvReject job => Some job | _ => None end) evs.
Definition sent (acts : list action) : list string :=
  omap (λ a, match a with SendJobCall job => Some job | _ => None end) acts.

(** ** The order of cancellations *)

(** The second statement of Shutdown with the entries of the registry
    visited in the order [cs]: Go does not fix the order in which a
    [range] loop visits a map. *)
Definition Shutdown_cancel_in (cs : list nat) : M unit :=
  Lock Caller ;; forM_ cs cancel ;; Unlock Caller.

(** ** The registry *)

(** Every goroutine that has not run its delete has its entry in the
    registry, under its id and with the cancel function of its own
    context. *)
Definition reg_exact (s : state) : Prop :=
  ∀ tid g, gs s !! tid = Some g → registered g = true →
    workers (pool s) !! g_id g = Some (mkWorker (g_id g) tid).

(** ** What the workers print *)

(** The jobs delivered to goroutine [tid], and the jobs that the worker
    with id [id] has printed as being processed, both in order. *)
Definition delivered_to (tid : nat) (evs : list event) : list string :=
  omap (λ e, match e with
             | EvDeliver t job => if decide (t = tid) then Some job else None
             | _ => None
             end) evs.
Definition processed_by (id : Z) (evs : list event) : list string :=
  omap (λ e, match e with
             | EvPrint (Processing i job) =>
                 if decide (i = id) then Some job else None
             | _ => None
             end) evs.

(** The lines printed by the worker with id [id], in order. *)
Definition id_of (o : output) : Z :=
  match o with Started i | Processing i _ | Stopped i => i end.
Definition lines_of (id : Z) (evs : list event) : list output :=
  filter (λ o, id_of o = id) (printed evs).

(** The job a goroutine has received and not yet printed. *)
Definition inflight (x : pc) : list string :=
  match x with WProc job => [job] | _ => [] end.

Definition has_started (x : pc) : bool :=
  match x with WStart => false | _ => true end.
Definition has_exited (x : pc) : bool :=
  match x with WExited => true | _ => false end.

(** The lines of a worker that is at statement [x] and has processed the
    jobs [js]. *)
Definition lines (id : Z) (x : pc) (js : list string) : list output :=
  (if has_started x then [Started id] else []) ++
  (Processing id <$> js) ++
  (if has_exited x then [Stopped id] else []).

(** The statement goroutine [tid] is at; a goroutine that does not exist
    yet is before its first statement. *)
Definition pc_at (s : state) (tid : nat) : pc :=
  match gs s !! tid with Some g => g_pc g | None => WStart end.

(** What the trace shows of a program counter. *)
Definition obs (x : pc) : list string * bool * bool :=
  (inflight x, has_started x, has_exited x).

(** Events that are neither a delivery nor a printed line. *)
Definition quiet (e : event) : bool :=
  match e with EvDeliver _ _ | EvPrint _ => false | _ => true end.

Definition trace_ok (evs : list event) (s : state) : Prop :=
  ∀ tid,
    delivered_to tid evs
      = processed_by (Z.of_nat tid) evs ++ inflight (pc_at s tid) ∧
    lines_of (Z.of_nat tid) evs
      = lines (Z.of_nat tid) (pc_at s tid) (processed_by (Z.of_nat tid) evs) ∧
    (has_started (pc_at s tid) = false → processed_by (Z.of_nat tid) evs = []).

(** ** [func main()] *)

(** The lines printed by main itself. *)
Inductive main_line :=
| FailedToSend (err : string)   (* fmt.Println("Failed to send job:", err) *)
| ShuttingDown                  (* fmt.Println("Shutting down pool...") *)
| ShutdownComplete.             (* fmt.Println("Pool shutdown complete.") *)

(** [fmt.Sprintf("Task %d", i)]. *)
Definition task (i : Z) : string := "Task " +:+ pretty i.

(** The steps that the worker goroutines take while main is between two
    of its statements or asleep: the goroutine and the select case it
    prefers, for each step. *)
Definition others : Type := list (nat * branch).
Definition goes (ws : others) : list action := (λ w, Go w.1 w.2) <$> ws.
Definition yield (ws : others) : M unit := run (goes ws).

(** A call of AddWorker; the id it returns is recorded in the trace, as
    [exec] does. *)
Definition callAddWorker : M Z :=
  id ← AddWorker ; emit (EvReturn id) ;; mret id.

(** The loop
    [for i := ...; i++ { if err := pool.SendJob(fmt.Sprintf("Task %d", i));
    err != nil { fmt.Println("Failed to send job:", err) } }]
    over the values [ns] of [i].  [σ k] are the steps of the goroutines
    before the first iteration, [σ (k + 1)] those before the second, and
    so on; the result is what the loop prints. *)
Fixpoint sendTasks (σ : nat → others) (k : nat) (ns : list Z) : M (list main_line) :=
  match ns with
  | [] => mret []
  | i :: ns' =>
      yield (σ k) ;;
      err ← SendJob (task i) ;
      rest ← sendTasks σ (S k) ns' ;
      mret (match err with Some e => [FailedToSend e] | None => [] end ++ rest)
  end.

(** [pool.Shutdown()], with the steps of the goroutines between its
    statements. *)
Definition Shutdown_with (ws1 ws2 : others) : M unit :=
  Shutdown_step ;; yield ws1 ;; Shutdown_step ;; yield ws2 ;; Shutdown_step.

(** The body of main after [pool := NewPool(10)].  The scheduler [σ]
    gives the steps of the goroutines at each point where main is
    between two statements; the calls of [time.Sleep] are such points.
    The result is what main prints. *)
Definition mainM (σ : nat → others) : M (list main_line) :=
  yield (σ 0%nat) ;;
  worker1 ← callAddWorker ;
  yield (σ 1%nat) ;;
  callAddWorker ;;
  l1 ← sendTasks σ 2 (seqZ 0 5) ;
  yield (σ 7%nat) ;;
  callAddWorker ;;
  l2 ← sendTasks σ 8 (seqZ 5 3) ;
  yield (σ 11%nat) ;;
  RemoveWorker worker1 ;;
  yield (σ 12%nat) ;;
  Shutdown_with (σ 13%nat) (σ 14%nat) ;;
  mret (l1 ++ l2 ++ [ShuttingDown; ShutdownComplete]).

(** [func main()]. *)
Definition main (σ : nat → others) : outcome (list main_line * list event * state) :=
  match NewPool 10 with
  | Ret p => mainM σ p
  | Blocked => Blocked
  | Panic msg => Panic msg
  end.

(** [NewPool(10)]. *)
Definition pool10 : state :=
  mkState (mkPool false ∅ (mkChan [] 10 false []) 0 0) [] [] SdNotCalled.

(** Main has reached the state [s] with the trace [evs], after sending
    the jobs [js] and adding [n] workers, the call of Shutdown being at
    [x]. *)
Definition main_at (js : list string) (n : nat) (x : sd_pc)
    (evs : list event) (s : state) : Prop :=
  ∃ acts, run acts pool10 = Ret (tt, evs, s) ∧
    sent acts = js ∧ count_adds acts = n ∧ sd s = x.

(** A computation that does not block has not panicked, and its result
    satisfies [Q]. *)
Definition post {A} (o : outcome (A * list event * state))
    (Q : A → list event → state → Prop) : Prop :=
  match o with
  | Ret (a, e, s') => Q a e s'
  | Blocked => True
  | Panic _ => False
  end.

(** The scheduler of the run shown in the README. *)
Definition readme_sched (k : nat) : others :=
  let j t := (t, PreferJob) in
  match k with
  | 2 => [j 0; j 1; j 0; j 1]
  | 7 => [j 1; j 0; j 0; j 0; j 1; j 1; j 0; j 0; j 1; j 0]
  | 11 => [j 0; j 2; j 2; j 2; j 1; j 0; j 1; j 2]
  | 12 => [j 0; j 0; j 0; j 0; j 0]
  | 14 => [j 2; j 2; j 2; j 2; j 2; j 1; j 1; j 1; j 1; j 1]
  | _ => []
  end%nat.

(** ** Workers left to run *)

(** Steps a goroutine can still take before it blocks in its select or
    exits, not counting the jobs it may still receive. *)
Definition idle_weight (g : goroutine) : nat :=
  match g_pc g with
  | WExited => 0
  | WStopMsg => 1
  | WDone => 2
  | WUnlock => 3
  | WDelete => 4
  | WLock => 5
  | WParked => 6
  | WSelect => 7
  | WProc _ | WStart => 8
  end.

(** A bound on the number of worker steps while no method is called:
    every buffered job costs a receive and a processing step. *)
Definition idle_measure (s : state) : nat :=
  (sumf idle_weight (gs s) + 2 * length (buf (jobs (pool s))))%nat.

(** No goroutine can take a step. *)
Definition at_rest (s : state) : Prop :=
  ∀ tid pref evs s', exec (Go tid pref) s ≠ Ret (tt, evs, s').

(** A goroutine that is blocked in its select or has exited. *)
Definition resting (g : goroutine) : bool :=
  match g_pc g with WParked | WExited => true | _ => false end.

(** ** The mutex in the trace *)

(** Reading an event with the thread that holds the mutex ([None] when
    it is free): a Lock needs the mutex free; an Unlock is by the holder;
    the registry is written (the store of AddWorker, the delete of the
    deferred function) by the holder, and a cancel function taken from
    the registry is called by the holder.  The result is the holder
    after the event, or [None] when the event breaks one of these
    rules. *)
Definition lock_event (h : option thread) (e : event) : option (option thread) :=
  match e with
  | EvLock t => match h with None => Some (Some t) | Some _ => None end
  | EvUnlock t => if decide (h = Some t) then Some None else None
  | EvStore _ | EvCancel _ => if decide (h = Some Caller) then Some h else None
  | EvDelete tid _ => if decide (h = Some (G tid)) then Some h else None
  | _ => Some h
  end.

Fixpoint lock_trace (h : option thread) (evs : list event) : option (option thread) :=
  match evs with
  | [] => Some h
  | e :: evs' =>
      match lock_event h e with
      | Some h' => lock_trace h' evs'
      | None => None
      end
  end.

(** The holder of the mutex in a state between two transitions: no one,
    or a goroutine inside the critical section of its deferred
    function. *)
Definition holder (s : state) (h : option thread) : Prop :=
  match h with
  | None => mu (pool s) = false
  | Some Caller => False
  | Some (G tid) =>
      mu (pool s) = true ∧ ∃ g, gs s !! tid = Some g ∧ holds_mu g = true
  end.

(** ** Why a worker stops *)

(** Every cancelled context and the closing of the queue are the effect
    of a call in the schedule [acts], and a goroutine that has left its
    loop has a cancelled context or has seen the queue closed. *)
Definition stop_reasons (acts : list action) (s : state) : Prop :=
  (∀ c, ctx_done c s = true →
     RemoveWorkerCall (Z.of_nat c) ∈ acts ∨ ShutdownStep ∈ acts) ∧
  (closed (jobs (pool s)) = true → ShutdownStep ∈ acts) ∧
  (∀ tid g, gs s !! tid = Some g → (2 ≤ rank (g_pc g))%nat →
     ctx_done (g_ctx g) s = true ∨ closed (jobs (pool s)) = true).

(** ** Examples with a closed queue *)

(** One worker and one job on [NewPool(1)]; Shutdown closes the queue
    while the job is in the buffer and the worker has not started. *)
Definition closed_job_state : state :=
  Eval vm_compute in
    match run [AddWorkerCall; SendJobCall "Task 0"; ShutdownStep] pool1 with
    | Ret (_, _, s) => s
    | _ => pool1
    end.
(** * Proofs *)

(** ** The monad *)

Lemma bind_Ret {A B} (m : M A) (f : A → M B) s b evs s' :
  (m ≫= f) s = Ret (b, evs, s') ↔
  ∃ a e1 s1 e2, m s = Ret (a, e1, s1) ∧ f a s1 = Ret (b, e2, s') ∧ evs = e1 ++ e2.
Proof.
  unfold mbind, M_bind. split.
  - destruct (m s) as [[[a e1] s1]| |]; try discriminate.
    destruct (f a s1) as [[[b' e2] s2]| |] eqn:Hf; try discriminate.
    intros [= <- <- <-]. eauto 10.
  - intros (a & e1 & s1 & e2 & -> & -> & ->). reflexivity.
Qed.

Lemma bind_eq {A B} (m : M A) (f : A → M B) s :
  (m ≫= f) s =
  match m s with
  | Ret (a, evs, s') =>
      match f a s' with
      | Ret (b, evs', s'') => Ret (b, evs ++ evs', s'')
      | Blocked => Blocked
      | Panic msg => Panic msg
      end
  | Blocked => Blocked
  | Panic msg => Panic msg
  end.
Proof. reflexivity. Qed.

Lemma run_app acts1 acts2 s evs s' :
  run (acts1 ++ acts2) s = Ret (tt, evs, s') ↔
  ∃ e1 s1 e2, run acts1 s = Ret (tt, e1, s1) ∧ run acts2 s1 = Ret (tt, e2, s')
              ∧ evs = e1 ++ e2.
Proof.
  revert s evs. induction acts1 as [|a acts1 IH]; intros s evs; simpl.
  - split.
    + intros H. exists [], s, evs. auto.
    + intros (e1 & s1 & e2 & [= <- <-] & H & ->). exact H.
  - rewrite bind_Ret. split.
    + intros ([] & e1 & s1 & e2 & Ha & Hr & ->).
      apply IH in Hr as (e3 & s3 & e4 & Hr1 & Hr2 & ->).
      exists (e1 ++ e3), s3, e4. split; [|split; [done|by rewrite app_assoc]].
      apply bind_Ret. eauto 10.
    + intros (e1 & s1 & e2 & Hr & Hr2 & ->).
      apply bind_Ret in Hr as ([] & e3 & s3 & e4 & Ha & Hr1 & ->).
      exists tt, e3, s3, (e4 ++ e2). split; [done|]. split; [|by rewrite app_assoc].
      apply IH. eauto 10.
Qed.

Lemma run_snoc acts a s evs s' :
  run (acts ++ [a]) s = Ret (tt, evs, s') ↔
  ∃ e1 s1 e2, run acts s = Ret (tt, e1, s1) ∧ exec a s1 = Ret (tt, e2, s')
              ∧ evs = e1 ++ e2.
Proof.
  rewrite run_app. split.
  - intros (e1 & s1 & e2 & H1 & H2 & ->). simpl in H2.
    apply bind_Ret in H2 as ([] & e3 & s3 & e4 & Ha & [= <- <-] & ->).
    rewrite app_nil_r. eauto 10.
  - intros (e1 & s1 & e2 & H1 & H2 & ->). exists e1, s1, e2.
    split; [done|]. split; [|done]. simpl. apply bind_Ret.
    exists tt, e2, s', []. by rewrite app_nil_r.
Qed.

(** Induction over the states a schedule reaches. *)
Lemma reachable_ind_exec (P : state → Prop) :
  (∀ n s0, NewPool n = Ret s0 → P s0) →
  (∀ s a evs s', reachable s → P s → exec a s = Ret (tt, evs, s') → P s') →
  ∀ s, reachable s → P s.
Proof.
  intros Hinit Hstep s (n & s0 & acts & evs & Hnew & Hrun).
  revert s evs Hrun. induction acts as [|a acts IH] using rev_ind; intros s evs Hrun.
  - simpl in Hrun. injection Hrun as <- <-. eauto.
  - apply run_snoc in Hrun as (e1 & s1 & e2 & Hr & Ha & ->).
    eapply Hstep; [|eapply IH|]; eauto.
    exists n, s0, acts, e1. auto.
Qed.

Lemma reachable_exec s a evs s' :
  reachable s → exec a s = Ret (tt, evs, s') → reachable s'.
Proof.
  intros (n & s0 & acts & e0 & Hnew & Hrun) Ha.
  exists n, s0, (acts ++ [a]), (e0 ++ evs). split; [done|].
  apply run_snoc. eauto 10.
Qed.

Lemma reachable_run s acts evs s' :
  reachable s → run acts s = Ret (tt, evs, s') → reachable s'.
Proof.
  intros (n & s0 & acts0 & e0 & Hnew & Hrun) Ha.
  exists n, s0, (acts0 ++ acts), (e0 ++ evs). split; [done|].
  apply run_app. eauto 10.
Qed.

(** ** Closed forms of the methods *)

Ltac unfold_M :=
  unfold mbind, M_bind, mret, M_ret, emit, modify, gets, panic, block,
    Lock, Unlock, wgAdd, wgWait, WithCancel, cancel, go, goto, closeJobs in *;
  simpl in *.

Lemma AddWorker_eq s :
  AddWorker s =
  if mu (pool s) then Blocked
  else if wg (pool s) + 1 <? 0 then Panic "sync: negative WaitGroup counter"
  else Ret (nextID (pool s),
            [EvLock Caller; EvStore (nextID (pool s)); EvWgAdd;
             EvSpawn (length (gs s)); EvUnlock Caller],
            added s).
Proof.
  unfold AddWorker. destruct s as [[m w j n g] c l d]. unfold_M.
  destruct m; [done|]. simpl. destruct (g + 1 <? 0); reflexivity.
Qed.

Lemma RemoveWorker_eq id s :
  RemoveWorker id s =
  if mu (pool s) then Blocked
  else match workers (pool s) !! id with
       | Some w => Ret (tt, [EvLock Caller; EvCancel (Cancel w); EvUnlock Caller],
                        cancel_ctx (Cancel w) s)
       | None => Ret (tt, [EvLock Caller; EvUnlock Caller], s)
       end.
Proof.
  unfold RemoveWorker. destruct s as [[m w j n g] c l d]. unfold_M.
  destruct m; [done|]. simpl. destruct (w !! id) as [wk|]; simpl; reflexivity.
Qed.

Lemma forM_cancel cs s :
  forM_ cs cancel s = Ret (tt, EvCancel <$> cs, cancel_list cs s).
Proof.
  revert s. induction cs as [|c cs IH]; intros s; simpl; [done|].
  unfold mbind, M_bind, cancel. rewrite IH. reflexivity.
Qed.

Lemma cancel_ctx_set_mu b c s :
  cancel_ctx c (set_pool (set_mu b) s) = set_pool (set_mu b) (cancel_ctx c s).
Proof. reflexivity. Qed.

Lemma cancel_list_set_mu b cs s :
  cancel_list cs (set_pool (set_mu b) s) = set_pool (set_mu b) (cancel_list cs s).
Proof.
  revert s. induction cs as [|c cs IH]; intros s; simpl; [done|].
  rewrite cancel_ctx_set_mu. apply IH.
Qed.

Lemma cancel_ctx_mu c s : mu (pool (cancel_ctx c s)) = mu (pool s).
Proof. reflexivity. Qed.

Lemma cancel_list_mu cs s : mu (pool (cancel_list cs s)) = mu (pool s).
Proof.
  revert s. induction cs as [|c cs IH]; intros s; simpl; [done|].
  by rewrite IH.
Qed.

Lemma set_mu_id s : set_pool (set_mu (mu (pool s))) s = s.
Proof. by destruct s as [[] ? ? ?]. Qed.

Lemma Shutdown_cancel_eq s :
  Shutdown_cancel s =
  if mu (pool s) then Blocked
  else Ret (tt, EvLock Caller :: (EvCancel <$> handles s) ++ [EvUnlock Caller],
            cancel_list (handles s) s).
Proof.
  unfold Shutdown_cancel, rangeCancel. unfold_M.
  destruct (mu (pool s)) eqn:Hmu; [done|].
  rewrite forM_cancel. rewrite cancel_list_mu. simpl.
  replace (handles (set_pool (set_mu true) s)) with (handles s) by done.
  rewrite cancel_list_set_mu. simpl.
  replace (set_pool (set_mu false) (set_pool (set_mu true) (cancel_list (handles s) s)))
    with (set_pool (set_mu (mu (pool (cancel_list (handles s) s)))) (cancel_list (handles s) s)).
  - by rewrite set_mu_id.
  - rewrite cancel_list_mu, Hmu. reflexivity.
Qed.

(** ** [step] is the graph of [exec] *)

Lemma worker_step_step tid pref s evs s' :
  worker_step tid pref s = Ret (tt, evs, s') → step s (Go tid pref) evs s'.
Proof.
  unfold worker_step. destruct (gs s !! tid) as [g|] eqn:Hg; [|done].
  destruct (g_pc g) eqn:Hpc; unfold_M.
  - intros [= <- <-]. by eapply step_start.
  - unfold selectWorker, recvJob, park. unfold_M.
    destruct (ctx_done (g_ctx g) s) eqn:Hd;
      destruct (buf (jobs (pool s))) as [|job rest] eqn:Hb;
      destruct (closed (jobs (pool s))) eqn:Hc;
      try destruct pref; rewrite ?Hb; simpl; intros [= <- <-];
      first [ by eapply step_cancelled; eauto
            | by eapply step_drained; eauto
            | by eapply step_recv; eauto
            | by eapply step_park; eauto ].
  - done.
  - intros [= <- <-]. by eapply step_proc.
  - destruct (mu (pool s)) eqn:Hmu; [done|]. intros [= <- <-].
    by eapply step_lock.
  - intros [= <- <-]. by eapply step_delete.
  - destruct (mu (pool s)) eqn:Hmu; [|done]. intros [= <- <-].
    by eapply step_unlock.
  - destruct (wg (pool s) + -1 <? 0) eqn:Hw; [done|]. intros [= <- <-].
    eapply step_done; eauto. lia.
  - intros [= <- <-]. by eapply step_stopmsg.
  - done.
Qed.

Lemma exec_step a s evs s' :
  exec a s = Ret (tt, evs, s') → step s a evs s'.
Proof.
  destruct a as [|id|job| |tid pref]; simpl.
  - unfold mbind, M_bind. rewrite AddWorker_eq.
    destruct (mu (pool s)) eqn:Hmu; [done|].
    destruct (wg (pool s) + 1 <? 0) eqn:Hw; [done|]. unfold emit.
    intros [= <- <-]. apply step_add; [done|lia].
  - rewrite RemoveWorker_eq. destruct (mu (pool s)) eqn:Hmu; [done|].
    destruct (workers (pool s) !! id) as [w|] eqn:Hw; intros [= <- <-].
    + by apply step_remove_hit.
    + by apply step_remove_miss.
  - unfold SendJob, trySend. unfold_M.
    destruct (closed (jobs (pool s))) eqn:Hc; [done|].
    destruct (recvq (jobs (pool s))) as [|tid q] eqn:Hq.
    + destruct (Z.of_nat (length (buf (jobs (pool s)))) <? cap (jobs (pool s))) eqn:Hl;
        simpl; intros [= <- <-].
      * apply step_send_enqueue; auto; lia.
      * apply step_send_full; auto; lia.
    + simpl. intros [= <- <-]. by apply step_send_handoff.
  - unfold Shutdown_step.
    destruct (sd s) eqn:Hsd.
    + unfold Shutdown_close. unfold_M.
      destruct (closed (jobs (pool s))) eqn:Hc; [done|]. intros [= <- <-].
      apply step_close; auto.
    + unfold mbind, M_bind. rewrite Shutdown_cancel_eq.
      destruct (mu (pool s)) eqn:Hmu; [done|]. unfold modify.
      intros [= <- <-]. rewrite app_nil_r. by apply step_cancel.
    + unfold Shutdown_wait. unfold_M.
      destruct (wg (pool s) =? 0) eqn:Hw; [|done]. intros [= <- <-].
      apply step_wait; auto; lia.
    + unfold Shutdown_close. unfold_M.
      destruct (closed (jobs (pool s))) eqn:Hc; [done|]. intros [= <- <-].
      apply step_close; auto.
  - apply worker_step_step.
Qed.

Lemma step_exec a s evs s' :
  step s a evs s' → exec a s = Ret (tt, evs, s').
Proof.
  destruct 1; simpl.
  - unfold mbind, M_bind. rewrite AddWorker_eq, H.
    destruct (wg (pool s) + 1 <? 0) eqn:Hw; [lia|]. reflexivity.
  - by rewrite RemoveWorker_eq, H, H0.
  - by rewrite RemoveWorker_eq, H, H0.
  - unfold SendJob, trySend. unfold_M. by rewrite H, H0.
  - unfold SendJob, trySend. unfold_M. rewrite H, H0.
    destruct (Z.of_nat (length (buf (jobs (pool s)))) <? cap (jobs (pool s))) eqn:Hl;
      [done|lia].
  - unfold SendJob, trySend. unfold_M. rewrite H, H0.
    destruct (Z.of_nat (length (buf (jobs (pool s)))) <? cap (jobs (pool s))) eqn:Hl;
      [lia|done].
  - unfold Shutdown_step, Shutdown_close. unfold_M.
    destruct H as [-> | ->]; by rewrite H0.
  - unfold Shutdown_step. rewrite H. unfold mbind, M_bind.
    rewrite Shutdown_cancel_eq, H0. unfold modify. by rewrite app_nil_r.
  - unfold Shutdown_step, Shutdown_wait. rewrite H. unfold_M. by rewrite H0.
  - unfold worker_step. rewrite H, H0. reflexivity.
  - unfold worker_step. rewrite H, H0. unfold selectWorker. by rewrite H1, H2, H3.
  - unfold worker_step. rewrite H, H0. unfold selectWorker. rewrite H1.
    destruct H2 as [-> | [-> ->]]; [|done].
    by destruct (buf (jobs (pool s))), (closed (jobs (pool s))).
  - unfold worker_step. rewrite H, H0. unfold selectWorker, recvJob. rewrite H1.
    destruct H2 as [-> | ->]; [destruct (ctx_done (g_ctx g) s)|]; reflexivity.
  - unfold worker_step. rewrite H, H0. unfold selectWorker, recvJob. rewrite H1, H2.
    destruct H3 as [-> | ->]; [destruct (ctx_done (g_ctx g) s)|]; reflexivity.
  - unfold worker_step. rewrite H, H0. reflexivity.
  - unfold worker_step. rewrite H, H0. unfold_M. by rewrite H1.
  - unfold worker_step. rewrite H, H0. reflexivity.
  - unfold worker_step. rewrite H, H0. unfold_M. by rewrite H1.
  - unfold worker_step. rewrite H, H0. unfold_M.
    destruct (wg (pool s) + -1 <? 0) eqn:Hw; [lia|done].
  - unfold worker_step. rewrite H, H0. reflexivity.
Qed.

(** ** Lists of goroutines *)


Lemma countb_app {A} (p : A → bool) l1 l2 :
  countb p (l1 ++ l2) = (countb p l1 + countb p l2)%nat.
Proof. induction l1 as [|x l1 IH]; simpl; [done|]. rewrite IH. lia. Qed.

Lemma countb_alter {A} (p : A → bool) (f : A → A) i l x :
  l !! i = Some x →
  (countb p (alter f i l) + b2n (p x) = countb p l + b2n (p (f x)))%nat.
Proof.
  revert i. induction l as [|y l IH]; intros [|i] Hi; simplify_eq/=.
  - unfold b2n. destruct (p x), (p (f x)); lia.
  - specialize (IH _ Hi). unfold b2n in *. lia.
Qed.

Lemma countb_fmap_ext {A} (p : A → bool) (h : A → A) l :
  (∀ x, x ∈ l → p (h x) = p x) → countb p (h <$> l) = countb p l.
Proof.
  induction l as [|x l IH]; intros Hh; [done|].
  rewrite fmap_cons. cbn [countb]. rewrite Hh by left.
  rewrite IH; [done|]. intros y Hy. apply Hh. by right.
Qed.

Lemma countb_zero {A} (p : A → bool) l :
  countb p l = 0%nat → ∀ x, x ∈ l → p x = false.
Proof.
  induction l as [|y l IH]; simpl; intros H0 x Hx.
  - by apply elem_of_nil in Hx.
  - apply elem_of_cons in Hx as [-> | Hx].
    + destruct (p y); [lia|done].
    + apply IH; [|done]. destruct (p y); lia.
Qed.

Lemma countb_pos {A} (p : A → bool) l x :
  x ∈ l → p x = true → (0 < countb p l)%nat.
Proof.
  intros Hx Hp. destruct (countb p l) eqn:Hc; [|lia].
  by rewrite (countb_zero _ _ Hc x Hx) in Hp.
Qed.

Lemma countb_one_unique {A} (p : A → bool) l i j x y :
  countb p l = 1%nat → l !! i = Some x → l !! j = Some y →
  p x = true → p y = true → i = j.
Proof.
  revert i j. induction l as [|z l IH]; intros i j Hc Hi Hj Hx Hy; [done|].
  simpl in Hc. destruct i as [|i], j as [|j]; simplify_eq/=; [done| | |].
  - rewrite Hx in Hc. assert (countb p l = 0%nat) as H0 by lia.
    apply list_elem_of_lookup_2 in Hj. by rewrite (countb_zero _ _ H0 y Hj) in Hy.
  - rewrite Hy in Hc. assert (countb p l = 0%nat) as H0 by lia.
    apply list_elem_of_lookup_2 in Hi. by rewrite (countb_zero _ _ H0 x Hi) in Hx.
  - f_equal. apply IH; auto. destruct (p z); [|lia].
    apply list_elem_of_lookup_2 in Hi. pose proof (countb_pos p l x Hi Hx). lia.
Qed.

Lemma lookup_moved tid x s t :
  gs (moved tid x s) !! t =
  if decide (t = tid) then set_pc x <$> gs s !! tid else gs s !! t.
Proof.
  simpl. case_decide as Ht.
  - subst. apply list_lookup_alter_eq.
  - by apply list_lookup_alter_ne.
Qed.

Lemma length_moved tid x s : length (gs (moved tid x s)) = length (gs s).
Proof. simpl. apply length_alter. Qed.


Lemma set_pc_id g : set_pc (g_pc g) g = g.
Proof. by destruct g. Qed.

Lemma only_pc_refl l : only_pc l l.
Proof. split; [done|]. intros t g Hg. exists (g_pc g). by rewrite set_pc_id. Qed.

Lemma only_pc_trans l1 l2 l3 : only_pc l1 l2 → only_pc l2 l3 → only_pc l1 l3.
Proof.
  intros [Hl1 H1] [Hl2 H2]. split; [congruence|]. intros t g Hg.
  destruct (H1 _ _ Hg) as [x Hx]. destruct (H2 _ _ Hx) as [y Hy].
  exists y. by rewrite Hy.
Qed.

Lemma only_pc_alter x tid l : only_pc l (alter (set_pc x) tid l).
Proof.
  split; [apply length_alter|]. intros t g Hg.
  destruct (decide (tid = t)) as [->|Hne].
  - exists x. by rewrite list_lookup_alter_eq, Hg.
  - exists (g_pc g). by rewrite list_lookup_alter_ne, set_pc_id.
Qed.

Lemma only_pc_fmap (h : goroutine → goroutine) l :
  (∀ g, ∃ x, h g = set_pc x g) → only_pc l (h <$> l).
Proof.
  intros Hh. split; [apply length_fmap|]. intros t g Hg.
  destruct (Hh g) as [x Hx]. exists x. by rewrite list_lookup_fmap, Hg, <- Hx.
Qed.

Lemma only_pc_wake_all q l : only_pc l (wake_all q l).
Proof.
  induction q as [|t q IH]; simpl; [apply only_pc_refl|].
  eapply only_pc_trans; [exact IH|apply only_pc_alter].
Qed.

Lemma only_pc_cancel_ctx c s : only_pc (gs s) (gs (cancel_ctx c s)).
Proof.
  apply only_pc_fmap. intros g. destruct (waits_on c g); eauto.
  exists (g_pc g). by rewrite set_pc_id.
Qed.

Lemma only_pc_cancel_list cs s : only_pc (gs s) (gs (cancel_list cs s)).
Proof.
  revert s. induction cs as [|c cs IH]; intros s; simpl; [apply only_pc_refl|].
  eapply only_pc_trans; [apply only_pc_cancel_ctx|apply IH].
Qed.

Lemma only_pc_lookup l l' t g' :
  only_pc l l' → l' !! t = Some g' →
  ∃ g, l !! t = Some g ∧ g_id g' = g_id g ∧ g_ctx g' = g_ctx g.
Proof.
  intros [Hlen H] Hg'. destruct (l !! t) as [g|] eqn:Hg.
  - destruct (H _ _ Hg) as [x Hx]. rewrite Hx in Hg'. injection Hg' as <-. eauto.
  - apply lookup_ge_None in Hg. apply lookup_lt_Some in Hg'. lia.
Qed.

(** Fields the loop of Shutdown leaves alone. *)
Lemma cancel_list_frame cs s :
  workers (pool (cancel_list cs s)) = workers (pool s) ∧
  nextID (pool (cancel_list cs s)) = nextID (pool s) ∧
  wg (pool (cancel_list cs s)) = wg (pool s) ∧
  buf (jobs (pool (cancel_list cs s))) = buf (jobs (pool s)) ∧
  cap (jobs (pool (cancel_list cs s))) = cap (jobs (pool s)) ∧
  closed (jobs (pool (cancel_list cs s))) = closed (jobs (pool s)) ∧
  sd (cancel_list cs s) = sd s ∧
  length (ctxs (cancel_list cs s)) = length (ctxs s).
Proof.
  revert s. induction cs as [|c cs IH]; intros s; simpl; [done|].
  destruct (IH (cancel_ctx c s)) as (-> & -> & -> & -> & -> & -> & -> & ->).
  simpl. by rewrite length_insert.
Qed.

Lemma step_only_pc s a evs s' :
  step s a evs s' → a ≠ AddWorkerCall →
  only_pc (gs s) (gs s') ∧ length (ctxs s') = length (ctxs s) ∧
  nextID (pool s') = nextID (pool s).
Proof.
  destruct 1; intros Ha; try done; simpl;
    try (split; [first [apply only_pc_alter | apply only_pc_refl]|done]).
  - split; [apply only_pc_cancel_ctx|]. by rewrite length_insert.
  - split; [apply only_pc_wake_all|done].
  - split; [apply only_pc_cancel_list|]. 
    destruct (cancel_list_frame (handles s) s) as (_ & -> & _ & _ & _ & _ & _ & ->).
    done.
Qed.

(** ** The invariants hold in every reachable state *)

Lemma Inv_init n s0 : NewPool n = Ret s0 → Inv s0.
Proof.
  unfold NewPool, makeChan. destruct (n <? 0) eqn:Hn; [done|].
  intros [= <-]. constructor; simpl; try done.
  - apply NoDup_nil_2.
  - intros tid. split; [by intros ?%elem_of_nil|]. by intros (g & ? & _).
  - lia.
Qed.

Lemma wrap_int_succ z : wrap_int (wrap_int z + 1) = wrap_int (z + 1).
Proof.
  unfold wrap_int.
  replace (((z + 2 ^ (int_bits - 1)) mod 2 ^ int_bits - 2 ^ (int_bits - 1) + 1
            + 2 ^ (int_bits - 1)))
    with ((z + 2 ^ (int_bits - 1)) mod 2 ^ int_bits + 1) by lia.
  replace (z + 1 + 2 ^ (int_bits - 1)) with ((z + 2 ^ (int_bits - 1)) + 1) by lia.
  f_equal. rewrite (Z.add_mod (z + _) 1) by (unfold int_bits; lia).
  rewrite (Z.add_mod (_ mod _) 1) by (unfold int_bits; lia).
  by rewrite Z.mod_mod by (unfold int_bits; lia).
Qed.

Lemma inv_ident_step s a evs s' :
  Inv s → step s a evs s' →
  length (ctxs s') = length (gs s') ∧
  (∀ tid g, gs s' !! tid = Some g → g_ctx g = tid) ∧
  nextID (pool s') = wrap_int (Z.of_nat (length (gs s'))) ∧
  (∀ tid g, gs s' !! tid = Some g → g_id g = wrap_int (Z.of_nat tid)).
Proof.
  intros HI Hs. destruct (decide (a = AddWorkerCall)) as [->|Ha].
  - inversion Hs; subst. simpl. rewrite !length_app. simpl.
    split; [rewrite (inv_ctx_len _ HI); lia|].
    split; [|split].
    + intros tid g [Hg|[Hl Hg]]%lookup_app_Some; [by eapply inv_ctx|].
      destruct (tid - length (gs s))%nat eqn:Ht; simplify_eq/=.
      rewrite (inv_ctx_len _ HI). lia.
    + rewrite (inv_next _ HI), wrap_int_succ. f_equal. lia.
    + intros tid g [Hg|[Hl Hg]]%lookup_app_Some; [by eapply inv_ids|].
      destruct (tid - length (gs s))%nat eqn:Ht; simplify_eq/=.
      rewrite (inv_next _ HI). f_equal. lia.
  - destruct (step_only_pc _ _ _ _ Hs Ha) as (Hpc & Hlen & Hnext).
    pose proof Hpc as [Hl _].
    split; [rewrite Hlen, Hl; apply HI|].
    split; [|split].
    + intros tid g' Hg'. destruct (only_pc_lookup _ _ _ _ Hpc Hg') as (g & Hg & _ & ->).
      by eapply inv_ctx.
    + rewrite Hnext, Hl. apply HI.
    + intros tid g' Hg'. destruct (only_pc_lookup _ _ _ _ Hpc Hg') as (g & Hg & -> & _).
      by eapply inv_ids.
Qed.


Lemma lookup_wake_all q l t :
  wake_all q l !! t =
  if decide (t ∈ q) then set_pc WLock <$> l !! t else l !! t.
Proof.
  induction q as [|u q IH].
  - cbn [wake_all foldr]. rewrite decide_False; [done|apply not_elem_of_nil].
  - unfold wake_all; cbn [foldr]; fold (wake_all q l).
    destruct (decide (u = t)) as [->|Hne].
    + rewrite list_lookup_alter_eq, IH.
      rewrite (decide_True (P := t ∈ t :: q)) by apply list_elem_of_here.
      case_decide; [|done]. by destruct (l !! t).
    + rewrite list_lookup_alter_ne by done. rewrite IH.
      destruct (decide (t ∈ q)) as [Hin|Hin].
      * rewrite decide_True; [done|by apply list_elem_of_further].
      * rewrite decide_False; [done|]. intros [->|?]%elem_of_cons; done.
Qed.

Lemma closed_gs s : Inv s → gs (closed_state s) = unpark <$> gs s.
Proof.
  intros HI. simpl. apply list_eq. intros t.
  rewrite lookup_wake_all, list_lookup_fmap. unfold unpark.
  case_decide as Hin.
  - apply (inv_recvq _ HI) in Hin as (g & -> & Hpc). simpl. by rewrite Hpc.
  - destruct (gs s !! t) as [g|] eqn:Hg; [|done]. simpl.
    destruct (is_parked (g_pc g)) eqn:Hp; [|done].
    destruct Hin. apply (inv_recvq _ HI). exists g. split; [done|].
    by destruct (g_pc g).
Qed.

Lemma handoff_parked s tid q :
  Inv s → recvq (jobs (pool s)) = tid :: q →
  ∃ g, gs s !! tid = Some g ∧ g_pc g = WParked.
Proof. intros HI Hq. apply (inv_recvq _ HI). rewrite Hq. left. Qed.


Lemma wake_blind_live : wake_blind live.
Proof. intros g Hg. unfold live. simpl. by rewrite Hg. Qed.
Lemma wake_blind_holds_mu : wake_blind holds_mu.
Proof. intros g Hg. unfold holds_mu. simpl. by rewrite Hg. Qed.
Lemma wake_blind_registered : wake_blind registered.
Proof. intros g Hg. unfold registered. simpl. by rewrite Hg. Qed.

Lemma countb_cancel_ctx p c s :
  wake_blind p → countb p (gs (cancel_ctx c s)) = countb p (gs s).
Proof.
  intros Hp. simpl. apply countb_fmap_ext. intros g _.
  unfold waits_on. destruct (is_parked (g_pc g)) eqn:Hpk; [|done].
  destruct (g_ctx g =? c)%nat; [|done]. simpl. apply Hp. by destruct (g_pc g).
Qed.

Lemma countb_cancel_list p cs s :
  wake_blind p → countb p (gs (cancel_list cs s)) = countb p (gs s).
Proof.
  intros Hp. revert s. induction cs as [|c cs IH]; intros s; simpl; [done|].
  by rewrite IH, countb_cancel_ctx.
Qed.

Lemma countb_closed p s :
  Inv s → wake_blind p → countb p (gs (closed_state s)) = countb p (gs s).
Proof.
  intros HI Hp. rewrite closed_gs by done. apply countb_fmap_ext. intros g _.
  unfold unpark. destruct (is_parked (g_pc g)) eqn:Hpk; [|done].
  apply Hp. by destruct (g_pc g).
Qed.

Ltac count_moved p :=
  match goal with
  | Hg : gs ?s !! ?tid = Some ?g, Hpc : g_pc ?g = _
    |- context [countb p (alter (set_pc ?x) ?tid (gs ?s))] =>
      let H := fresh "Hcount" in
      let c1 := fresh "c" in
      let c2 := fresh "c" in
      pose proof (countb_alter p (set_pc x) tid (gs s) g Hg) as H;
      set (c1 := countb p (alter (set_pc x) tid (gs s))) in *;
      set (c2 := countb p (gs s)) in *;
      unfold b2n, p in H; simpl in H; rewrite Hpc in H; simpl in H;
      clearbody c1 c2
  end.

Lemma inv_counts_step s a evs s' :
  Inv s → step s a evs s' →
  countb holds_mu (gs s') = (if mu (pool s') then 1%nat else 0%nat) ∧
  wg (pool s') = Z.of_nat (countb live (gs s')).
Proof.
  intros HI Hs. pose proof (inv_mu _ HI) as Hmu. pose proof (inv_wg _ HI) as Hwg.
  destruct Hs;
    try (match goal with H : mu (pool s) = _ |- _ => rewrite H in Hmu end);
    try (simpl; count_moved holds_mu; count_moved live; split; lia).
  - simpl. rewrite !countb_app. simpl. split; lia.
  - rewrite !countb_cancel_ctx
      by first [apply wake_blind_holds_mu|apply wake_blind_live].
    rewrite cancel_ctx_mu, H. done.
  - rewrite H. done.
  - destruct (handoff_parked s tid q HI H0) as (g & Hg & Hpc).
    simpl. count_moved holds_mu; count_moved live. split; lia.
  - done.
  - done.
  - pose proof (countb_closed holds_mu s HI wake_blind_holds_mu) as E1.
    pose proof (countb_closed live s HI wake_blind_live) as E2.
    simpl in *. rewrite E1, E2. done.
  - change (gs (set_sd SdCancelled (cancel_list (handles s) s)))
      with (gs (cancel_list (handles s) s)).
    change (pool (set_sd SdCancelled (cancel_list (handles s) s)))
      with (pool (cancel_list (handles s) s)).
    rewrite !countb_cancel_list
      by first [apply wake_blind_holds_mu|apply wake_blind_live].
    rewrite cancel_list_mu.
    destruct (cancel_list_frame (handles s) s) as (_ & _ & -> & _).
    by rewrite H0.
  - done.
Qed.


Lemma reg_kept_refl l : reg_kept l l.
Proof. intros t g Hg Hr. eauto. Qed.

Lemma reg_kept_trans l1 l2 l3 : reg_kept l1 l2 → reg_kept l2 l3 → reg_kept l1 l3.
Proof.
  intros H1 H2 t g Hg Hr. destruct (H1 _ _ Hg Hr) as (g' & Hg' & <- & Hr').
  apply (H2 _ _ Hg' Hr').
Qed.

Lemma reg_kept_alter l tid y g0 :
  l !! tid = Some g0 →
  (registered g0 = true → registered (set_pc y g0) = true) →
  reg_kept l (alter (set_pc y) tid l).
Proof.
  intros Hg0 Hy t g Hg Hr. destruct (decide (tid = t)) as [->|Hne].
  - rewrite list_lookup_alter_eq, Hg. simplify_eq. eauto.
  - rewrite list_lookup_alter_ne by done. eauto.
Qed.

Lemma reg_kept_fmap_wake (h : goroutine → goroutine) l :
  (∀ g, h g = g ∨ (g_pc g = WParked ∧ h g = set_pc WLock g)) →
  reg_kept l (h <$> l).
Proof.
  intros Hh t g Hg Hr. rewrite list_lookup_fmap, Hg. simpl.
  exists (h g). split; [done|]. destruct (Hh g) as [->|[Hp ->]]; [done|].
  split; [done|]. by rewrite wake_blind_registered.
Qed.

Lemma reg_kept_cancel_ctx c s : reg_kept (gs s) (gs (cancel_ctx c s)).
Proof.
  apply reg_kept_fmap_wake. intros g. unfold waits_on.
  destruct (is_parked (g_pc g)) eqn:Hp; [|by left].
  destruct (g_ctx g =? c)%nat; [|by left]. right. by destruct (g_pc g).
Qed.

Lemma reg_kept_cancel_list cs s : reg_kept (gs s) (gs (cancel_list cs s)).
Proof.
  revert s. induction cs as [|c cs IH]; intros s; simpl; [apply reg_kept_refl|].
  eapply reg_kept_trans; [apply reg_kept_cancel_ctx|apply IH].
Qed.

Lemma reg_kept_closed s : Inv s → reg_kept (gs s) (gs (closed_state s)).
Proof.
  intros HI. rewrite closed_gs by done. apply reg_kept_fmap_wake.
  intros g. unfold unpark. destruct (is_parked (g_pc g)) eqn:Hp; [|by left].
  right. by destruct (g_pc g).
Qed.


Lemma reg_ok_frame s s' :
  reg_ok s → workers (pool s') = workers (pool s) →
  length (ctxs s') = length (ctxs s) → reg_kept (gs s) (gs s') → reg_ok s'.
Proof.
  intros Hreg Hw Hc Hk k w Hkw. rewrite Hw in Hkw.
  destruct (Hreg _ _ Hkw) as (Hid & Hlt & tid & g & Hg & Hgid & Hr).
  split; [done|]. split; [lia|].
  destruct (Hk _ _ Hg Hr) as (g' & Hg' & Hid' & Hr'). exists tid, g'.
  split; [done|]. split; [congruence|done].
Qed.

Ltac reg_moved :=
  match goal with
  | Hg : gs ?s !! ?tid = Some ?g, Hpc : g_pc ?g = _ |- reg_kept (gs ?s) _ =>
      simpl; apply (reg_kept_alter _ _ _ g Hg); unfold registered; simpl;
      rewrite Hpc; done
  end.

Lemma inv_reg_step s a evs s' : Inv s → step s a evs s' → reg_ok s'.
Proof.
  intros HI Hs. pose proof (inv_reg _ HI) as Hreg. fold (reg_ok s) in Hreg.
  destruct Hs;
    try (apply (reg_ok_frame s); [done|done|simpl; rewrite ?length_insert; done|];
         first [ apply reg_kept_refl | reg_moved ]).
  - (* AddWorker *)
    intros k w. simpl. rewrite length_app. simpl.
    destruct (decide (nextID (pool s) = k)) as [<-|Hne].
    + rewrite lookup_insert_eq. intros [= <-]. simpl.
      split; [done|]. split; [lia|].
      exists (length (gs s)), (mkG (nextID (pool s)) (length (ctxs s)) WStart).
      split; [|done]. rewrite lookup_app_r by lia. by rewrite Nat.sub_diag.
    + rewrite lookup_insert_ne by done. intros Hkw.
      destruct (Hreg _ _ Hkw) as (Hid & Hlt & tid & g & Hg & Hgid & Hr).
      split; [done|]. split; [lia|]. exists tid, g.
      split; [by apply lookup_app_l_Some|done].
  - (* RemoveWorker *)
    apply (reg_ok_frame s); [done|done|simpl; by rewrite length_insert|].
    apply reg_kept_cancel_ctx.
  - (* hand-off *)
    destruct (handoff_parked s tid q HI H0) as (g & Hg & Hpc).
    apply (reg_ok_frame s); [done|done|done|]. reg_moved.
  - (* close *)
    apply (reg_ok_frame s); [done|done|done|]. by apply reg_kept_closed.
  - (* the loop of Shutdown *)
    destruct (cancel_list_frame (handles s) s) as (Hw & _ & _ & _ & _ & _ & _ & Hl).
    apply (reg_ok_frame s); [done|done|done|]. apply reg_kept_cancel_list.
  - (* delete *)
    intros k w. simpl. intros Hkw.
    destruct (decide (g_id g = k)) as [<-|Hne];
      [by rewrite lookup_delete_eq in Hkw|].
    rewrite lookup_delete_ne in Hkw by done.
    destruct (Hreg _ _ Hkw) as (Hid & Hlt & t & g' & Hg' & Hgid & Hr).
    split; [done|]. split; [done|]. exists t, g'.
    split; [|done]. rewrite list_lookup_alter_ne; [done|].
    intros ->. simplify_eq.
Qed.



Lemma Inv_chan_ok s : Inv s → chan_ok s.
Proof.
  intros HI. split; [apply HI|]. split; [apply (inv_recvq _ HI)|].
  split; [apply HI|apply HI].
Qed.

Lemma parked_at_alter l tid y t g :
  l !! tid = Some g → g_pc g ≠ WParked → y ≠ WParked →
  parked_at (alter (set_pc y) tid l) t ↔ parked_at l t.
Proof.
  intros Hg Hx Hy. unfold parked_at. destruct (decide (tid = t)) as [->|Hne].
  - rewrite list_lookup_alter_eq, Hg. simpl. split.
    + intros (g' & [= <-] & Hp). done.
    + intros (g' & [= <-] & Hp). done.
  - by rewrite list_lookup_alter_ne.
Qed.

Lemma chan_ok_cancel_ctx c s : chan_ok s → chan_ok (cancel_ctx c s).
Proof.
  intros (Hnd & Hq & Hp & Hcap). split; [|split; [|split]].
  - simpl. by apply NoDup_filter.
  - intros t. simpl. rewrite list_elem_of_filter. unfold parked_at. split.
    + intros [Hst Hin].
      apply Hq in Hin as (g & Hg & Hpc). unfold stays_parked in Hst.
      rewrite Hg in Hst. rewrite list_lookup_fmap, Hg. simpl.
      destruct (waits_on c g); [done|]. by exists g.
    + intros (g' & Hg' & Hpc). rewrite list_lookup_fmap in Hg'.
      destruct (gs s !! t) as [g|] eqn:Hg; [|done]. simpl in Hg'.
      injection Hg' as <-. unfold stays_parked.
      rewrite Hg. destruct (waits_on c g) eqn:Hw; [done|].
      split; [done|]. apply Hq. by exists g.
  - simpl. intros Hne. apply Hp. intros Hnil. apply Hne. by rewrite Hnil.
  - done.
Qed.

Lemma chan_ok_cancel_list cs s : chan_ok s → chan_ok (cancel_list cs s).
Proof.
  revert s. induction cs as [|c cs IH]; intros s Hs; simpl; [done|].
  by apply IH, chan_ok_cancel_ctx.
Qed.

Lemma chan_ok_set_sd x s : chan_ok (set_sd x s) ↔ chan_ok s.
Proof. done. Qed.

(** Projections of updated states. *)
Lemma gs_moved tid y s : gs (moved tid y s) = alter (set_pc y) tid (gs s).
Proof. done. Qed.
Lemma pool_moved tid y s : pool (moved tid y s) = pool s.
Proof. done. Qed.
Lemma gs_set_pool f s : gs (set_pool f s) = gs s.
Proof. done. Qed.
Lemma pool_set_pool f s : pool (set_pool f s) = f (pool s).
Proof. done. Qed.
Lemma gs_set_sd x s : gs (set_sd x s) = gs s.
Proof. done. Qed.
Lemma pool_set_sd x s : pool (set_sd x s) = pool s.
Proof. done. Qed.
Lemma jobs_set_jobs f p : jobs (set_jobs f p) = f (jobs p).
Proof. done. Qed.
Lemma jobs_set_mu b p : jobs (set_mu b p) = jobs p.
Proof. done. Qed.
Lemma jobs_set_workers f p : jobs (set_workers f p) = jobs p.
Proof. done. Qed.
Lemma jobs_set_wg x p : jobs (set_wg x p) = jobs p.
Proof. done. Qed.
Lemma recvq_with_recvq q ch : recvq (with_recvq q ch) = q.
Proof. done. Qed.
Lemma buf_with_recvq q ch : buf (with_recvq q ch) = buf ch.
Proof. done. Qed.
Lemma closed_with_recvq q ch : closed (with_recvq q ch) = closed ch.
Proof. done. Qed.
Lemma cap_with_recvq q ch : cap (with_recvq q ch) = cap ch.
Proof. done. Qed.
Lemma recvq_with_buf b ch : recvq (with_buf b ch) = recvq ch.
Proof. done. Qed.
Lemma buf_with_buf b ch : buf (with_buf b ch) = b.
Proof. done. Qed.
Lemma closed_with_buf b ch : closed (with_buf b ch) = closed ch.
Proof. done. Qed.
Lemma cap_with_buf b ch : cap (with_buf b ch) = cap ch.
Proof. done. Qed.
Lemma gs_added s :
  gs (added s) = gs s ++ [mkG (nextID (pool s)) (length (ctxs s)) WStart].
Proof. done. Qed.
Lemma jobs_added s : jobs (pool (added s)) = jobs (pool s).
Proof. done. Qed.
Lemma gs_closed_state s :
  gs (closed_state s) = wake_all (recvq (jobs (pool s))) (gs s).
Proof. done. Qed.
Lemma jobs_closed_state s : jobs (pool (closed_state s)) = close_chan (jobs (pool s)).
Proof. done. Qed.

Create Rewrite HintDb st.
#[local] Hint Rewrite gs_moved pool_moved gs_set_pool pool_set_pool gs_set_sd
  pool_set_sd jobs_set_jobs jobs_set_mu jobs_set_workers jobs_set_wg
  recvq_with_recvq buf_with_recvq closed_with_recvq cap_with_recvq
  recvq_with_buf buf_with_buf closed_with_buf cap_with_buf gs_added jobs_added
  jobs_closed_state : st.

Lemma parked_at_alter_away l tid y t :
  y ≠ WParked → parked_at (alter (set_pc y) tid l) t ↔ t ≠ tid ∧ parked_at l t.
Proof.
  intros Hy. unfold parked_at. destruct (decide (tid = t)) as [->|Hne].
  - rewrite list_lookup_alter_eq. split; [|by intros [? _]].
    intros (g & Hg & Hpc). destruct (l !! t); simplify_eq/=.
  - rewrite list_lookup_alter_ne by done. split; [by auto|by intros [_ ?]].
Qed.

Lemma parked_at_alter_park l tid t g :
  l !! tid = Some g →
  parked_at (alter (set_pc WParked) tid l) t ↔ t = tid ∨ parked_at l t.
Proof.
  intros Hg. unfold parked_at. destruct (decide (tid = t)) as [->|Hne].
  - rewrite list_lookup_alter_eq, Hg. simpl. split; [auto|eauto].
  - rewrite list_lookup_alter_ne by done. split; [by auto|].
    intros [->|?]; done.
Qed.

Lemma parked_at_app l g t :
  g_pc g ≠ WParked → parked_at (l ++ [g]) t ↔ parked_at l t.
Proof.
  intros Hg. unfold parked_at. split.
  - intros (g' & [Hg'|[Hl Hg']]%lookup_app_Some & Hpc); [by exists g'|].
    destruct (t - length l)%nat; simplify_eq/=.
  - intros (g' & Hg' & Hpc). exists g'. split; [by apply lookup_app_l_Some|done].
Qed.

Ltac chan_moved :=
  match goal with
  | Hg : gs ?s !! ?tid = Some ?g, Hpc : g_pc ?g = _ |- context [parked_at] =>
      intros t; autorewrite with st; rewrite (parked_at_alter _ _ _ _ g Hg);
      [done | by rewrite Hpc | done]
  end.

Lemma inv_chan_step s a evs s' : Inv s → step s a evs s' → chan_ok s'.
Proof.
  intros HI Hs. destruct (Inv_chan_ok _ HI) as (Hnd & Hq & Hp & Hcap).
  destruct Hs;
    try (split; [done|split; [chan_moved|split; done]]).
  - (* AddWorker *)
    unfold chan_ok. autorewrite with st. split; [done|]. split; [|done].
    intros t. rewrite parked_at_app by done. apply Hq.
  - by apply chan_ok_cancel_ctx, Inv_chan_ok.
  - done.
  - (* hand-off *)
    unfold chan_ok. autorewrite with st.
    rewrite H0 in Hnd, Hq, Hp. apply NoDup_cons in Hnd as [Hnin Hnd].
    split; [done|]. split; [|split; [|done]].
    + intros t. rewrite parked_at_alter_away by done. rewrite <- (Hq t).
      rewrite elem_of_cons. split.
      * intros Ht. split; [by intros ->|by right].
      * intros [Hne [?|?]]; done.
    + intros _. by apply Hp.
  - (* enqueue *)
    unfold chan_ok. autorewrite with st. rewrite H0 in *.
    split; [done|]. split; [done|]. split; [done|].
    rewrite length_app. simpl. lia.
  - done.
  - (* close *)
    unfold chan_ok. autorewrite with st. simpl.
    split; [apply NoDup_nil_2|]. split; [|split; [done|done]].
    intros t. rewrite <- gs_closed_state, closed_gs by done.
    split; [by intros ?%elem_of_nil|].
    intros (g' & Hg' & Hpc). rewrite list_lookup_fmap in Hg'.
    destruct (gs s !! t) as [g|]; simplify_eq/=. unfold unpark in Hpc.
    destruct (is_parked (g_pc g)) eqn:Hpk; [done|]. by rewrite Hpc in Hpk.
  - by apply chan_ok_set_sd, chan_ok_cancel_list, Inv_chan_ok.
  - done.
  - (* park *)
    unfold chan_ok. autorewrite with st.
    split; [|split; [|split; [done|done]]].
    + apply NoDup_app. split; [done|]. split; [|apply NoDup_singleton].
      intros t Ht ->%list_elem_of_singleton. apply Hq in Ht as (g' & Hg' & Hpc).
      simplify_eq. congruence.
    + intros t. rewrite elem_of_app, list_elem_of_singleton, Hq.
      rewrite (parked_at_alter_park _ _ _ g) by done. tauto.
  - (* receive *)
    unfold chan_ok. autorewrite with st.
    destruct (recvq (jobs (pool s))) as [|u q] eqn:Hrq.
    + split; [done|]. split; [|split; [done|]].
      * intros t.
        rewrite (parked_at_alter _ _ _ _ g H); [apply Hq|by rewrite H0|done].
      * rewrite H1 in Hcap. simpl in Hcap. lia.
    + destruct Hp as [Hb _]; [done|]. congruence.
Qed.

Lemma inv_sd_step s a evs s' :
  Inv s → step s a evs s' →
  closed (jobs (pool s')) = false ↔ sd s' = SdNotCalled.
Proof.
  intros HI Hs. pose proof (inv_sd _ HI) as Hsd.
  destruct Hs; try exact Hsd.
  - simpl. split; done.
  - destruct (cancel_list_frame (handles s) s) as (_ & _ & _ & _ & _ & Hc & _).
    change (closed (jobs (pool (cancel_list (handles s) s))) = false
            ↔ SdCancelled = SdNotCalled).
    rewrite Hc. split; [|done]. intros Hf. apply Hsd in Hf. congruence.
  - simpl. split; [|done]. intros Hf. apply Hsd in Hf. congruence.
Qed.

Theorem Inv_step s a evs s' : Inv s → step s a evs s' → Inv s'.
Proof.
  intros HI Hs.
  destruct (inv_ident_step _ _ _ _ HI Hs) as (H1 & H2 & H3 & H4).
  destruct (inv_counts_step _ _ _ _ HI Hs) as (H5 & H6).
  pose proof (inv_reg_step _ _ _ _ HI Hs) as H7.
  destruct (inv_chan_step _ _ _ _ HI Hs) as (H8 & H9 & H10 & H11).
  pose proof (inv_sd_step _ _ _ _ HI Hs) as H12.
  by constructor.
Qed.

Lemma Inv_exec s a evs s' : Inv s → exec a s = Ret (tt, evs, s') → Inv s'.
Proof. intros HI He. eapply Inv_step; [done|by apply exec_step]. Qed.

Lemma Inv_run acts s evs s' : Inv s → run acts s = Ret (tt, evs, s') → Inv s'.
Proof.
  revert s evs. induction acts as [|a acts IH]; intros s evs HI Hr; simpl in Hr.
  - by injection Hr as <- <-.
  - apply bind_Ret in Hr as ([] & e1 & s1 & e2 & Ha & Hr & ->).
    eapply IH; [|done]. by eapply Inv_exec.
Qed.

Theorem reachable_Inv s : reachable s → Inv s.
Proof.
  intros (n & s0 & acts & evs & Hnew & Hrun).
  eapply Inv_run; [|done]. by eapply Inv_init.
Qed.

(** ** The channel is never reopened, its capacity never changes *)

Lemma step_closed s a evs s' :
  step s a evs s' → closed (jobs (pool s)) = true →
  closed (jobs (pool s')) = true.
Proof.
  destruct 1; intros Hc; try done.
  destruct (cancel_list_frame (handles s) s) as (_ & _ & _ & _ & _ & Hcl & _).
  change (closed (jobs (pool (cancel_list (handles s) s))) = true). congruence.
Qed.

Lemma run_closed acts s evs s' :
  run acts s = Ret (tt, evs, s') → closed (jobs (pool s)) = true →
  closed (jobs (pool s')) = true.
Proof.
  revert s evs. induction acts as [|a acts IH]; intros s evs Hr Hc; simpl in Hr.
  - by injection Hr as <- <-.
  - apply bind_Ret in Hr as ([] & e1 & s1 & e2 & Ha & Hr & ->).
    eapply IH; [done|]. eapply step_closed; [by apply exec_step|done].
Qed.

Lemma step_cap s a evs s' :
  step s a evs s' → cap (jobs (pool s')) = cap (jobs (pool s)).
Proof.
  destruct 1; try done.
  destruct (cancel_list_frame (handles s) s) as (_ & _ & _ & _ & Hcap & _).
  exact Hcap.
Qed.

Lemma run_cap acts s evs s' :
  run acts s = Ret (tt, evs, s') → cap (jobs (pool s')) = cap (jobs (pool s)).
Proof.
  revert s evs. induction acts as [|a acts IH]; intros s evs Hr; simpl in Hr.
  - by injection Hr as <- <-.
  - apply bind_Ret in Hr as ([] & e1 & s1 & e2 & Ha & Hr & ->).
    rewrite (IH _ _ Hr). eapply step_cap. by apply exec_step.
Qed.

(** ** Ids are distinct until [int] overflows *)

Lemma wrap_int_small z : min_int ≤ z ≤ max_int → wrap_int z = z.
Proof.
  unfold wrap_int, min_int, max_int, int_bits. intros Hz.
  rewrite Z.mod_small; lia.
Qed.

Lemma ids_in_range s tid g :
  Inv s → Z.of_nat (length (gs s)) ≤ max_int + 1 →
  gs s !! tid = Some g → g_id g = Z.of_nat tid.
Proof.
  intros HI Hlen Hg. rewrite (inv_ids _ HI _ _ Hg).
  apply lookup_lt_Some in Hg. apply wrap_int_small.
  unfold min_int, max_int, int_bits in *. lia.
Qed.

(** The registry holds no entry for a goroutine that has run its
    delete. *)
Lemma stopped_not_registered s tid g :
  Inv s → Z.of_nat (length (gs s)) ≤ max_int + 1 →
  gs s !! tid = Some g → registered g = false →
  workers (pool s) !! g_id g = None.
Proof.
  intros HI Hlen Hg Hr.
  destruct (workers (pool s) !! g_id g) as [w|] eqn:Hw; [|done].
  destruct (inv_reg _ HI _ _ Hw) as (_ & _ & t & g' & Hg' & Hid & Hr').
  rewrite (ids_in_range _ _ _ HI Hlen Hg) in Hid.
  rewrite (ids_in_range _ _ _ HI Hlen Hg') in Hid.
  assert (t = tid) as -> by lia. simplify_eq. congruence.
Qed.

Lemma ctx_done_cancel c s :
  (c < length (ctxs s))%nat → ctx_done c (cancel_ctx c s) = true.
Proof.
  intros Hc. unfold ctx_done. simpl. by rewrite list_lookup_insert_eq.
Qed.

Lemma ctx_done_cancel_ne c c' s :
  c ≠ c' → ctx_done c' (cancel_ctx c s) = ctx_done c' s.
Proof.
  intros Hc. unfold ctx_done. simpl. by rewrite list_lookup_insert_ne.
Qed.

Lemma ctx_done_cancel_mono c c' s :
  ctx_done c' s = true → ctx_done c' (cancel_ctx c s) = true.
Proof.
  intros Hd. destruct (decide (c = c')) as [->|Hne].
  - apply ctx_done_cancel. unfold ctx_done in Hd.
    destruct (ctxs s !! c') eqn:Hl; [|done]. by apply lookup_lt_Some in Hl.
  - by rewrite ctx_done_cancel_ne.
Qed.

Lemma run_cons a acts s evs s' :
  run (a :: acts) s = Ret (tt, evs, s') ↔
  ∃ e1 s1 e2, exec a s = Ret (tt, e1, s1) ∧ run acts s1 = Ret (tt, e2, s')
              ∧ evs = e1 ++ e2.
Proof.
  cbn [run]. rewrite bind_Ret. split.
  - intros ([] & e1 & s1 & e2 & H). eauto.
  - intros (e1 & s1 & e2 & H). exists tt. eauto.
Qed.

Lemma run_one a s evs s' :
  exec a s = Ret (tt, evs, s') → run [a] s = Ret (tt, evs, s').
Proof.
  intros H. apply run_cons. exists evs, s', []. by rewrite app_nil_r.
Qed.

Lemma run_two a b s e1 s1 e2 s2 :
  exec a s = Ret (tt, e1, s1) → exec b s1 = Ret (tt, e2, s2) →
  run [a; b] s = Ret (tt, e1 ++ e2, s2).
Proof.
  intros Ha Hb. apply run_cons. exists e1, s1, e2. split; [done|].
  split; [by apply run_one|done].
Qed.

(** ** The mutex is released after at most two steps of its holder *)

Lemma countb_ex {A} (p : A → bool) l :
  (0 < countb p l)%nat → ∃ i x, l !! i = Some x ∧ p x = true.
Proof.
  induction l as [|y l IH]; simpl; [lia|]. intros Hc.
  destruct (p y) eqn:Hy.
  - by exists 0%nat, y.
  - destruct IH as (i & x & Hi & Hx); [lia|]. by exists (S i), x.
Qed.

Lemma lock_holder s :
  Inv s → mu (pool s) = true →
  ∃ tid g, gs s !! tid = Some g ∧ (g_pc g = WDelete ∨ g_pc g = WUnlock).
Proof.
  intros HI Hmu. pose proof (inv_mu _ HI) as Hc. rewrite Hmu in Hc.
  destruct (countb_ex holds_mu (gs s)) as (tid & g & Hg & Hh); [lia|].
  exists tid, g. split; [done|]. unfold holds_mu in Hh.
  destruct (g_pc g); auto; done.
Qed.

Lemma lock_released s :
  Inv s → mu (pool s) = true →
  ∃ tid acts evs s',
    (length acts ≤ 2)%nat ∧ Forall (λ a, a = Go tid PreferJob) acts ∧
    run acts s = Ret (tt, evs, s') ∧ mu (pool s') = false ∧
    ∃ g, gs s !! tid = Some g ∧ holds_mu g = true.
Proof.
  intros HI Hmu. destruct (lock_holder s HI Hmu) as (tid & g & Hg & [Hpc|Hpc]).
  - exists tid, [Go tid PreferJob; Go tid PreferJob]. eexists _, _.
    split; [simpl; lia|]. split; [by repeat constructor|].
    split.
    { eapply run_two.
      - apply step_exec. by eapply step_delete.
      - apply step_exec. eapply (step_unlock _ tid _ (set_pc WUnlock g)).
        + rewrite lookup_moved. rewrite decide_True by done.
          rewrite gs_set_pool, Hg. done.
        + done.
        + done. }
    split; [done|].
    exists g. split; [done|]. unfold holds_mu. by rewrite Hpc.
  - exists tid, [Go tid PreferJob]. eexists _, _.
    split; [simpl; lia|]. split; [by repeat constructor|].
    split; [apply run_one; apply step_exec; by eapply step_unlock|].
    split; [done|].
    exists g. split; [done|]. unfold holds_mu. by rewrite Hpc.
Qed.


(** ** SendJob *)

Lemma SendJob_eq job s :
  SendJob job s =
  if closed (jobs (pool s)) then Panic "send on closed channel"
  else match recvq (jobs (pool s)) with
       | tid :: q =>
           Ret (None, [EvAccept job; EvDeliver tid job],
                moved tid (WProc job) (set_pool (set_jobs (with_recvq q)) s))
       | [] =>
           if Z.of_nat (length (buf (jobs (pool s)))) <? cap (jobs (pool s))
           then Ret (None, [EvAccept job],
                     set_pool (set_jobs (with_buf (buf (jobs (pool s)) ++ [job]))) s)
           else Ret (Some QueueFullError, [EvReject job], s)
       end.
Proof.
  unfold SendJob, trySend, mbind, M_bind, mret, M_ret.
  destruct (closed (jobs (pool s))); [done|].
  destruct (recvq (jobs (pool s))); [|done].
  by destruct (Z.of_nat (length (buf (jobs (pool s)))) <? cap (jobs (pool s))).
Qed.


(** ** Ids returned along a schedule *)

Lemma returned_ids_cancels cs : returned_ids (EvCancel <$> cs) = [].
Proof. induction cs as [|c cs IH]; [done|]. by rewrite fmap_cons. Qed.

Lemma step_returned s a evs s' :
  step s a evs s' →
  (a = AddWorkerCall ∧ returned_ids evs = [nextID (pool s)] ∧
   nextID (pool s') = wrap_int (nextID (pool s) + 1)) ∨
  (a ≠ AddWorkerCall ∧ returned_ids evs = [] ∧
   nextID (pool s') = nextID (pool s)).
Proof.
  destruct 1; try (right; split; [done|split; done]).
  - by left.
  - right. split; [done|]. split.
    + unfold returned_ids. cbn [omap list_omap]. rewrite omap_app.
      fold (returned_ids (EvCancel <$> handles s)).
      by rewrite returned_ids_cancels.
    + rewrite pool_set_sd.
      by destruct (cancel_list_frame (handles s) s) as (_ & -> & _).
Qed.

Lemma run_returned acts s evs s' :
  run acts s = Ret (tt, evs, s') →
  min_int ≤ nextID (pool s) →
  nextID (pool s) + Z.of_nat (count_adds acts) ≤ max_int →
  returned_ids evs = seqZ (nextID (pool s)) (Z.of_nat (count_adds acts)) ∧
  nextID (pool s') = nextID (pool s) + Z.of_nat (count_adds acts).
Proof.
  revert s evs. induction acts as [|a acts IH]; intros s evs Hr Hmin Hmax.
  - simpl in Hr. injection Hr as <- <-. unfold count_adds. simpl.
    split; [by rewrite seqZ_nil|lia].
  - apply run_cons in Hr as (e1 & s1 & e2 & Ha & Hr & ->).
    apply exec_step, step_returned in Ha.
    unfold count_adds in *. cbn [countb] in *.
    unfold returned_ids in *. rewrite omap_app.
    destruct Ha as [(-> & He1 & Hn)|(Hne & He1 & Hn)].
    + rewrite bool_decide_true in * by done.
      rewrite wrap_int_small in Hn by lia.
      destruct (IH _ _ Hr) as [Hids Hnext]; [lia|lia|].
      rewrite He1, Hids, Hnext, Hn. split; [|lia].
      rewrite (seqZ_cons (nextID (pool s))) by lia. simpl. do 2 f_equal; lia.
    + rewrite bool_decide_false in * by done. simpl in *.
      destruct (IH _ _ Hr) as [Hids Hnext]; [lia|lia|].
      rewrite He1, Hids, Hnext, Hn. done.
Qed.


(** ** Cancelling one context leaves the other goroutines alone *)

Lemma waits_on_other c g : g_ctx g ≠ c → waits_on c g = false.
Proof.
  intros Hc. unfold waits_on. destruct (is_parked (g_pc g)); [|done].
  simpl. by apply Nat.eqb_neq.
Qed.

Lemma lookup_cancel_other c s tb gb :
  gs s !! tb = Some gb → g_ctx gb ≠ c → gs (cancel_ctx c s) !! tb = Some gb.
Proof.
  intros Hg Hc. simpl. rewrite list_lookup_fmap, Hg. simpl.
  by rewrite waits_on_other.
Qed.

Lemma recvq_cancel_other c s tb gb :
  gs s !! tb = Some gb → g_ctx gb ≠ c →
  tb ∈ recvq (jobs (pool (cancel_ctx c s))) ↔ tb ∈ recvq (jobs (pool s)).
Proof.
  intros Hg Hc. simpl. rewrite list_elem_of_filter. unfold stays_parked.
  rewrite Hg, waits_on_other by done. simpl. split; [by intros [_ ?]|done].
Qed.

Lemma cancel_other_step c s tb gb pref evs sb :
  gs s !! tb = Some gb → g_ctx gb ≠ c → step s (Go tb pref) evs sb →
  ∃ sb', step (cancel_ctx c s) (Go tb pref) evs sb' ∧
    gs sb' !! tb = gs sb !! tb ∧
    buf (jobs (pool sb')) = buf (jobs (pool sb)).
Proof.
  intros Hg Hc Hs.
  pose proof (lookup_cancel_other c s tb gb Hg Hc) as Hg'.
  pose proof (ctx_done_cancel_ne c (g_ctx gb) s (not_eq_sym Hc)) as Hd.
  inversion Hs; subst; simplify_eq;
    (eexists; split;
     [ first
         [ solve [eapply step_start; [exact Hg'|..]; rewrite ?Hd; eauto]
         | solve [eapply step_park; [exact Hg'|..]; rewrite ?Hd; eauto]
         | solve [eapply step_recv; [exact Hg'|..]; rewrite ?Hd; eauto]
         | solve [eapply step_drained; [exact Hg'|..]; rewrite ?Hd; eauto]
         | solve [eapply step_cancelled; [exact Hg'|..]; rewrite ?Hd; eauto]
         | solve [eapply step_proc; [exact Hg'|..]; rewrite ?Hd; eauto]
         | solve [eapply step_lock; [exact Hg'|..]; rewrite ?Hd; eauto]
         | solve [eapply step_delete; [exact Hg'|..]; rewrite ?Hd; eauto]
         | solve [eapply step_unlock; [exact Hg'|..]; rewrite ?Hd; eauto]
         | solve [eapply step_done; [exact Hg'|..]; rewrite ?Hd; eauto]
         | solve [eapply step_stopmsg; [exact Hg'|..]; rewrite ?Hd; eauto] ]
     | split; [by rewrite !lookup_moved, !decide_True, ?gs_set_pool, Hg, Hg' by done
              | done] ]).
Qed.

(** ** The steps of Shutdown *)

Lemma Shutdown_step_eq s :
  exec ShutdownStep s =
  match sd s with
  | SdNotCalled | SdReturned =>
      if closed (jobs (pool s)) then Panic "close of closed channel"
      else Ret (tt, [EvClose], set_sd SdClosed (closed_state s))
  | SdClosed =>
      if mu (pool s) then Blocked
      else Ret (tt, EvLock Caller :: (EvCancel <$> handles s) ++ [EvUnlock Caller],
                set_sd SdCancelled (cancel_list (handles s) s))
  | SdCancelled =>
      if wg (pool s) =? 0 then Ret (tt, [EvWgWait], set_sd SdReturned s)
      else Blocked
  end.
Proof.
  simpl. unfold Shutdown_step. destruct (sd s).
  - unfold Shutdown_close. unfold_M. by destruct (closed (jobs (pool s))).
  - unfold mbind, M_bind. rewrite Shutdown_cancel_eq.
    destruct (mu (pool s)); [done|]. unfold modify. by rewrite app_nil_r.
  - unfold Shutdown_wait. unfold_M. by destruct (wg (pool s) =? 0).
  - unfold Shutdown_close. unfold_M. by destruct (closed (jobs (pool s))).
Qed.



(** Only a step of Shutdown moves Shutdown forward. *)
Lemma step_sd_other s a evs s' :
  step s a evs s' → a ≠ ShutdownStep → sd s' = sd s.
Proof.
  destruct 1; intros Ha; try done.
Qed.

Lemma run_sd_other acts s evs s' :
  run acts s = Ret (tt, evs, s') → Forall (λ a, a ≠ ShutdownStep) acts →
  sd s' = sd s.
Proof.
  revert s evs. induction acts as [|a acts IH]; intros s evs Hr Hall.
  - simpl in Hr. by injection Hr as <- <-.
  - apply run_cons in Hr as (e1 & s1 & e2 & Ha & Hr & ->).
    apply Forall_cons in Hall as [Hne Hall].
    rewrite (IH _ _ Hr Hall). eapply step_sd_other; [by apply exec_step|done].
Qed.



(** ** The deferred function runs once *)






Lemma woken_refl l : woken l l.
Proof. split; [done|]. auto. Qed.

Lemma woken_trans l1 l2 l3 : woken l1 l2 → woken l2 l3 → woken l1 l3.
Proof.
  intros [Hl1 H1] [Hl2 H2]. split; [congruence|]. intros t g Hg.
  destruct (H1 _ _ Hg) as [Hg2|[Hp Hg2]].
  - apply (H2 _ _ Hg2).
  - right. split; [done|]. by destruct (H2 _ _ Hg2) as [?|[? _]].
Qed.

Lemma woken_cancel_ctx c s : woken (gs s) (gs (cancel_ctx c s)).
Proof.
  split; [simpl; apply length_fmap|]. intros t g Hg. simpl.
  rewrite list_lookup_fmap, Hg. simpl. unfold waits_on.
  destruct (is_parked (g_pc g)) eqn:Hp; [|by left].
  destruct (g_ctx g =? c)%nat; [|by left]. right. by destruct (g_pc g).
Qed.

Lemma woken_cancel_list cs s : woken (gs s) (gs (cancel_list cs s)).
Proof.
  revert s. induction cs as [|c cs IH]; intros s; simpl; [apply woken_refl|].
  eapply woken_trans; [apply woken_cancel_ctx|apply IH].
Qed.

Lemma woken_closed s : Inv s → woken (gs s) (gs (closed_state s)).
Proof.
  intros HI. rewrite closed_gs by done. split; [apply length_fmap|].
  intros t g Hg. rewrite list_lookup_fmap, Hg. simpl. unfold unpark.
  destruct (is_parked (g_pc g)) eqn:Hp; [|by left]. right. by destruct (g_pc g).
Qed.







(** ** Worker steps do not panic *)

Lemma worker_step_no_panic s tid pref msg :
  Inv s → exec (Go tid pref) s ≠ Panic msg.
Proof.
  intros HI. simpl. unfold worker_step.
  destruct (gs s !! tid) as [g|] eqn:Hg; [|done].
  destruct (g_pc g) eqn:Hpc; unfold_M; try done.
  - unfold selectWorker, recvJob, park. unfold_M.
    destruct (ctx_done (g_ctx g) s); destruct (buf (jobs (pool s)));
      destruct (closed (jobs (pool s))); try destruct pref; done.
  - by destruct (mu (pool s)).
  - pose proof (inv_mu _ HI) as Hmu.
    assert (holds_mu g = true) as Hh by (unfold holds_mu; by rewrite Hpc).
    pose proof (countb_pos holds_mu (gs s) g (list_elem_of_lookup_2 _ _ _ Hg) Hh).
    destruct (mu (pool s)); [done|lia].
  - pose proof (inv_wg _ HI) as Hwg.
    assert (live g = true) as Hl by (unfold live; by rewrite Hpc).
    pose proof (countb_pos live (gs s) g (list_elem_of_lookup_2 _ _ _ Hg) Hl).
    destruct (wg (pool s) + -1 <? 0) eqn:Hlt; [lia|done].
Qed.

(** ** Accepted jobs are delivered in order, at most once *)

Lemma accepted_cancels cs : accepted (EvCancel <$> cs) = [].
Proof. induction cs as [|c cs IH]; [done|]. by rewrite fmap_cons. Qed.

Lemma delivered_cancels cs : delivered (EvCancel <$> cs) = [].
Proof. induction cs as [|c cs IH]; [done|]. by rewrite fmap_cons. Qed.

Lemma step_fifo s a evs s' :
  Inv s → step s a evs s' →
  buf (jobs (pool s)) ++ accepted evs = delivered evs ++ buf (jobs (pool s')).
Proof.
  intros HI Hs. destruct Hs; simpl; rewrite ?app_nil_r; try done.
  - destruct (inv_parked _ HI) as [-> _]; [by rewrite H0|done].
  - unfold accepted, delivered. rewrite !omap_app.
    fold (accepted (EvCancel <$> handles s)).
    fold (delivered (EvCancel <$> handles s)).
    rewrite accepted_cancels, delivered_cancels. simpl. rewrite app_nil_r.
    by destruct (cancel_list_frame (handles s) s) as (_ & _ & _ & -> & _).
Qed.

Lemma run_fifo acts s evs s' :
  Inv s → run acts s = Ret (tt, evs, s') →
  buf (jobs (pool s)) ++ accepted evs = delivered evs ++ buf (jobs (pool s')).
Proof.
  revert s evs. induction acts as [|a acts IH]; intros s evs HI Hr.
  - simpl in Hr. injection Hr as <- <-. simpl. by rewrite app_nil_r.
  - apply run_cons in Hr as (e1 & s1 & e2 & Ha & Hr & ->).
    pose proof (step_fifo _ _ _ _ HI (exec_step _ _ _ _ Ha)) as H1.
    pose proof (IH _ _ (Inv_exec _ _ _ _ HI Ha) Hr) as H2.
    unfold accepted, delivered in *. rewrite !omap_app.
    rewrite app_assoc, H1, <- app_assoc, H2, app_assoc. done.
Qed.

(** ** When the wait group is at zero *)

Lemma registered_live g : registered g = true → live g = true.
Proof. unfold registered, live. by destruct (g_pc g). Qed.

Lemma quiescent s :
  Inv s → wg (pool s) = 0 →
  workers (pool s) = ∅ ∧ ∀ tid g, gs s !! tid = Some g → live g = false.
Proof.
  intros HI Hwg. pose proof (inv_wg _ HI) as Hc. rewrite Hwg in Hc.
  assert (∀ tid g, gs s !! tid = Some g → live g = false) as Hl.
  { intros tid g Hg. eapply (countb_zero live (gs s)); [lia|].
    by eapply list_elem_of_lookup_2. }
  split; [|done]. apply map_empty. intros k.
  destruct (workers (pool s) !! k) as [w|] eqn:Hw; [|done].
  destruct (inv_reg _ HI _ _ Hw) as (_ & _ & tid & g & Hg & _ & Hr).
  apply registered_live in Hr. by rewrite (Hl _ _ Hg) in Hr.
Qed.

(** ** After the queue is closed the workers stop *)

Lemma sumf_alter {A} (f : A → nat) (h : A → A) i l x :
  l !! i = Some x →
  (sumf f (alter h i l) + f x = sumf f l + f (h x))%nat.
Proof.
  revert i. induction l as [|y l IH]; intros [|i] Hi; simplify_eq/=.
  - lia.
  - specialize (IH _ Hi). lia.
Qed.

Lemma closed_no_parked s tid g :
  Inv s → closed (jobs (pool s)) = true → gs s !! tid = Some g →
  g_pc g ≠ WParked.
Proof.
  intros HI Hc Hg Hp.
  assert (tid ∈ recvq (jobs (pool s))) as Hin by (apply (inv_recvq _ HI); eauto).
  destruct (inv_parked _ HI) as [_ Hc']; [|congruence].
  intros Hnil. rewrite Hnil in Hin. by apply elem_of_nil in Hin.
Qed.

Lemma worker_step_decreases s tid pref evs s' :
  closed (jobs (pool s)) = true → step s (Go tid pref) evs s' →
  (measure s' < measure s)%nat.
Proof.
  intros Hc Hs. unfold measure.
  inversion Hs; subst; autorewrite with st;
    try congruence;
    match goal with
    | Hg : gs s !! tid = Some ?g, Hpc : g_pc ?g = _
      |- context [sumf weight (alter (set_pc ?y) tid (gs s))] =>
        pose proof (sumf_alter weight (set_pc y) tid (gs s) g Hg) as Hsum;
        set (c1 := sumf weight (alter (set_pc y) tid (gs s))) in *;
        set (c2 := sumf weight (gs s)) in *;
        unfold weight in Hsum; simpl in Hsum; rewrite Hpc in Hsum;
        clearbody c1 c2; try lia
    end.
  match goal with H : buf _ = _ :: _ |- _ => rewrite H end.
  simpl. lia.
Qed.

(** While the wait group is not at zero and the queue is closed, some
    goroutine can take a step. *)
Lemma worker_progress s :
  Inv s → closed (jobs (pool s)) = true → wg (pool s) ≠ 0 →
  ∃ tid pref evs s', step s (Go tid pref) evs s'.
Proof.
  intros HI Hc Hwg. pose proof (inv_wg _ HI) as Hcnt.
  destruct (countb_ex live (gs s)) as (tid & g & Hg & Hl); [lia|].
  destruct (g_pc g) eqn:Hpc; try (unfold live in Hl; by rewrite Hpc in Hl).
  - exists tid, PreferJob. eexists _, _. by eapply step_start.
  - destruct (ctx_done (g_ctx g) s) eqn:Hd.
    + exists tid, PreferDone. eexists _, _. eapply step_cancelled; eauto.
    + destruct (buf (jobs (pool s))) as [|job rest] eqn:Hb.
      * exists tid, PreferJob. eexists _, _. eapply step_drained; eauto.
      * exists tid, PreferJob. eexists _, _. eapply step_recv; eauto.
  - by destruct (closed_no_parked s tid g HI Hc Hg).
  - exists tid, PreferJob. eexists _, _. by eapply step_proc.
  - destruct (mu (pool s)) eqn:Hmu.
    + destruct (lock_holder s HI Hmu) as (t & h & Hh & [Hp|Hp]).
      * exists t, PreferJob. eexists _, _. by eapply step_delete.
      * exists t, PreferJob. eexists _, _. by eapply step_unlock.
    + exists tid, PreferJob. eexists _, _. by eapply step_lock.
  - exists tid, PreferJob. eexists _, _. by eapply step_delete.
  - exists tid, PreferJob. eexists _, _. eapply step_unlock; eauto.
    pose proof (inv_mu _ HI) as Hmu.
    assert (holds_mu g = true) as Hh by (unfold holds_mu; by rewrite Hpc).
    pose proof (countb_pos holds_mu (gs s) g (list_elem_of_lookup_2 _ _ _ Hg) Hh).
    destruct (mu (pool s)); [done|lia].
  - exists tid, PreferJob. eexists _, _. eapply step_done; eauto.
    pose proof (countb_pos live (gs s) g (list_elem_of_lookup_2 _ _ _ Hg) Hl).
    lia.
Qed.

Lemma is_go_not_sd a : is_go a → a ≠ ShutdownStep.
Proof. by destruct a. Qed.

(** Every schedule of worker steps on a closed queue is at most
    [measure] long. *)
Lemma workers_bounded acts s evs s' :
  closed (jobs (pool s)) = true → Forall is_go acts →
  run acts s = Ret (tt, evs, s') →
  (length acts + measure s' ≤ measure s)%nat.
Proof.
  revert s evs. induction acts as [|a acts IH]; intros s evs Hc Hall Hr.
  - simpl in Hr. injection Hr as <- <-. simpl. lia.
  - apply run_cons in Hr as (e1 & s1 & e2 & Ha & Hr & ->).
    apply Forall_cons in Hall as [Hgo Hall]. apply exec_step in Ha.
    destruct a as [| | | |tid pref]; try done.
    pose proof (worker_step_decreases _ _ _ _ _ Hc Ha).
    pose proof (IH _ _ (step_closed _ _ _ _ Ha Hc) Hall Hr). simpl. lia.
Qed.

(** And some schedule of worker steps brings the wait group to zero. *)
Lemma workers_finish s :
  Inv s → closed (jobs (pool s)) = true →
  ∃ acts evs s', Forall is_go acts ∧ run acts s = Ret (tt, evs, s') ∧
    wg (pool s') = 0 ∧ sd s' = sd s.
Proof.
  remember (measure s) as m eqn:Hm. revert s Hm.
  induction m as [m IH] using lt_wf_ind. intros s -> HI Hc.
  destruct (decide (wg (pool s) = 0)) as [Hz|Hnz].
  - exists [], [], s. by repeat split.
  - destruct (worker_progress s HI Hc Hnz) as (tid & pref & e1 & s1 & Hs).
    destruct (IH (measure s1) (worker_step_decreases _ _ _ _ _ Hc Hs) s1 eq_refl)
      as (acts & e2 & s' & Hall & Hr & Hz & Hsd).
    + by eapply Inv_step.
    + by eapply step_closed.
    + exists (Go tid pref :: acts), (e1 ++ e2), s'.
      split; [by constructor|]. split; [|split; [done|]].
      * apply run_cons. exists e1, s1, e2. split; [by apply step_exec|done].
      * rewrite Hsd. by eapply step_sd_other.
Qed.

(** Shutdown returns: from every reachable state in which it has not been
    called, some schedule made of its three steps and of worker steps
    completes it; and once the queue is closed no schedule of worker steps
    is longer than [measure], and one of them can continue as long as the
    wait group is not at zero. *)
Theorem Shutdown_returns s :
  reachable s →
  (sd s = SdNotCalled →
     ∃ acts evs s', Forall (λ a, a = ShutdownStep ∨ is_go a) acts ∧
       run acts s = Ret (tt, evs, s') ∧ sd s' = SdReturned) ∧
  (closed (jobs (pool s)) = true →
     (∀ acts evs s', Forall is_go acts → run acts s = Ret (tt, evs, s') →
        (length acts + measure s' ≤ measure s)%nat) ∧
     (wg (pool s) ≠ 0 → ∃ tid pref evs s', exec (Go tid pref) s = Ret (tt, evs, s'))).
Proof.
  intros Hre. pose proof (reachable_Inv _ Hre) as HI. split.
  - intros Hsd.
    (* close *)
    assert (closed (jobs (pool s)) = false) as Hc by (by apply (inv_sd _ HI)).
    pose proof (step_close s (or_introl Hsd) Hc) as H1.
    set (s1 := set_sd SdClosed (closed_state s)) in *.
    assert (Inv s1) as HI1 by (by eapply Inv_step).
    (* the mutex *)
    assert (∃ w e s2, Forall is_go w ∧ run w s1 = Ret (tt, e, s2) ∧
              mu (pool s2) = false ∧ sd s2 = SdClosed) as (w1 & e1 & s2 & Hw1 & Hr1 & Hmu & Hsd2).
    { destruct (mu (pool s1)) eqn:Hmu.
      - destruct (lock_released s1 HI1 Hmu) as (tid & w & e & s2 & _ & Hall & Hr & Hmu2 & _).
        exists w, e, s2. split; [|split; [done|split; [done|]]].
        + eapply Forall_impl; [exact Hall|]. by intros a ->.
        + rewrite (run_sd_other _ _ _ _ Hr); [done|].
          eapply Forall_impl; [exact Hall|]. by intros a ->.
      - exists [], [], s1. by repeat split. }
    assert (Inv s2) as HI2 by (by eapply Inv_run).
    (* cancel *)
    pose proof (step_cancel s2 Hsd2 Hmu) as H2.
    set (s3 := set_sd SdCancelled (cancel_list (handles s2) s2)) in *.
    assert (Inv s3) as HI3 by (by eapply Inv_step).
    assert (closed (jobs (pool s3)) = true) as Hc3.
    { destruct (closed (jobs (pool s3))) eqn:E; [done|].
      by apply (inv_sd _ HI3) in E. }
    (* the workers *)
    destruct (workers_finish s3 HI3 Hc3) as (w2 & e2 & s4 & Hw2 & Hr2 & Hz & Hsd4).
    pose proof (step_wait s4 Hsd4 Hz) as H3.
    exists (ShutdownStep :: w1 ++ ShutdownStep :: w2 ++ [ShutdownStep]).
    eexists _, _. split; [|split].
    + constructor; [by left|]. apply Forall_app. split.
      { eapply Forall_impl; [exact Hw1|]. by right. }
      constructor; [by left|]. apply Forall_app. split.
      { eapply Forall_impl; [exact Hw2|]. by right. }
      constructor; [by left|constructor].
    + apply run_cons. eexists _, _, _. split; [by apply step_exec|].
      split; [|done]. apply run_app. eexists _, _, _. split; [exact Hr1|].
      split; [|done]. apply run_cons. eexists _, _, _.
      split; [by apply step_exec|]. split; [|done].
      apply run_app. eexists _, _, _. split; [exact Hr2|]. split; [|done].
      apply run_one. by apply step_exec.
    + done.
  - intros Hc. split.
    + intros acts evs s' Hall Hr. by eapply workers_bounded.
    + intros Hwg. destruct (worker_progress s HI Hc Hwg) as (tid & pref & e & s' & Hs).
      exists tid, pref, e, s'. by apply step_exec.
Qed.

(** ** A goroutine in its deferred function can finish it *)

Lemma go_other_frame s t pref evs s' tid :
  step s (Go t pref) evs s' → tid ≠ t → gs s' !! tid = gs s !! tid.
Proof.
  intros Hs Hne. inversion Hs; subst;
    by rewrite lookup_moved, decide_False, ?gs_set_pool by done.
Qed.

Lemma run_go_other_frame acts s t evs s' tid :
  Forall (λ a, a = Go t PreferJob) acts → run acts s = Ret (tt, evs, s') →
  tid ≠ t → gs s' !! tid = gs s !! tid.
Proof.
  revert s evs. induction acts as [|a acts IH]; intros s evs Hall Hr Hne.
  - simpl in Hr. by injection Hr as <- <-.
  - apply run_cons in Hr as (e1 & s1 & e2 & Ha & Hr & ->).
    apply Forall_cons in Hall as [-> Hall].
    rewrite (IH _ _ Hall Hr Hne).
    eapply go_other_frame; [by apply exec_step|done].
Qed.

Lemma defer_step s tid g :
  Inv s → gs s !! tid = Some g →
  (2 ≤ rank (g_pc g))%nat → (rank (g_pc g) < 7)%nat →
  (g_pc g = WLock → mu (pool s) = false) →
  ∃ evs s' g', step s (Go tid PreferJob) evs s' ∧ gs s' !! tid = Some g' ∧
    rank (g_pc g') = S (rank (g_pc g)).
Proof.
  intros HI Hg Hlo Hhi Hmu.
  assert (∀ y f, gs (moved tid y (set_pool f s)) !! tid = Some (set_pc y g)) as Hl.
  { intros y f. by rewrite lookup_moved, decide_True, gs_set_pool, Hg by done. }
  assert (∀ y, gs (moved tid y s) !! tid = Some (set_pc y g)) as Hl'.
  { intros y. by rewrite lookup_moved, decide_True, Hg by done. }
  destruct (g_pc g) eqn:Hpc; simpl in Hlo, Hhi; try lia.
  - eexists _, _, _. split; [eapply step_lock; eauto|].
    split; [apply Hl|reflexivity].
  - eexists _, _, _. split; [by eapply step_delete|].
    split; [apply Hl|reflexivity].
  - assert (mu (pool s) = true) as Hm.
    { pose proof (inv_mu _ HI) as Hm.
      assert (holds_mu g = true) as Hh by (unfold holds_mu; by rewrite Hpc).
      pose proof (countb_pos holds_mu (gs s) g (list_elem_of_lookup_2 _ _ _ Hg) Hh).
      destruct (mu (pool s)); [done|lia]. }
    eexists _, _, _. split; [by eapply step_unlock|].
    split; [apply Hl|reflexivity].
  - assert (0 ≤ wg (pool s) + -1) as Hw.
    { pose proof (inv_wg _ HI) as Hw.
      assert (live g = true) as Hl0 by (unfold live; by rewrite Hpc).
      pose proof (countb_pos live (gs s) g (list_elem_of_lookup_2 _ _ _ Hg) Hl0).
      lia. }
    eexists _, _, _. split; [by eapply step_done|].
    split; [apply Hl|reflexivity].
  - eexists _, _, _. split; [by eapply step_stopmsg|].
    split; [apply Hl'|reflexivity].
Qed.

Lemma finish_deferred k s tid g :
  Inv s → gs s !! tid = Some g →
  (2 ≤ rank (g_pc g))%nat → (7 - rank (g_pc g) = k)%nat →
  ∃ acts evs s' g', Forall is_go acts ∧ run acts s = Ret (tt, evs, s') ∧
    gs s' !! tid = Some g' ∧ g_pc g' = WExited.
Proof.
  revert s g. induction k as [|k IH]; intros s g HI Hg Hlo Hk.
  - exists [], [], s, g. split; [constructor|]. split; [done|]. split; [done|].
    destruct (g_pc g); simpl in Hk, Hlo; try lia. done.
  - (* free the mutex if [tid] waits for it *)
    assert (∃ acts0 e0 s0, Forall is_go acts0 ∧ run acts0 s = Ret (tt, e0, s0) ∧
              gs s0 !! tid = Some g ∧ (g_pc g = WLock → mu (pool s0) = false))
      as (acts0 & e0 & s0 & Hall0 & Hr0 & Hg0 & Hmu0).
    { destruct (decide (g_pc g = WLock ∧ mu (pool s) = true)) as [[Hpc Hmu]|Hn].
      - destruct (lock_released s HI Hmu)
          as (t & w & e & s0 & _ & Hall & Hr & Hmu2 & h & Hh & Hhm).
        assert (tid ≠ t) as Hne.
        { intros ->. simplify_eq. unfold holds_mu in Hhm. by rewrite Hpc in Hhm. }
        exists w, e, s0. split; [|split; [done|split; [|done]]].
        + eapply Forall_impl; [exact Hall|]. by intros a ->.
        + by rewrite (run_go_other_frame _ _ _ _ _ _ Hall Hr Hne).
      - exists [], [], s. split; [constructor|]. split; [done|]. split; [done|].
        intros Hpc. destruct (mu (pool s)) eqn:Hmu; [|done]. by destruct Hn. }
    assert (Inv s0) as HI0 by (by eapply Inv_run).
    destruct (defer_step s0 tid g HI0 Hg0 Hlo ltac:(lia) Hmu0)
      as (e1 & s1 & g1 & Hs1 & Hg1 & Hr1).
    destruct (IH s1 g1) as (acts & e2 & s' & g' & Hall & Hr & Hg' & Hpc');
      [by eapply Inv_step|done|lia|lia|].
    exists (acts0 ++ Go tid PreferJob :: acts), (e0 ++ e1 ++ e2), s', g'.
    split; [|split; [|done]].
    + apply Forall_app. split; [done|]. by constructor.
    + apply run_app. exists e0, s0, (e1 ++ e2). split; [done|]. split; [|done].
      apply run_cons. exists e1, s1, e2. split; [by apply step_exec|done].
Qed.

(** ** The three steps are the body of Shutdown *)

Lemma cancel_list_set_sd x cs s :
  cancel_list cs (set_sd x s) = set_sd x (cancel_list cs s).
Proof.
  revert s. induction cs as [|c cs IH]; intros s; simpl; [done|].
  by rewrite <- IH.
Qed.

(** Run without interruption, the three steps are the method body
    [close(p.jobs); p.mu.Lock(); for ... { worker.Cancel() };
    p.mu.Unlock(); p.wg.Wait()]. *)
Lemma Shutdown_steps_agree s :
  sd s = SdNotCalled →
  run [ShutdownStep; ShutdownStep; ShutdownStep] s =
  match Shutdown s with
  | Ret (_, evs, s') => Ret (tt, evs, set_sd SdReturned s')
  | Blocked => Blocked
  | Panic msg => Panic msg
  end.
Proof.
  intros Hsd.
  assert (∀ a acts s, run (a :: acts) s =
            match exec a s with
            | Ret (_, e1, s1) =>
                match run acts s1 with
                | Ret (_, e2, s2) => Ret (tt, e1 ++ e2, s2)
                | Blocked => Blocked
                | Panic msg => Panic msg
                end
            | Blocked => Blocked
            | Panic msg => Panic msg
            end) as Hrun.
  { intros a acts s0. cbn [run]. rewrite bind_eq.
    destruct (exec a s0) as [[[[] e1] s1]| |]; [|done|done].
    by destruct (run acts s1) as [[[[] e2] s2]| |]. }
  assert (Shutdown s =
            if closed (jobs (pool s)) then Panic "close of closed channel"
            else if mu (pool s) then Blocked
            else let s1 := closed_state s in
                 let s2 := cancel_list (handles s1) s1 in
                 if wg (pool s2) =? 0
                 then Ret (tt, EvClose :: (EvLock Caller :: (EvCancel <$> handles s1)
                                 ++ [EvUnlock Caller]) ++ [EvWgWait], s2)
                 else Blocked) as ->.
  { unfold Shutdown, Shutdown_close, Shutdown_wait.
    rewrite bind_eq. unfold closeJobs at 1.
    destruct (closed (jobs (pool s))); [done|].
    rewrite bind_eq, Shutdown_cancel_eq.
    change (mu (pool (closed_state s))) with (mu (pool s)).
    destruct (mu (pool s)); [done|]. unfold wgWait. cbv zeta.
    by destruct (wg (pool (cancel_list (handles (closed_state s)) (closed_state s))) =? 0). }
  rewrite Hrun, Shutdown_step_eq, Hsd.
  destruct (closed (jobs (pool s))) eqn:Hc; [done|].
  rewrite Hrun, Shutdown_step_eq.
  change (sd (set_sd SdClosed (closed_state s))) with SdClosed. cbv iota.
  change (mu (pool (set_sd SdClosed (closed_state s)))) with (mu (pool s)).
  destruct (mu (pool s)) eqn:Hmu; [done|].
  rewrite Hrun, Shutdown_step_eq.
  change (handles (set_sd SdClosed (closed_state s))) with (handles (closed_state s)).
  rewrite cancel_list_set_sd.
  change (sd (set_sd SdCancelled (set_sd SdClosed
                (cancel_list (handles (closed_state s)) (closed_state s)))))
    with SdCancelled. cbv iota.
  change (wg (pool (set_sd SdCancelled (set_sd SdClosed
            (cancel_list (handles (closed_state s)) (closed_state s))))))
    with (wg (pool (cancel_list (handles (closed_state s)) (closed_state s)))).
  cbv zeta.
  destruct (wg (pool (cancel_list (handles (closed_state s)) (closed_state s))) =? 0);
    [|done].
  cbn [run]. unfold mret, M_ret. rewrite !app_nil_r. reflexivity.
Qed.

(** Shutdown of an idle pool whose mutex is free returns at once. *)
Lemma Shutdown_idle s :
  closed (jobs (pool s)) = false → mu (pool s) = false → wg (pool s) = 0 →
  ∃ evs s', Shutdown s = Ret (tt, evs, s') ∧ closed (jobs (pool s')) = true.
Proof.
  intros Hc Hmu Hwg. unfold Shutdown, Shutdown_close, Shutdown_wait.
  rewrite bind_eq. unfold closeJobs at 1. rewrite Hc.
  rewrite bind_eq, Shutdown_cancel_eq.
  change (mu (pool (closed_state s))) with (mu (pool s)). rewrite Hmu.
  unfold wgWait.
  destruct (cancel_list_frame (handles (closed_state s)) (closed_state s))
    as (_ & _ & Hw & _ & _ & Hcl & _).
  rewrite Hw. change (wg (pool (closed_state s))) with (wg (pool s)).
  rewrite Hwg. simpl. eexists _, _. split; [done|]. by rewrite Hcl.
Qed.

(** ** The run of the README *)

(** The schedule [main_schedule] runs on [NewPool(10)], every SendJob
    succeeds, and the workers print the lines of the README in the order
    shown there; in the end the registry is empty, every job has been
    delivered and Shutdown has returned. *)
Example readme_run :
  ∃ s0 evs s,
    NewPool 10 = Ret s0 ∧ run main_schedule s0 = Ret (tt, evs, s) ∧
    printed evs =
      [Started 0; Started 1;
       Processing 1 "Task 1"; Processing 0 "Task 0"; Processing 0 "Task 2";
       Processing 1 "Task 3"; Processing 0 "Task 4"; Processing 0 "Task 6";
       Started 2; Processing 2 "Task 7"; Processing 1 "Task 5";
       Stopped 0; Stopped 2; Stopped 1] ∧
    accepted evs = delivered evs ∧ length (accepted evs) = 8%nat ∧
    returned_ids evs = [0; 1; 2] ∧
    workers (pool s) = ∅ ∧ sd s = SdReturned.
Proof.
  eexists _, _, _. split; [reflexivity|]. split; [vm_compute; reflexivity|].
  by vm_compute.
Qed.

(** * The properties stated by the specification *)

(** ** C1: what Shutdown guarantees *)

(** C1 as stated fails: a job accepted before Shutdown closed the queue
    is never delivered, since the only worker leaves its loop through its
    cancelled context while "Task 1" is still in the buffer.  And when
    Shutdown returns the goroutine of the worker has not finished: its
    last statement is still to run. *)
Lemma C1_counterexample :
  ∃ e1 e2 s,
    NewPool 2 = Ret pool2 ∧
    run drop_schedule pool2 = Ret (tt, e1 ++ EvClose :: e2, s) ∧
    sd s = SdReturned ∧
    accepted e1 = ["Task 0"; "Task 1"] ∧
    delivered (e1 ++ EvClose :: e2) = ["Task 0"] ∧
    buf (jobs (pool s)) = ["Task 1"] ∧
    workers (pool s) = ∅ ∧
    gs s = [mkG 0 0 WStopMsg].
Proof.
  eexists [_; _; _; _; _; _; _; _; _; _], _, _.
  split; [reflexivity|]. split; [vm_compute; reflexivity|].
  by repeat split.
Qed.

(** C1, amended.  Along every schedule of a pool, the jobs for which
    SendJob returned nil are, in their order of submission, the jobs
    delivered to workers followed by the jobs still in the buffer: no
    job is delivered twice or out of order, and a job that was accepted
    and not delivered is still in the queue.  In the state in which
    Shutdown returns, the wait group counter is zero, the registry is
    empty, and every worker goroutine has deleted its entry and called
    Done. *)
Theorem C1_drain_and_return (n : Z) (s0 : state) acts evs s :
  NewPool n = Ret s0 →
  run acts s0 = Ret (tt, evs, s) →
  accepted evs = delivered evs ++ buf (jobs (pool s)) ∧
  (∀ acts', acts = acts' ++ [ShutdownStep] → sd s = SdReturned →
     wg (pool s) = 0 ∧ workers (pool s) = ∅ ∧
     ∀ tid g, gs s !! tid = Some g →
       registered g = false ∧ (g_pc g = WStopMsg ∨ g_pc g = WExited)).
Proof.
  intros Hnew Hr. pose proof (Inv_init _ _ Hnew) as HI0.
  pose proof (Inv_run _ _ _ _ HI0 Hr) as HI.
  split.
  - pose proof (run_fifo _ _ _ _ HI0 Hr) as Hf.
    unfold NewPool, makeChan in Hnew. destruct (n <? 0); [done|].
    injection Hnew as <-. exact Hf.
  - intros acts' -> Hsd.
    apply run_snoc in Hr as (e1 & s1 & e2 & Hr1 & He & ->).
    rewrite Shutdown_step_eq in He.
    assert (wg (pool s) = 0) as Hwg.
    { destruct (sd s1).
      - destruct (closed (jobs (pool s1))); [done|]. by injection He as <- <-.
      - destruct (mu (pool s1)); [done|]. by injection He as <- <-.
      - destruct (wg (pool s1) =? 0) eqn:Hz; [|done]. injection He as <- <-.
        simpl. lia.
      - destruct (closed (jobs (pool s1))); [done|]. by injection He as <- <-. }
    destruct (quiescent s HI Hwg) as [Hw Hl].
    split; [done|]. split; [done|]. intros tid g Hg.
    specialize (Hl _ _ Hg). unfold live in Hl. unfold registered.
    destruct (g_pc g); try done; auto.
Qed.

Lemma C1_witness :
  ∃ evs s,
    run drop_schedule pool2 = Ret (tt, evs, s) ∧
    accepted evs = delivered evs ++ buf (jobs (pool s)) ∧
    workers (pool s) = ∅.
Proof.
  eexists _, _. split; [vm_compute; reflexivity|].
  match goal with
  | |- accepted ?evs = _ ∧ workers (pool ?s) = _ =>
      destruct (C1_drain_and_return 2 pool2 drop_schedule evs s eq_refl
                  ltac:(vm_compute; reflexivity)) as [Hf Hq]
  end.
  split; [exact Hf|].
  by destruct (Hq (removelast drop_schedule) eq_refl eq_refl) as (_ & Hw & _).
Defined.

(** ** C2: the three steps of Shutdown *)



(** ** C3: worker ids *)




(** ** C4: the queue bound *)




(** ** C5: the deferred function of a worker *)



(** ** C6: AddWorker *)



(** ** C7: cancellation is per worker *)

(** C7.  In every reachable state: (1) AddWorker gives the new worker a
    context of its own, not yet cancelled, that no goroutine and no
    registry entry referred to before, and creating it changes no other
    context; (2) two goroutines never share a context; (3) calling the
    cancel function of context [c] leaves every goroutine with another
    context exactly as it was, does not cancel its context, does not
    change the buffered jobs, the capacity or the open/closed status of
    the queue, does not change whether it waits in the queue's receive
    list, and every step that goroutine could take it can still take,
    with the same events and the same outcome for it; (4) RemoveWorker(a)
    is such a call, for the cancel function stored under [a]. *)
Theorem C7_cancellation_isolated (s : state) :
  reachable s →
  (mu (pool s) = false →
     let c := length (ctxs s) in
     ∃ id evs s',
       AddWorker s = Ret (id, evs, s') ∧
       workers (pool s') !! id = Some (mkWorker id c) ∧
       gs s' !! length (gs s) = Some (mkG id c WStart) ∧
       ctxs s' !! c = Some false ∧
       (∀ c', c' ≠ c → ctxs s' !! c' = ctxs s !! c') ∧
       (∀ tid g, gs s !! tid = Some g → g_ctx g ≠ c) ∧
       (∀ k w, workers (pool s) !! k = Some w → Cancel w ≠ c)) ∧
  (∀ ta tb ga gb,
     gs s !! ta = Some ga → gs s !! tb = Some gb → ta ≠ tb →
     g_ctx ga ≠ g_ctx gb) ∧
  (∀ c tb gb,
     gs s !! tb = Some gb → g_ctx gb ≠ c →
     let s' := cancel_ctx c s in
     gs s' !! tb = Some gb ∧
     ctx_done (g_ctx gb) s' = ctx_done (g_ctx gb) s ∧
     buf (jobs (pool s')) = buf (jobs (pool s)) ∧
     cap (jobs (pool s')) = cap (jobs (pool s)) ∧
     closed (jobs (pool s')) = closed (jobs (pool s)) ∧
     (tb ∈ recvq (jobs (pool s')) ↔ tb ∈ recvq (jobs (pool s))) ∧
     (∀ pref evs sb,
        exec (Go tb pref) s = Ret (tt, evs, sb) →
        ∃ sb', exec (Go tb pref) s' = Ret (tt, evs, sb') ∧
          gs sb' !! tb = gs sb !! tb ∧
          buf (jobs (pool sb')) = buf (jobs (pool sb)))) ∧
  (∀ a wa evs s',
     workers (pool s) !! a = Some wa →
     RemoveWorker a s = Ret (tt, evs, s') →
     s' = cancel_ctx (Cancel wa) s ∧
     workers (pool s') = workers (pool s) ∧
     ∀ tb gb, gs s !! tb = Some gb → tb ≠ Cancel wa →
       g_ctx gb ≠ Cancel wa ∧ gs s' !! tb = Some gb).
Proof.
  intros Hre. pose proof (reachable_Inv _ Hre) as HI.
  split; [|split; [|split]].
  - intros Hmu c. pose proof (inv_wg _ HI) as Hwg.
    rewrite AddWorker_eq, Hmu.
    destruct (wg (pool s) + 1 <? 0) eqn:Hlt; [lia|].
    eexists _, _, _. split; [done|].
    split; [simpl; by rewrite lookup_insert_eq|].
    split; [simpl; rewrite lookup_app_r by lia; by rewrite Nat.sub_diag|].
    split; [simpl; rewrite lookup_app_r by lia; by rewrite Nat.sub_diag|].
    split; [|split].
    + intros c' Hc'. simpl. destruct (decide (c' < length (ctxs s))%nat).
      * by rewrite lookup_app_l.
      * rewrite lookup_ge_None_2 by (rewrite length_app; simpl; subst c; lia).
        symmetry. apply lookup_ge_None_2. lia.
    + intros tid g Hg. rewrite (inv_ctx _ HI _ _ Hg).
      apply lookup_lt_Some in Hg. subst c. rewrite (inv_ctx_len _ HI). lia.
    + intros k w Hw. destruct (inv_reg _ HI _ _ Hw) as (_ & Hlt' & _).
      subst c. lia.
  - intros ta tb ga gb Ha Hb Hne.
    by rewrite (inv_ctx _ HI _ _ Ha), (inv_ctx _ HI _ _ Hb).
  - intros c tb gb Hg Hc s'. subst s'.
    split; [by apply lookup_cancel_other|].
    split; [by apply ctx_done_cancel_ne|].
    split; [done|]. split; [done|]. split; [done|].
    split; [by eapply recvq_cancel_other|].
    intros pref evs sb He. apply exec_step in He.
    destruct (cancel_other_step c s tb gb pref evs sb Hg Hc He)
      as (sb' & Hs' & Hgs & Hbuf).
    exists sb'. split; [by apply step_exec|done].
  - intros a wa evs s' Hw Hr. rewrite RemoveWorker_eq, Hw in Hr.
    destruct (mu (pool s)); [done|]. injection Hr as <- <-.
    split; [done|]. split; [done|].
    intros tb gb Hg Hne.
    assert (g_ctx gb ≠ Cancel wa) as Hc by (by rewrite (inv_ctx _ HI _ _ Hg)).
    split; [done|]. by apply lookup_cancel_other.
Qed.

Lemma C7_witness :
  gs mid_job_state !! 1%nat = Some (mkG 1 1 (WProc "Task 0")) ∧
  gs (cancel_ctx 0 mid_job_state) !! 1%nat = Some (mkG 1 1 (WProc "Task 0")).
Proof.
  split; [reflexivity|].
  assert (reachable mid_job_state) as Hre.
  { exists 2, pool2, mid_job_schedule. eexists. split; [reflexivity|].
    vm_compute. reflexivity. }
  destruct (C7_cancellation_isolated mid_job_state Hre) as (_ & _ & _ & H4).
  edestruct (H4 0 (mkWorker 0 0)) as (_ & _ & H);
    [reflexivity|vm_compute; reflexivity|].
  edestruct (H 1%nat) as [_ Hg]; [reflexivity|done|exact Hg].
Defined.

(** ** C8: RemoveWorker *)



(** ** C9: SendJob after Shutdown has closed the queue *)

(** C9.  Once the first statement of Shutdown has closed the job queue,
    every later SendJob, after any further schedule, panics with "send on
    closed channel": the send case of its select is taken on a closed
    channel, so the call neither returns the queue-full error nor
    succeeds. *)
Theorem C9_SendJob_after_close_panics s evs s1 acts evs' s2 job :
  sd s = SdNotCalled →
  exec ShutdownStep s = Ret (tt, evs, s1) →
  run acts s1 = Ret (tt, evs', s2) →
  evs = [EvClose] ∧
  closed (jobs (pool s2)) = true ∧
  trySend job s2 = Panic "send on closed channel" ∧
  SendJob job s2 = Panic "send on closed channel".
Proof.
  intros Hsd He Hr. apply exec_step in He.
  inversion He; subst; try congruence.
  assert (closed (jobs (pool s2)) = true) as Hc.
  { eapply run_closed; [done|]. done. }
  split; [done|]. split; [done|].
  unfold SendJob, mbind, M_bind, trySend. by rewrite Hc.
Qed.

Lemma C9_witness :
  SendJob "late" (added (set_sd SdClosed (closed_state pool1)))
  = Panic "send on closed channel".
Proof.
  apply (C9_SendJob_after_close_panics pool1 [EvClose]
           (set_sd SdClosed (closed_state pool1)) [AddWorkerCall]
           [EvLock Caller; EvStore 0; EvWgAdd; EvSpawn 0; EvUnlock Caller;
            EvReturn 0]
           (added (set_sd SdClosed (closed_state pool1))) "late");
    reflexivity.
Defined.

(** ** C10: NewPool and the unbuffered queue *)



(** * Further properties of the program *)

(** ** Panics *)

Lemma exec_AddWorkerCall_eq s :
  exec AddWorkerCall s =
  match AddWorker s with
  | Ret (id, evs, s') => Ret (tt, evs ++ [EvReturn id], s')
  | Blocked => Blocked
  | Panic msg => Panic msg
  end.
Proof.
  change (exec AddWorkerCall s) with ((AddWorker ≫= λ id, emit (EvReturn id)) s).
  rewrite bind_eq. by destruct (AddWorker s) as [[[id evs] s']| |].
Qed.

Lemma exec_SendJobCall_eq job s :
  exec (SendJobCall job) s =
  match SendJob job s with
  | Ret (_, evs, s') => Ret (tt, evs, s')
  | Blocked => Blocked
  | Panic msg => Panic msg
  end.
Proof.
  change (exec (SendJobCall job) s) with ((SendJob job ≫= λ _, mret tt) s).
  rewrite bind_eq. destruct (SendJob job s) as [[[r evs] s']| |]; try done.
  unfold mret, M_ret. by rewrite app_nil_r.
Qed.


Lemma exec_Panic s a msg :
  Inv s → exec a s = Panic msg →
  sd s ≠ SdNotCalled ∧
  ((∃ job, a = SendJobCall job) ∧ msg = "send on closed channel" ∨
   a = ShutdownStep ∧ sd s = SdReturned ∧ msg = "close of closed channel").
Proof.
  intros HI Hp. destruct a as [|id|job| |tid pref].
  - rewrite exec_AddWorkerCall_eq, AddWorker_eq in Hp.
    destruct (mu (pool s)); [done|].
    pose proof (inv_wg _ HI) as Hwg.
    destruct (wg (pool s) + 1 <? 0) eqn:Hn; [lia|done].
  - change (exec (RemoveWorkerCall id) s) with (RemoveWorker id s) in Hp.
    rewrite RemoveWorker_eq in Hp.
    destruct (mu (pool s)); [done|]. by destruct (workers (pool s) !! id).
  - rewrite exec_SendJobCall_eq, SendJob_eq in Hp.
    destruct (closed (jobs (pool s))) eqn:Hc.
    + injection Hp as <-. split.
      * intros Hsd. apply (inv_sd _ HI) in Hsd. congruence.
      * left. eauto.
    + destruct (recvq (jobs (pool s))); [|done].
      by destruct (Z.of_nat (length (buf (jobs (pool s)))) <? cap (jobs (pool s))).
  - rewrite Shutdown_step_eq in Hp. pose proof (inv_sd _ HI) as Hsd.
    destruct (sd s) eqn:Es.
    + destruct (closed (jobs (pool s))); [|done].
      destruct Hsd as [_ Hsd]. by specialize (Hsd eq_refl).
    + by destruct (mu (pool s)).
    + by destruct (wg (pool s) =? 0).
    + destruct (closed (jobs (pool s))); [|done]. injection Hp as <-.
      split; [done|]. by right.
  - by apply worker_step_no_panic in Hp.
Qed.



(** X2.  Shutdown can be called once.  After its first statement has
    run, in whatever state a later schedule leaves the pool, a call of
    Shutdown panics at its first statement with "close of closed
    channel", before it takes the mutex or cancels anything. *)
Theorem X2_Shutdown_only_once s acts evs s' :
  reachable s → sd s ≠ SdNotCalled →
  run acts s = Ret (tt, evs, s') →
  Shutdown s' = Panic "close of closed channel" ∧
  Shutdown_close s' = Panic "close of closed channel" ∧
  (sd s' = SdReturned → exec ShutdownStep s' = Panic "close of closed channel").
Proof.
  intros Hre Hsd Hr. pose proof (reachable_Inv _ Hre) as HI.
  assert (closed (jobs (pool s)) = true) as Hc.
  { destruct (closed (jobs (pool s))) eqn:Hc; [done|].
    by apply (inv_sd _ HI) in Hc. }
  pose proof (run_closed _ _ _ _ Hr Hc) as Hc'.
  assert (Shutdown_close s' = Panic "close of closed channel") as Hp.
  { unfold Shutdown_close, closeJobs. by rewrite Hc'. }
  split; [|split; [done|]].
  - unfold Shutdown. rewrite bind_eq. by rewrite Hp.
  - intros Hsd'. rewrite Shutdown_step_eq, Hsd', Hc'. done.
Qed.

Lemma X2_witness : Shutdown shut_pool1 = Panic "close of closed channel".
Proof.
  assert (reachable shut_pool1) as Hre.
  { exists 1, pool1, [ShutdownStep; ShutdownStep; ShutdownStep]. eexists.
    split; [reflexivity|]. vm_compute. reflexivity. }
  by destruct (X2_Shutdown_only_once shut_pool1 [] [] shut_pool1 Hre) as [H _].
Defined.

(** ** Termination of Shutdown *)

Lemma sumf_woken l l' : woken l l' → (sumf weight l' ≤ sumf weight l)%nat.
Proof.
  revert l'. induction l as [|g l IH]; intros [|g' l'] [Hlen Hw];
    simpl in *; try done.
  assert (weight g' ≤ weight g)%nat.
  { destruct (Hw 0%nat g eq_refl) as [Hg|[Hp Hg]]; simpl in Hg;
      injection Hg as ->; [lia|].
    unfold weight. simpl. rewrite Hp. lia. }
  assert (sumf weight l' ≤ sumf weight l)%nat.
  { apply IH. split; [lia|]. intros t x Hx. apply (Hw (S t) x Hx). }
  lia.
Qed.

Lemma shutdown_step_decreases s a evs s' :
  closed (jobs (pool s)) = true → a = ShutdownStep ∨ is_go a →
  step s a evs s' → (shutdown_measure s' < shutdown_measure s)%nat.
Proof.
  intros Hc Ha Hs. unfold shutdown_measure.
  destruct (decide (a = ShutdownStep)) as [->|Hne].
  - inversion Hs; subst.
    + congruence.
    + match goal with H : sd s = SdClosed |- _ => rewrite H end.
      unfold measure. simpl.
      destruct (cancel_list_frame (handles s) s) as (_ & _ & _ & -> & _).
      pose proof (sumf_woken _ _ (woken_cancel_list (handles s) s)). lia.
    + match goal with H : sd s = SdCancelled |- _ => rewrite H end.
      unfold measure. simpl. lia.
  - destruct Ha as [->|Hgo]; [done|]. destruct a; try done.
    pose proof (worker_step_decreases _ _ _ _ _ Hc Hs).
    rewrite (step_sd_other _ _ _ _ Hs) by done. lia.
Qed.

Lemma shutdown_steps_bounded acts s evs s' :
  closed (jobs (pool s)) = true →
  Forall (λ a, a = ShutdownStep ∨ is_go a) acts →
  run acts s = Ret (tt, evs, s') →
  (length acts + shutdown_measure s' ≤ shutdown_measure s)%nat.
Proof.
  revert s evs. induction acts as [|a acts IH]; intros s evs Hc Hf Hr.
  - simpl in Hr. injection Hr as <- <-. simpl. lia.
  - apply run_cons in Hr as (e1 & s1 & e2 & Ha & Hr & ->).
    apply Forall_cons in Hf as [Hfa Hf]. apply exec_step in Ha.
    pose proof (shutdown_step_decreases _ _ _ _ Hc Hfa Ha).
    pose proof (IH _ _ (step_closed _ _ _ _ Ha Hc) Hf Hr). simpl. lia.
Qed.

Lemma shutdown_progress s :
  Inv s → closed (jobs (pool s)) = true → sd s ≠ SdReturned →
  ∃ a evs s', (a = ShutdownStep ∨ is_go a) ∧ exec a s = Ret (tt, evs, s').
Proof.
  intros HI Hc Hsd. destruct (sd s) eqn:Es; [| | |done].
  - apply (inv_sd _ HI) in Es. congruence.
  - destruct (mu (pool s)) eqn:Hmu.
    + destruct (lock_released s HI Hmu)
        as (tid & acts & evs & s' & _ & Hf & Hr & Hmu' & _).
      destruct acts as [|a acts].
      { simpl in Hr. injection Hr as <- <-. congruence. }
      apply run_cons in Hr as (e1 & s1 & e2 & Ha & _).
      apply Forall_cons in Hf as [-> _].
      exists (Go tid PreferJob), e1, s1. split; [by right|done].
    + eexists ShutdownStep, _, _. split; [by left|].
      rewrite Shutdown_step_eq, Es, Hmu. done.
  - destruct (wg (pool s) =? 0) eqn:Hz.
    + eexists ShutdownStep, _, _. split; [by left|].
      rewrite Shutdown_step_eq, Es, Hz. done.
    + destruct (worker_progress s HI Hc) as (tid & pref & evs & s' & Hs); [lia|].
      exists (Go tid pref), evs, s'. split; [by right|by apply step_exec].
Qed.

Lemma shutdown_completes n s :
  Inv s → closed (jobs (pool s)) = true → (shutdown_measure s ≤ n)%nat →
  ∃ acts evs s',
    Forall (λ a, a = ShutdownStep ∨ is_go a) acts ∧
    run acts s = Ret (tt, evs, s') ∧ sd s' = SdReturned.
Proof.
  revert s. induction n as [|n IH]; intros s HI Hc Hn.
  - exists [], [], s. split; [done|]. split; [done|].
    unfold shutdown_measure in Hn. destruct (sd s); simpl in Hn; try lia. done.
  - assert (sd s = SdReturned ∨ sd s ≠ SdReturned) as [Hsd|Hsd]
      by (destruct (sd s); auto).
    { by exists [], [], s. }
    destruct (shutdown_progress s HI Hc Hsd) as (a & e1 & s1 & Ha & He).
    pose proof (exec_step _ _ _ _ He) as Hs.
    pose proof (shutdown_step_decreases _ _ _ _ Hc Ha Hs).
    destruct (IH s1) as (acts & e2 & s2 & Hf & Hr & Hsd2);
      [by eapply Inv_exec|by eapply step_closed|lia|].
    exists (a :: acts), (e1 ++ e2), s2. split; [by constructor|].
    split; [|done]. apply run_cons. by exists e1, s1, e2.
Qed.

(** X3.  Shutdown terminates.  Once its first statement has closed the
    queue, the steps that the workers and Shutdown itself can still take
    are bounded: a schedule of such steps is no longer than the measure
    of the state it starts in (seven steps for a worker that has just
    been started, two for every job left in the buffer, one for every
    statement of Shutdown left), so no worker runs forever.  As long as
    Shutdown has not returned, one of these steps is enabled: Shutdown
    and the workers never wait for one another in a cycle.  Hence some
    schedule, and every scheduler that keeps running what is enabled,
    brings Shutdown to its return. *)
Theorem X3_Shutdown_terminates s :
  reachable s → sd s ≠ SdNotCalled →
  (∀ acts evs s',
     Forall (λ a, a = ShutdownStep ∨ is_go a) acts →
     run acts s = Ret (tt, evs, s') →
     (length acts + shutdown_measure s' ≤ shutdown_measure s)%nat) ∧
  (sd s ≠ SdReturned →
     ∃ a evs s', (a = ShutdownStep ∨ is_go a) ∧ exec a s = Ret (tt, evs, s')) ∧
  (∃ acts evs s',
     Forall (λ a, a = ShutdownStep ∨ is_go a) acts ∧
     run acts s = Ret (tt, evs, s') ∧ sd s' = SdReturned).
Proof.
  intros Hre Hsd. pose proof (reachable_Inv _ Hre) as HI.
  assert (closed (jobs (pool s)) = true) as Hc.
  { destruct (closed (jobs (pool s))) eqn:Hc; [done|].
    by apply (inv_sd _ HI) in Hc. }
  split; [|split].
  - intros acts evs s'. by apply shutdown_steps_bounded.
  - by apply shutdown_progress.
  - by apply (shutdown_completes (shutdown_measure s)).
Qed.

Lemma X3_witness :
  ∃ acts evs s',
    run acts (set_sd SdClosed (closed_state (added pool1))) = Ret (tt, evs, s') ∧
    sd s' = SdReturned.
Proof.
  assert (reachable (set_sd SdClosed (closed_state (added pool1)))) as Hre.
  { exists 1, pool1, [AddWorkerCall; ShutdownStep]. eexists.
    split; [reflexivity|]. vm_compute. reflexivity. }
  destruct (X3_Shutdown_terminates _ Hre) as (_ & _ & acts & evs & s' & _ & Hr & Hsd);
    [done|].
  by exists acts, evs, s'.
Defined.

(** ** Blocked workers *)

Lemma ctx_done_moved c tid x s : ctx_done c (moved tid x s) = ctx_done c s.
Proof. reflexivity. Qed.

Lemma ctx_done_set_pool c f s : ctx_done c (set_pool f s) = ctx_done c s.
Proof. reflexivity. Qed.

Lemma ctx_done_set_sd c x s : ctx_done c (set_sd x s) = ctx_done c s.
Proof. reflexivity. Qed.

Lemma parked_live_moved tid x f s g :
  parked_live s → gs s !! tid = Some g →
  (x = WParked → ctx_done (g_ctx g) s = false) →
  parked_live (moved tid x (set_pool f s)).
Proof.
  intros HP Hg Hx t g' Hg' Hp. rewrite ctx_done_moved, ctx_done_set_pool.
  rewrite lookup_moved in Hg'. destruct (decide (t = tid)) as [->|Hne].
  - rewrite gs_set_pool, Hg in Hg'. simpl in Hg'. injection Hg' as <-.
    simpl in *. auto.
  - rewrite gs_set_pool in Hg'. by eapply HP.
Qed.

Lemma parked_live_moved_away tid x f s :
  parked_live s → x ≠ WParked → parked_live (moved tid x (set_pool f s)).
Proof.
  intros HP Hx t g' Hg' Hp. rewrite ctx_done_moved, ctx_done_set_pool.
  rewrite lookup_moved, gs_set_pool in Hg'.
  destruct (decide (t = tid)) as [->|Hne]; [|by eapply HP].
  destruct (gs s !! tid); [|done]. simpl in Hg'. injection Hg' as <-. done.
Qed.

Lemma parked_live_moved_away' tid x s :
  parked_live s → x ≠ WParked → parked_live (moved tid x s).
Proof.
  intros HP Hx.
  by apply (parked_live_moved_away tid x (λ p, p)
              (mkState (pool s) (ctxs s) (gs s) (sd s))).
Qed.

Lemma parked_live_cancel_ctx c s : parked_live s → parked_live (cancel_ctx c s).
Proof.
  intros HP t g' Hg' Hp. simpl in Hg'.
  rewrite list_lookup_fmap in Hg'.
  destruct (gs s !! t) as [g|] eqn:Hg; [|done]. simpl in Hg'.
  injection Hg' as <-.
  destruct (waits_on c g) eqn:Hw; [done|].
  unfold waits_on in Hw. rewrite Hp in Hw. simpl in Hw.
  apply Nat.eqb_neq in Hw.
  rewrite ctx_done_cancel_ne by done. by eapply HP.
Qed.

Lemma parked_live_cancel_list cs s : parked_live s → parked_live (cancel_list cs s).
Proof.
  revert s. induction cs as [|c cs IH]; intros s HP; [done|].
  simpl. apply IH. by apply parked_live_cancel_ctx.
Qed.

Lemma parked_live_step s a evs s' :
  Inv s → parked_live s → step s a evs s' → parked_live s'.
Proof.
  intros HI HP Hs.
  destruct Hs;
    try (by apply parked_live_moved_away);
    try (by apply parked_live_moved_away');
    try (by eapply parked_live_moved);
    try done.
  - intros t g' Hg' Hp. simpl in Hg'.
    apply lookup_app_Some in Hg' as [Hg'|[Hl Hg']].
    + pose proof (inv_ctx _ HI _ _ Hg') as Hc.
      pose proof (lookup_lt_Some _ _ _ Hg') as Hlt.
      pose proof (HP _ _ Hg' Hp) as Hd. unfold ctx_done in *. simpl.
      rewrite lookup_app_l; [done|]. rewrite (inv_ctx_len _ HI). lia.
    + destruct (t - length (gs s))%nat; simplify_eq/=.
  - by apply parked_live_cancel_ctx.
  - intros t g' Hg' Hp. rewrite gs_set_sd, closed_gs in Hg' by done.
    rewrite list_lookup_fmap in Hg'.
    destruct (gs s !! t) as [g|]; [|done]. simpl in Hg'. injection Hg' as <-.
    unfold unpark in Hp. by destruct (is_parked (g_pc g)) eqn:E; destruct (g_pc g).
  - intros t g' Hg' Hp. rewrite ctx_done_set_sd.
    by apply (parked_live_cancel_list (handles s) s HP t g').
Qed.

Lemma parked_live_reachable s : reachable s → parked_live s.
Proof.
  apply (reachable_ind_exec parked_live).
  - intros n s0 Hnew t g Hg. unfold NewPool in Hnew.
    destruct (makeChan n); [|done|done]. by injection Hnew as <-.
  - intros s1 a evs s' Hre HP He.
    by eapply parked_live_step; [apply reachable_Inv| |apply exec_step].
Qed.

(** X4.  A worker is blocked in its select only while there is nothing
    for it to do.  In every reachable state in which a worker is blocked
    there, the buffer of the queue is empty, the queue is open (Shutdown
    has not been called), the context of the worker is not cancelled,
    and the worker is among the receivers a SendJob hands its job to.  So
    a job never waits in the buffer while a worker is idle, and a worker
    that was cancelled by RemoveWorker or by Shutdown, or that has seen
    the queue closed, is never left blocked. *)
Theorem X4_blocked_only_when_idle s tid g :
  reachable s → gs s !! tid = Some g → g_pc g = WParked →
  buf (jobs (pool s)) = [] ∧
  closed (jobs (pool s)) = false ∧ sd s = SdNotCalled ∧
  ctx_done (g_ctx g) s = false ∧
  tid ∈ recvq (jobs (pool s)).
Proof.
  intros Hre Hg Hp. pose proof (reachable_Inv _ Hre) as HI.
  assert (tid ∈ recvq (jobs (pool s))) as Hin.
  { apply (inv_recvq _ HI). eauto. }
  destruct (inv_parked _ HI) as [Hb Hc].
  { intros Hnil. rewrite Hnil in Hin. by apply elem_of_nil in Hin. }
  split; [done|]. split; [done|]. split; [by apply (inv_sd _ HI)|].
  split; [|done]. by eapply parked_live_reachable.
Qed.

Lemma X4_witness :
  gs parked_state !! 0%nat = Some (mkG 0 0 WParked) ∧
  buf (jobs (pool parked_state)) = [] ∧ ctx_done 0 parked_state = false.
Proof.
  split; [reflexivity|].
  assert (reachable parked_state) as Hre.
  { exists 0, pool0, rendezvous_schedule. eexists.
    split; [reflexivity|]. vm_compute. reflexivity. }
  destruct (X4_blocked_only_when_idle parked_state 0%nat _ Hre eq_refl eq_refl)
    as (Hb & _ & _ & Hd & _).
  by split.
Defined.

(** ** Sending *)

Lemma rejected_cancels cs : rejected (EvCancel <$> cs) = [].
Proof. by induction cs. Qed.

Lemma sent_cons a acts : sent (a :: acts) = sent [a] ++ sent acts.
Proof. unfold sent. by rewrite <- omap_app. Qed.

Lemma step_sent s a evs s' :
  step s a evs s' →
  accepted evs ++ rejected evs = sent [a] ∧
  (rejected evs ≠ [] →
     length (sent [a]) = 1%nat ∧
     cap (jobs (pool s)) ≤ Z.of_nat (length (buf (jobs (pool s))))) ∧
  (length (buf (jobs (pool s'))) ≤
     length (buf (jobs (pool s))) + length (accepted evs))%nat.
Proof.
  intros Hs. destruct Hs; simpl; try (split; [done|split; [done|lia]]).
  - split; [done|]. split; [done|]. rewrite length_app. simpl. lia.
  - unfold accepted, rejected. rewrite !omap_app.
    fold (accepted (EvCancel <$> handles s)).
    fold (rejected (EvCancel <$> handles s)).
    rewrite accepted_cancels, rejected_cancels. simpl.
    destruct (cancel_list_frame (handles s) s) as (_ & _ & _ & -> & _).
    split; [done|]. split; [done|lia].
  - match goal with H : buf _ = _ :: _ |- _ => rewrite H end.
    split; [done|]. split; [done|]. simpl. lia.
Qed.

Lemma run_room acts s evs s' :
  Inv s → run acts s = Ret (tt, evs, s') →
  Z.of_nat (length (buf (jobs (pool s))) + length (sent acts))
    ≤ cap (jobs (pool s)) →
  accepted evs = sent acts ∧ rejected evs = [].
Proof.
  revert s evs.
  induction acts as [|a acts IH]; intros s evs HI Hr Hcap.
  - simpl in Hr. by injection Hr as <- <-.
  - apply run_cons in Hr as (e1 & s1 & e2 & Ha & Hr & ->).
    destruct (step_sent _ _ _ _ (exec_step _ _ _ _ Ha)) as (Hsent & Hrej & Hlen).
    rewrite (sent_cons a acts) in Hcap |- *. rewrite length_app in Hcap.
    assert (rejected e1 = []) as Hr1.
    { destruct (rejected e1) as [|j l] eqn:E; [done|].
      destruct Hrej as [Hone Hfull]; [done|]. lia. }
    rewrite Hr1, app_nil_r in Hsent.
    destruct (IH s1 e2) as [Hacc Hrej2]; [by eapply Inv_exec|done| |].
    { rewrite (step_cap _ _ _ _ (exec_step _ _ _ _ Ha)).
      rewrite <- Hsent in Hcap. lia. }
    unfold accepted, rejected in *. rewrite !omap_app.
    split; [by rewrite Hsent, Hacc|]. by rewrite Hr1, Hrej2.
Qed.



Lemma step_closed_no_send s a evs s' :
  closed (jobs (pool s)) = true → step s a evs s' →
  accepted evs = [] ∧ rejected evs = [] ∧ sent [a] = [].
Proof.
  intros Hc Hs. destruct Hs; try done; try congruence.
  simpl. unfold accepted, rejected. rewrite !omap_app.
  fold (accepted (EvCancel <$> handles s)).
  fold (rejected (EvCancel <$> handles s)).
  by rewrite accepted_cancels, rejected_cancels.
Qed.

Lemma run_closed_no_send acts s evs s' :
  closed (jobs (pool s)) = true → run acts s = Ret (tt, evs, s') →
  accepted evs = [] ∧ rejected evs = [] ∧ sent acts = [].
Proof.
  revert s evs. induction acts as [|a acts IH]; intros s evs Hc Hr.
  - simpl in Hr. by injection Hr as <- <-.
  - apply run_cons in Hr as (e1 & s1 & e2 & Ha & Hr & ->).
    apply exec_step in Ha.
    destruct (step_closed_no_send _ _ _ _ Hc Ha) as (H1 & H2 & H3).
    destruct (IH _ _ (step_closed _ _ _ _ Ha Hc) Hr) as (H4 & H5 & H6).
    rewrite sent_cons, H3, H6. unfold accepted, rejected in *.
    rewrite !omap_app. by rewrite H1, H2, H4, H5.
Qed.

(** X6.  Once the queue is closed it only drains.  Along every schedule
    from a reachable state whose queue is closed, no SendJob returns (so
    no job is accepted or rejected any more), and the jobs that were in
    the buffer at the start are, in order, the jobs delivered to workers
    followed by the jobs still in the buffer at the end: the workers
    keep taking the jobs that were queued before the close.  If the
    buffer is empty when the queue is closed, nothing is delivered
    afterwards and no job is lost. *)
Theorem X6_closed_queue_only_drains acts s evs s' :
  reachable s → closed (jobs (pool s)) = true →
  run acts s = Ret (tt, evs, s') →
  sent acts = [] ∧ accepted evs = [] ∧ rejected evs = [] ∧
  buf (jobs (pool s)) = delivered evs ++ buf (jobs (pool s')) ∧
  (buf (jobs (pool s)) = [] →
     delivered evs = [] ∧ buf (jobs (pool s')) = []).
Proof.
  intros Hre Hc Hr.
  destruct (run_closed_no_send _ _ _ _ Hc Hr) as (Hacc & Hrej & Hsent).
  pose proof (run_fifo _ _ _ _ (reachable_Inv _ Hre) Hr) as Hf.
  rewrite Hacc, app_nil_r in Hf.
  split; [done|]. split; [done|]. split; [done|]. split; [done|].
  intros Hb. rewrite Hb in Hf. symmetry in Hf. by apply app_eq_nil in Hf.
Qed.

Lemma X6_witness :
  buf (jobs (pool closed_job_state)) = ["Task 0"] ∧
  ∃ evs s',
    run [Go 0%nat PreferJob; Go 0%nat PreferJob; Go 0%nat PreferJob]
      closed_job_state = Ret (tt, evs, s') ∧
    accepted evs = [] ∧
    ["Task 0"] = delivered evs ++ buf (jobs (pool s')).
Proof.
  split; [reflexivity|].
  assert (reachable closed_job_state) as Hre.
  { exists 1, pool1, [AddWorkerCall; SendJobCall "Task 0"; ShutdownStep].
    eexists. split; [reflexivity|]. vm_compute. reflexivity. }
  eexists _, _. split; [vm_compute; reflexivity|].
  match goal with
  | |- accepted ?evs = _ ∧ _ = _ ++ buf (jobs (pool ?s')) =>
      destruct (X6_closed_queue_only_drains
                  [Go 0%nat PreferJob; Go 0%nat PreferJob; Go 0%nat PreferJob]
                  closed_job_state evs s' Hre eq_refl
                  ltac:(vm_compute; reflexivity)) as (_ & Ha & _ & Hb & _)
  end.
  by split.
Defined.

(** ** The order of cancellations *)

Lemma stays_parked_after c1 c2 l t :
  stays_parked c2 l t = true →
  stays_parked c1 ((λ g, if waits_on c2 g then set_pc WLock g else g) <$> l) t
  = stays_parked c1 l t.
Proof.
  unfold stays_parked. rewrite list_lookup_fmap.
  destruct (l !! t) as [g|]; [|done]. simpl.
  by destruct (waits_on c2 g).
Qed.

Lemma filter_stays_comm c1 c2 l (q : list nat) :
  filter (λ t, stays_parked c1
                 ((λ g, if waits_on c2 g then set_pc WLock g else g) <$> l) t)
    (filter (λ t, stays_parked c2 l t) q)
  = filter (λ t, stays_parked c1 l t && stays_parked c2 l t) q.
Proof.
  induction q as [|t q IH]; [done|].
  rewrite (filter_cons (λ t, stays_parked c2 l t)).
  rewrite (filter_cons (λ t, stays_parked c1 l t && stays_parked c2 l t)).
  destruct (stays_parked c2 l t) eqn:E2.
  - rewrite decide_True by done. rewrite filter_cons.
    rewrite (stays_parked_after c1 c2 l t E2), andb_true_r.
    destruct (stays_parked c1 l t) eqn:E1.
    + rewrite !decide_True by done. by rewrite IH.
    + rewrite !decide_False by (by intros []). exact IH.
  - rewrite andb_false_r. rewrite !decide_False by (by intros []). exact IH.
Qed.

Lemma waits_on_wake c1 c2 g :
  waits_on c1 (if waits_on c2 g then set_pc WLock g else g)
  = waits_on c1 g && negb (waits_on c2 g).
Proof.
  unfold waits_on. destruct (g_pc g) eqn:E; simpl; rewrite ?E; simpl; try done.
  destruct (Nat.eqb (g_ctx g) c2); simpl; rewrite ?E; simpl;
    by rewrite ?andb_true_r, ?andb_false_r.
Qed.

Lemma wake_comm c1 c2 g :
  (if waits_on c1 (if waits_on c2 g then set_pc WLock g else g)
   then set_pc WLock (if waits_on c2 g then set_pc WLock g else g)
   else if waits_on c2 g then set_pc WLock g else g)
  = if waits_on c1 g || waits_on c2 g then set_pc WLock g else g.
Proof.
  rewrite waits_on_wake.
  by destruct (waits_on c1 g), (waits_on c2 g).
Qed.

Lemma cancel_ctx_twice c1 c2 s :
  cancel_ctx c1 (cancel_ctx c2 s) =
  mkState
    (set_jobs (λ ch, with_recvq
       (filter (λ t, stays_parked c1 (gs s) t && stays_parked c2 (gs s) t)
          (recvq ch)) ch) (pool s))
    (<[c1 := true]> (<[c2 := true]> (ctxs s)))
    ((λ g, if waits_on c1 g || waits_on c2 g then set_pc WLock g else g) <$> gs s)
    (sd s).
Proof.
  unfold cancel_ctx. simpl. f_equal.
  - unfold set_jobs, with_recvq. simpl. by rewrite filter_stays_comm.
  - rewrite <- list_fmap_compose. apply list_fmap_ext. intros i g _. simpl.
    apply wake_comm.
Qed.

Lemma cancel_ctx_comm c1 c2 s :
  cancel_ctx c1 (cancel_ctx c2 s) = cancel_ctx c2 (cancel_ctx c1 s).
Proof.
  rewrite !cancel_ctx_twice. f_equal.
  - unfold set_jobs, with_recvq. simpl. do 2 f_equal.
    apply list_filter_iff. intros t.
    by destruct (stays_parked c1 (gs s) t), (stays_parked c2 (gs s) t).
  - destruct (decide (c1 = c2)) as [->|Hne]; [done|].
    by apply list_insert_insert_ne.
  - apply list_fmap_ext. intros i g _. simpl.
    by destruct (waits_on c1 g), (waits_on c2 g).
Qed.

Lemma cancel_ctx_idemp c s : cancel_ctx c (cancel_ctx c s) = cancel_ctx c s.
Proof.
  rewrite cancel_ctx_twice. unfold cancel_ctx. f_equal.
  - unfold set_jobs, with_recvq. simpl. do 2 f_equal.
    apply list_filter_iff. intros t. by destruct (stays_parked c (gs s) t).
  - apply list_insert_insert_eq.
  - apply list_fmap_ext. intros i g _. simpl. by destruct (waits_on c g).
Qed.

Lemma cancel_list_perm cs cs' s :
  cs ≡ₚ cs' → cancel_list cs s = cancel_list cs' s.
Proof.
  intros Hp. revert s. induction Hp as [|c cs cs' _ IH|c1 c2 cs|cs1 cs2 cs3 _ IH1 _ IH2];
    intros s; simpl.
  - done.
  - apply IH.
  - unfold cancel_list. simpl. by rewrite cancel_ctx_comm.
  - by rewrite IH1.
Qed.

Lemma Shutdown_cancel_in_eq cs s :
  Shutdown_cancel_in cs s =
  if mu (pool s) then Blocked
  else Ret (tt, EvLock Caller :: (EvCancel <$> cs) ++ [EvUnlock Caller],
            cancel_list cs s).
Proof.
  unfold Shutdown_cancel_in. unfold_M.
  destruct (mu (pool s)) eqn:Hmu; [done|].
  rewrite forM_cancel. rewrite cancel_list_mu. simpl.
  rewrite cancel_list_set_mu. simpl.
  replace (set_pool (set_mu false) (set_pool (set_mu true) (cancel_list cs s)))
    with (set_pool (set_mu (mu (pool (cancel_list cs s)))) (cancel_list cs s)).
  - by rewrite set_mu_id.
  - rewrite cancel_list_mu, Hmu. reflexivity.
Qed.

(** X7.  Removing a worker twice is the same as removing it once, and
    two removals can be exchanged.  When RemoveWorker(a) and then
    RemoveWorker(b) have returned, a further RemoveWorker(a) returns with
    the same events and changes nothing, and the calls in the other
    order, RemoveWorker(b) and then RemoveWorker(a), return with the same
    events and lead to the same state: a cancel function can be called
    again without effect, and the cancellations of two contexts do not
    interfere. *)
Theorem X7_RemoveWorker_idempotent_commutes a b s e1 s1 e2 s2 :
  RemoveWorker a s = Ret (tt, e1, s1) →
  RemoveWorker b s1 = Ret (tt, e2, s2) →
  RemoveWorker a s1 = Ret (tt, e1, s1) ∧
  ∃ s1', RemoveWorker b s = Ret (tt, e2, s1') ∧
         RemoveWorker a s1' = Ret (tt, e1, s2).
Proof.
  intros Ha Hb. rewrite RemoveWorker_eq in Ha, Hb.
  destruct (mu (pool s)) eqn:Hmu; [done|].
  assert (mu (pool s1) = false ∧ workers (pool s1) = workers (pool s)) as [Hmu1 Hw1].
  { destruct (workers (pool s) !! a); injection Ha as <- <-; [|done].
    by rewrite cancel_ctx_mu. }
  rewrite Hmu1, Hw1 in Hb. rewrite RemoveWorker_eq, Hmu1, Hw1. split.
  - destruct (workers (pool s) !! a) as [wa|]; injection Ha as <- <-; [|done].
    by rewrite cancel_ctx_idemp.
  - destruct (workers (pool s) !! b) as [wb|] eqn:Eb; injection Hb as <- <-.
    + exists (cancel_ctx (Cancel wb) s).
      split; [by rewrite RemoveWorker_eq, Hmu, Eb|].
      rewrite RemoveWorker_eq, cancel_ctx_mu, Hmu.
      change (workers (pool (cancel_ctx (Cancel wb) s))) with (workers (pool s)).
      destruct (workers (pool s) !! a) as [wa|]; injection Ha as <- <-; [|done].
      by rewrite cancel_ctx_comm.
    + exists s. split; [by rewrite RemoveWorker_eq, Hmu, Eb|].
      rewrite RemoveWorker_eq, Hmu.
      by destruct (workers (pool s) !! a) as [wa|]; injection Ha as <- <-.
Qed.

Lemma X7_witness :
  ∃ e1 s1 e2 s2,
    RemoveWorker 1 mid_job_state = Ret (tt, e1, s1) ∧
    RemoveWorker 0 s1 = Ret (tt, e2, s2) ∧
    RemoveWorker 1 s1 = Ret (tt, e1, s1) ∧
    ∃ s1', RemoveWorker 0 mid_job_state = Ret (tt, e2, s1') ∧
           RemoveWorker 1 s1' = Ret (tt, e1, s2).
Proof.
  eexists _, _, _, _.
  split; [vm_compute; reflexivity|]. split; [vm_compute; reflexivity|].
  apply (X7_RemoveWorker_idempotent_commutes 1 0 mid_job_state);
    vm_compute; reflexivity.
Defined.

(** X8.  The order in which the loop of Shutdown visits the registry
    does not matter.  Go leaves the iteration order of a map open; in
    whatever order the cancel functions of the entries are called, the
    second statement of Shutdown blocks in the same states, and when it
    returns it leaves the same state, its events being the same up to
    their order.  The order used by [Shutdown_cancel] is one of
    them. *)
Theorem X8_cancel_order_irrelevant cs s :
  cs ≡ₚ handles s →
  Shutdown_cancel_in (handles s) s = Shutdown_cancel s ∧
  (Shutdown_cancel_in cs s = Blocked ↔ Shutdown_cancel s = Blocked) ∧
  (∀ msg, Shutdown_cancel_in cs s ≠ Panic msg) ∧
  (∀ evs s', Shutdown_cancel s = Ret (tt, evs, s') →
     ∃ evs', Shutdown_cancel_in cs s = Ret (tt, evs', s') ∧ evs' ≡ₚ evs).
Proof.
  intros Hp. rewrite !Shutdown_cancel_in_eq, Shutdown_cancel_eq.
  destruct (mu (pool s)); [by repeat split|].
  split; [done|]. split; [done|]. split; [done|].
  intros evs s' [= <- <-]. eexists. split.
  - by rewrite (cancel_list_perm cs (handles s)).
  - constructor. apply Permutation_app; [|done]. by apply fmap_Permutation.
Qed.

Lemma X8_witness :
  ∃ evs evs' s',
    Shutdown_cancel mid_job_state = Ret (tt, evs, s') ∧
    Shutdown_cancel_in [0; 1]%nat mid_job_state = Ret (tt, evs', s') ∧
    evs' ≡ₚ evs.
Proof.
  destruct (X8_cancel_order_irrelevant [0; 1]%nat mid_job_state)
    as (_ & _ & _ & H).
  { vm_compute. first [reflexivity | apply perm_swap]. }
  destruct (H _ _ ltac:(vm_compute; reflexivity)) as (evs' & He & Hp).
  eexists _, evs', _. split; [vm_compute; reflexivity|]. by split.
Defined.

(** ** The registry *)

Lemma step_gs_length s a evs s' :
  step s a evs s' →
  length (gs s') = (length (gs s) + count_adds [a])%nat.
Proof.
  intros Hs. destruct (decide (a = AddWorkerCall)) as [->|Ha].
  - inversion Hs; subst. simpl. rewrite length_app. simpl.
    change (count_adds [AddWorkerCall]) with 1%nat. lia.
  - destruct (step_only_pc _ _ _ _ Hs Ha) as ([Hl _] & _).
    rewrite Hl. unfold count_adds. simpl. rewrite bool_decide_false by done. lia.
Qed.

Lemma count_adds_cons a acts :
  count_adds (a :: acts) = (count_adds [a] + count_adds acts)%nat.
Proof. unfold count_adds. simpl. lia. Qed.

Lemma run_gs_length acts s evs s' :
  run acts s = Ret (tt, evs, s') →
  length (gs s') = (length (gs s) + count_adds acts)%nat.
Proof.
  revert s evs. induction acts as [|a acts IH]; intros s evs Hr.
  - simpl in Hr. injection Hr as <- <-. unfold count_adds. simpl. lia.
  - apply run_cons in Hr as (e1 & s1 & e2 & Ha & Hr & ->).
    rewrite (IH _ _ Hr), (step_gs_length _ _ _ _ (exec_step _ _ _ _ Ha)).
    rewrite (count_adds_cons a acts). lia.
Qed.

Lemma woken_registered l l' t g' :
  woken l l' → l' !! t = Some g' → registered g' = true →
  ∃ g, l !! t = Some g ∧ g_id g = g_id g' ∧ registered g = true.
Proof.
  intros [Hlen Hw] Hg' Hr.
  destruct (l !! t) as [g|] eqn:Hg.
  - exists g. split; [done|].
    destruct (Hw _ _ Hg) as [Hx|[Hp Hx]]; rewrite Hg' in Hx; injection Hx as ->.
    + done.
    + split; [done|]. unfold registered. by rewrite Hp.
  - apply lookup_ge_None in Hg. apply lookup_lt_Some in Hg'. lia.
Qed.

Lemma reg_exact_woken s s' :
  reg_exact s → woken (gs s) (gs s') →
  workers (pool s') = workers (pool s) → reg_exact s'.
Proof.
  intros HR Hw Hws t g' Hg' Hr.
  destruct (woken_registered _ _ _ _ Hw Hg' Hr) as (g & Hg & Hid & Hrg).
  rewrite Hws, <- Hid. by apply HR.
Qed.

Lemma reg_exact_moved tid x f s g :
  reg_exact s → gs s !! tid = Some g →
  (registered (set_pc x g) = true → registered g = true) →
  workers (f (pool s)) = workers (pool s) →
  reg_exact (moved tid x (set_pool f s)).
Proof.
  intros HR Hg Hx Hw t g' Hg' Hr.
  rewrite pool_moved, pool_set_pool, Hw.
  rewrite lookup_moved, gs_set_pool in Hg'.
  destruct (decide (t = tid)) as [->|Hne]; [|by apply HR].
  rewrite Hg in Hg'. simpl in Hg'. injection Hg' as <-.
  by apply (HR tid g Hg), Hx.
Qed.

Lemma reg_exact_moved' tid x s g :
  reg_exact s → gs s !! tid = Some g →
  (registered (set_pc x g) = true → registered g = true) →
  reg_exact (moved tid x s).
Proof.
  intros HR Hg Hx.
  by apply (reg_exact_moved tid x (λ p, p)
              (mkState (pool s) (ctxs s) (gs s) (sd s)) g).
Qed.

Ltac reg_pc :=
  cbn;
  first [ done
        | intros _; unfold registered;
          match goal with H : g_pc _ = _ |- _ => by rewrite H end ].

Lemma reg_exact_step s a evs s' :
  Inv s → Z.of_nat (length (gs s')) ≤ max_int + 1 →
  reg_exact s → step s a evs s' → reg_exact s'.
Proof.
  intros HI Hlen HR Hs.
  pose proof (step_gs_length _ _ _ _ Hs) as Hl.
  assert (∀ t g, gs s !! t = Some g → g_id g = Z.of_nat t) as Hids.
  { intros t g Hg. eapply ids_in_range; [done| |done]. lia. }
  destruct Hs;
    try (by eapply reg_exact_moved; [done|done|reg_pc|done]);
    try (by eapply reg_exact_moved'; [done|done|reg_pc]);
    try done.
  - (* AddWorker *)
    change (count_adds [AddWorkerCall]) with 1%nat in Hl.
    assert (nextID (pool s) = Z.of_nat (length (gs s))) as Hid.
    { rewrite (inv_next _ HI). apply wrap_int_small.
      unfold min_int, max_int, int_bits in *. lia. }
    intros t g' Hg' Hr. simpl in Hg'. simpl.
    apply lookup_app_Some in Hg' as [Hg'|[Hge Hg']].
    + rewrite lookup_insert_ne; [by apply HR|].
      rewrite Hid, (Hids _ _ Hg'). apply lookup_lt_Some in Hg'. lia.
    + destruct (t - length (gs s))%nat eqn:Ht; [|done].
      simpl in Hg'. injection Hg' as <-. simpl.
      rewrite lookup_insert_eq. do 2 f_equal.
      rewrite (inv_ctx_len _ HI). lia.
  - (* RemoveWorker *)
    by eapply reg_exact_woken; [done|apply woken_cancel_ctx|].
  - (* hand-off *)
    destruct (proj1 (inv_recvq _ HI tid)) as (g & Hg & Hp).
    { match goal with H : recvq _ = _ |- _ => rewrite H end. left. }
    eapply reg_exact_moved; [done|done| |done].
    intros _. unfold registered. by rewrite Hp.
  - (* close *)
    eapply reg_exact_woken; [done| |done].
    rewrite gs_set_sd. by apply woken_closed.
  - (* the loop of Shutdown *)
    eapply reg_exact_woken; [done| |].
    + rewrite gs_set_sd. apply woken_cancel_list.
    + rewrite pool_set_sd.
      by destruct (cancel_list_frame (handles s) s) as (-> & _).
  - (* delete *)
    intros t g' Hg' Hr.
    rewrite pool_moved, pool_set_pool. simpl.
    rewrite lookup_moved, gs_set_pool in Hg'.
    destruct (decide (t = tid)) as [->|Hne].
    + match goal with H : gs s !! tid = Some _ |- _ => rewrite H in Hg' end.
      simpl in Hg'. by injection Hg' as <-.
    + rewrite lookup_delete_ne; [by apply HR|].
      match goal with H : gs s !! tid = Some _ |- _ =>
        rewrite (Hids _ _ H), (Hids _ _ Hg') end.
      lia.
Qed.

Lemma reg_exact_run acts s evs s' :
  Inv s → reg_exact s → run acts s = Ret (tt, evs, s') →
  Z.of_nat (length (gs s')) ≤ max_int + 1 → reg_exact s'.
Proof.
  revert s evs. induction acts as [|a acts IH]; intros s evs HI HR Hr Hlen.
  - simpl in Hr. by injection Hr as <- <-.
  - apply run_cons in Hr as (e1 & s1 & e2 & Ha & Hr & ->).
    pose proof (run_gs_length _ _ _ _ Hr) as Hl.
    eapply IH; [by eapply Inv_exec| |done|done].
    eapply reg_exact_step; [done| |done|by apply exec_step]. lia.
Qed.

Lemma reg_exact_reachable s :
  reachable s → Z.of_nat (length (gs s)) ≤ max_int + 1 → reg_exact s.
Proof.
  intros (n & s0 & acts & evs & Hnew & Hr) Hlen.
  eapply reg_exact_run; [by eapply Inv_init| |done|done].
  intros t g Hg. unfold NewPool in Hnew.
  destruct (makeChan n); [|done|done]. by injection Hnew as <-.
Qed.

(** X9.  The registry holds exactly the workers that have not yet
    deregistered.  In every reachable state of a pool on which AddWorker
    has been called at most 2^63 times, [p.workers] has an entry under
    [k] if and only if a worker goroutine with id [k] has not yet run the
    delete of its deferred function; the entry then has [k] as its ID
    and, as its Cancel, the cancel function of the context that this
    goroutine selects on.  So RemoveWorker(k) finds every worker that is
    still running, and cancels that worker and no other. *)
Theorem X9_registry_tracks_workers s k w :
  reachable s → Z.of_nat (length (gs s)) ≤ max_int + 1 →
  (workers (pool s) !! k = Some w ↔
   ∃ tid g, gs s !! tid = Some g ∧ g_id g = k ∧ registered g = true ∧
     g_ctx g = tid ∧ w = mkWorker k tid).
Proof.
  intros Hre Hlen. pose proof (reachable_Inv _ Hre) as HI.
  pose proof (reg_exact_reachable _ Hre Hlen) as HR. split.
  - intros Hw. destruct (inv_reg _ HI _ _ Hw) as (_ & _ & tid & g & Hg & Hid & Hr).
    exists tid, g. split; [done|]. split; [done|]. split; [done|].
    split; [by eapply inv_ctx|].
    pose proof (HR _ _ Hg Hr) as Hw'. rewrite Hid in Hw'. congruence.
  - intros (tid & g & Hg & <- & Hr & _ & ->). by apply HR.
Qed.

Lemma X9_witness :
  workers (pool mid_job_state) !! 1 = Some (mkWorker 1 1) ∧
  ∃ g, gs mid_job_state !! 1%nat = Some g ∧ registered g = true.
Proof.
  split; [reflexivity|].
  assert (reachable mid_job_state) as Hre.
  { exists 2, pool2, mid_job_schedule. eexists. split; [reflexivity|].
    vm_compute. reflexivity. }
  destruct (proj1 (X9_registry_tracks_workers mid_job_state 1 (mkWorker 1 1) Hre
                     ltac:(vm_compute; discriminate)) eq_refl)
    as (tid & g & Hg & _ & Hr & _ & Hw).
  injection Hw as <-. by exists g.
Defined.

(** ** Removing a worker *)

Lemma cancel_list_done_mono cs c s :
  ctx_done c s = true → ctx_done c (cancel_list cs s) = true.
Proof.
  revert s. induction cs as [|c' cs IH]; intros s Hd; [done|].
  simpl. apply IH. by apply ctx_done_cancel_mono.
Qed.

Lemma step_ctx_done s a evs s' c :
  step s a evs s' → ctx_done c s = true → ctx_done c s' = true.
Proof.
  intros Hs Hd. destruct Hs; try exact Hd.
  - unfold ctx_done in *. simpl.
    destruct (ctxs s !! c) as [b|] eqn:E; [|done].
    by rewrite (lookup_app_l_Some _ _ _ _ E).
  - by apply ctx_done_cancel_mono.
  - rewrite ctx_done_set_sd. by apply cancel_list_done_mono.
Qed.

Lemma run_ctx_done acts s evs s' c :
  run acts s = Ret (tt, evs, s') → ctx_done c s = true → ctx_done c s' = true.
Proof.
  revert s evs. induction acts as [|a acts IH]; intros s evs Hr Hd.
  - simpl in Hr. by injection Hr as <- <-.
  - apply run_cons in Hr as (e1 & s1 & e2 & Ha & Hr & ->).
    eapply IH; [done|]. eapply step_ctx_done; [by apply exec_step|done].
Qed.

(** A cancelled worker that has not left its loop can leave it within
    two steps of its own, without receiving a job. *)
Lemma leave_loop s tid g :
  gs s !! tid = Some g → ctx_done (g_ctx g) s = true →
  g_pc g ≠ WParked → g_pc g ≠ WExited →
  ∃ acts evs s' g',
    (length acts ≤ 2)%nat ∧ Forall (λ a, a = Go tid PreferDone) acts ∧
    run acts s = Ret (tt, evs, s') ∧ delivered evs = [] ∧
    gs s' !! tid = Some g' ∧ (2 ≤ rank (g_pc g'))%nat ∧ (rank (g_pc g') < 7)%nat.
Proof.
  intros Hg Hd Hnp Hne.
  assert (∀ s1 g1, gs s1 !! tid = Some g1 → g_pc g1 = WSelect →
            ctx_done (g_ctx g1) s1 = true →
            exec (Go tid PreferDone) s1 = Ret (tt, [], moved tid WLock s1) ∧
            gs (moved tid WLock s1) !! tid = Some (set_pc WLock g1)) as Hsel.
  { intros s1 g1 Hg1 Hp1 Hd1. split.
    - apply step_exec. eapply step_cancelled; eauto.
    - rewrite lookup_moved, decide_True by done. by rewrite Hg1. }
  assert (gs (moved tid WSelect s) !! tid = Some (set_pc WSelect g)) as Hm.
  { rewrite lookup_moved, decide_True by done. by rewrite Hg. }
  destruct (g_pc g) eqn:Hp; try done.
  - (* WStart *)
    destruct (Hsel (moved tid WSelect s) _ Hm eq_refl Hd) as [He Hl].
    eexists [_; _], _, _, _. split; [simpl; lia|]. split; [by repeat constructor|].
    split.
    { eapply run_two; [|exact He]. apply step_exec. by eapply step_start. }
    split; [done|]. split; [exact Hl|]. simpl. lia.
  - (* WSelect *)
    destruct (Hsel s g Hg Hp Hd) as [He Hl].
    eexists [_], _, _, _. split; [simpl; lia|]. split; [by repeat constructor|].
    split; [by apply run_one|]. split; [done|]. split; [exact Hl|]. simpl. lia.
  - (* WProc *)
    destruct (Hsel (moved tid WSelect s) _ Hm eq_refl Hd) as [He Hl].
    eexists [_; _], _, _, _. split; [simpl; lia|]. split; [by repeat constructor|].
    split.
    { eapply run_two; [|exact He]. apply step_exec. by eapply step_proc. }
    split; [done|]. split; [exact Hl|]. simpl. lia.
  - exists [], [], s, g. rewrite Hp. simpl. repeat split; try done; lia.
  - exists [], [], s, g. rewrite Hp. simpl. repeat split; try done; lia.
  - exists [], [], s, g. rewrite Hp. simpl. repeat split; try done; lia.
  - exists [], [], s, g. rewrite Hp. simpl. repeat split; try done; lia.
  - exists [], [], s, g. rewrite Hp. simpl. repeat split; try done; lia.
Qed.

Lemma count_adds_go acts : Forall is_go acts → count_adds acts = 0%nat.
Proof.
  induction 1 as [|a acts Ha _ IH]; [done|].
  rewrite count_adds_cons, IH. by destruct a.
Qed.

(** X10.  RemoveWorker stops the worker it is called for.  In a
    reachable state (with at most 2^63 workers added so far), let a
    worker goroutine not have run its delete yet.  With the mutex free,
    RemoveWorker of its id returns after cancelling the context of this
    goroutine.  From then on, along every schedule, the goroutine keeps
    its id, its context stays cancelled, and it is never blocked in its
    select again.  It can leave its loop within two steps of its own
    without receiving another job, and some schedule of worker steps
    takes it to its exit, after which its id is no longer in the
    registry. *)
Theorem X10_RemoveWorker_stops_worker s tid g :
  reachable s → Z.of_nat (length (gs s)) ≤ max_int + 1 →
  gs s !! tid = Some g → registered g = true → mu (pool s) = false →
  ∃ s1,
    RemoveWorker (g_id g) s
      = Ret (tt, [EvLock Caller; EvCancel tid; EvUnlock Caller], s1) ∧
    ctx_done (g_ctx g) s1 = true ∧
    (∀ acts e2 s2 g2,
       run acts s1 = Ret (tt, e2, s2) → gs s2 !! tid = Some g2 →
       g_id g2 = g_id g ∧ ctx_done (g_ctx g2) s2 = true ∧ g_pc g2 ≠ WParked) ∧
    (∃ acts e2 s2 g2,
       (length acts ≤ 2)%nat ∧ Forall (λ a, a = Go tid PreferDone) acts ∧
       run acts s1 = Ret (tt, e2, s2) ∧ delivered e2 = [] ∧
       gs s2 !! tid = Some g2 ∧ (2 ≤ rank (g_pc g2))%nat) ∧
    (∃ acts e3 s3 g3,
       Forall is_go acts ∧ run acts s1 = Ret (tt, e3, s3) ∧
       gs s3 !! tid = Some g3 ∧ g_pc g3 = WExited ∧
       workers (pool s3) !! g_id g = None).
Proof.
  intros Hre Hlen Hg Hr Hmu. pose proof (reachable_Inv _ Hre) as HI.
  pose proof (reg_exact_reachable _ Hre Hlen _ _ Hg Hr) as Hw.
  pose proof (inv_ctx _ HI _ _ Hg) as Hc.
  assert (RemoveWorker (g_id g) s
          = Ret (tt, [EvLock Caller; EvCancel tid; EvUnlock Caller],
                 cancel_ctx tid s)) as Hrm.
  { by rewrite RemoveWorker_eq, Hmu, Hw. }
  assert (reachable (cancel_ctx tid s)) as Hre1.
  { exact (reachable_exec s (RemoveWorkerCall (g_id g)) _ _ Hre Hrm). }
  pose proof (reachable_Inv _ Hre1) as HI1.
  assert (ctx_done tid (cancel_ctx tid s) = true) as Hd.
  { apply ctx_done_cancel. rewrite (inv_ctx_len _ HI).
    by eapply lookup_lt_Some. }
  assert (∀ acts e2 s2 g2,
            run acts (cancel_ctx tid s) = Ret (tt, e2, s2) →
            gs s2 !! tid = Some g2 →
            g_id g2 = g_id g ∧ ctx_done (g_ctx g2) s2 = true ∧
            g_pc g2 ≠ WParked) as Hall.
  { intros acts e2 s2 g2 Hr2 Hg2.
    pose proof (reachable_run _ _ _ _ Hre1 Hr2) as Hre2.
    pose proof (reachable_Inv _ Hre2) as HI2.
    assert (ctx_done (g_ctx g2) s2 = true) as Hd2.
    { rewrite (inv_ctx _ HI2 _ _ Hg2). by eapply run_ctx_done. }
    split; [|split; [done|]].
    - by rewrite (inv_ids _ HI2 _ _ Hg2), (inv_ids _ HI _ _ Hg).
    - intros Hp. pose proof (parked_live_reachable _ Hre2 _ _ Hg2 Hp). congruence. }
  destruct (reg_kept_cancel_ctx tid s _ _ Hg Hr) as (g1 & Hg1 & Hid1 & Hr1).
  destruct (Hall [] [] _ g1 eq_refl Hg1) as (_ & Hd1 & Hnp1).
  destruct (leave_loop _ _ _ Hg1 Hd1 Hnp1)
    as (acts & e2 & s2 & g2 & Hl2 & Hf2 & Hr2 & Hdel & Hg2 & Hrk2 & Hrk2').
  { intros Hp. unfold registered in Hr1. by rewrite Hp in Hr1. }
  exists (cancel_ctx tid s). split; [done|]. split; [by rewrite Hc|].
  split; [done|]. split.
  { by exists acts, e2, s2, g2. }
  pose proof (reachable_run _ _ _ _ Hre1 Hr2) as Hre2.
  destruct (finish_deferred (7 - rank (g_pc g2)) s2 tid g2)
    as (acts' & e3 & s3 & g3 & Hf3 & Hr3 & Hg3 & Hp3);
    [by apply reachable_Inv|done|done|done|].
  assert (Forall is_go (acts ++ acts')) as Hgo.
  { apply Forall_app. split; [|done].
    eapply Forall_impl; [exact Hf2|]. by intros a ->. }
  assert (run (acts ++ acts') (cancel_ctx tid s) = Ret (tt, e2 ++ e3, s3)) as Hr13.
  { apply run_app. by exists e2, s2, e3. }
  exists (acts ++ acts'), (e2 ++ e3), s3, g3.
  split; [done|]. split; [done|]. split; [done|]. split; [done|].
  destruct (Hall _ _ _ _ Hr13 Hg3) as (<- & _).
  apply (stopped_not_registered s3 tid g3).
  - apply reachable_Inv. by eapply reachable_run.
  - rewrite (run_gs_length _ _ _ _ Hr13), (count_adds_go _ Hgo).
    destruct (only_pc_cancel_ctx tid s) as [Hlen1 _]. rewrite Hlen1. lia.
  - done.
  - unfold registered. by rewrite Hp3.
Qed.

Lemma X10_witness :
  ∃ s1 acts e3 s3,
    RemoveWorker 1 mid_job_state
      = Ret (tt, [EvLock Caller; EvCancel 1; EvUnlock Caller], s1) ∧
    run acts s1 = Ret (tt, e3, s3) ∧ workers (pool s3) !! 1 = None.
Proof.
  assert (reachable mid_job_state) as Hre.
  { exists 2, pool2, mid_job_schedule. eexists. split; [reflexivity|].
    vm_compute. reflexivity. }
  destruct (X10_RemoveWorker_stops_worker mid_job_state 1%nat
              (mkG 1 1 (WProc "Task 0")) Hre)
    as (s1 & Hrm & _ & _ & _ & acts & e3 & s3 & g3 & _ & Hr & _ & _ & Hw);
    [vm_compute; discriminate|reflexivity|reflexivity|reflexivity|].
  by exists s1, acts, e3, s3.
Defined.

(** ** What the workers print *)

Lemma pc_at_moved t x f s tid g :
  gs s !! t = Some g →
  pc_at (moved t x (set_pool f s)) tid = if decide (tid = t) then x else pc_at s tid.
Proof.
  intros Hg. unfold pc_at. rewrite lookup_moved, gs_set_pool.
  destruct (decide (tid = t)) as [->|]; [|done]. by rewrite Hg.
Qed.

Lemma pc_at_moved' t x s tid g :
  gs s !! t = Some g →
  pc_at (moved t x s) tid = if decide (tid = t) then x else pc_at s tid.
Proof.
  intros Hg.
  by apply (pc_at_moved t x (λ p, p) (mkState (pool s) (ctxs s) (gs s) (sd s)) tid g).
Qed.

Lemma obs_woken s s' tid :
  woken (gs s) (gs s') → obs (pc_at s' tid) = obs (pc_at s tid).
Proof.
  intros [Hlen Hw]. unfold pc_at.
  destruct (gs s !! tid) as [g|] eqn:Hg.
  - destruct (Hw _ _ Hg) as [->|[Hp ->]]; [done|]. by rewrite Hp.
  - apply lookup_ge_None in Hg.
    rewrite (proj2 (lookup_ge_None (gs s') tid)); [done|lia].
Qed.

Lemma quiet_trace evs tid id :
  Forall (λ e, quiet e = true) evs →
  delivered_to tid evs = [] ∧ processed_by id evs = [] ∧ lines_of id evs = [].
Proof.
  induction 1 as [|e evs He _ (IH1 & IH2 & IH3)]; [done|].
  unfold delivered_to, processed_by, lines_of, printed in *.
  destruct e; try done; simpl; auto.
Qed.

Lemma quiet_cancels cs : Forall (λ e, quiet e = true) (EvCancel <$> cs).
Proof. induction cs; constructor; done. Qed.

Lemma lines_of_app id e1 e2 :
  lines_of id (e1 ++ e2) = lines_of id e1 ++ lines_of id e2.
Proof. unfold lines_of, printed. by rewrite omap_app, filter_app. Qed.

Lemma delivered_to_app tid e1 e2 :
  delivered_to tid (e1 ++ e2) = delivered_to tid e1 ++ delivered_to tid e2.
Proof. unfold delivered_to. by rewrite omap_app. Qed.

Lemma processed_by_app id e1 e2 :
  processed_by id (e1 ++ e2) = processed_by id e1 ++ processed_by id e2.
Proof. unfold processed_by. by rewrite omap_app. Qed.

(** What a transition shows in the trace: nothing, or the first line of
    a worker, or a delivery to a worker that is in its select, or a
    processing line for the job in flight, or the last line. *)
Lemma step_kinds s a evs s' :
  Inv s → (∀ t g, gs s !! t = Some g → g_id g = Z.of_nat t) →
  step s a evs s' →
  (Forall (λ e, quiet e = true) evs ∧
   ∀ tid, obs (pc_at s' tid) = obs (pc_at s tid)) ∨
  ∃ t, (∀ tid, tid ≠ t → pc_at s' tid = pc_at s tid) ∧
    ((evs = [EvPrint (Started (Z.of_nat t))] ∧
      pc_at s t = WStart ∧ pc_at s' t = WSelect) ∨
     (∃ job pre, evs = pre ++ [EvDeliver t job] ∧
        Forall (λ e, quiet e = true) pre ∧
        obs (pc_at s t) = ([], true, false) ∧ pc_at s' t = WProc job) ∨
     (∃ job, evs = [EvPrint (Processing (Z.of_nat t) job)] ∧
        pc_at s t = WProc job ∧ pc_at s' t = WSelect) ∨
     (evs = [EvPrint (Stopped (Z.of_nat t))] ∧
      pc_at s t = WStopMsg ∧ pc_at s' t = WExited)).
Proof.
  intros HI Hids Hs.
  assert (∀ t x f g y, gs s !! t = Some g → g_pc g = y → obs x = obs y →
            ∀ tid, obs (pc_at (moved t x (set_pool f s)) tid) = obs (pc_at s tid))
    as Hq.
  { intros t x f g y Hg Hp Ho tid. rewrite (pc_at_moved _ _ _ _ _ _ Hg).
    destruct (decide (tid = t)) as [->|]; [|done].
    unfold pc_at. by rewrite Hg, Hp. }
  assert (∀ t x g y, gs s !! t = Some g → g_pc g = y → obs x = obs y →
            ∀ tid, obs (pc_at (moved t x s) tid) = obs (pc_at s tid))
    as Hq'.
  { intros t x g y Hg Hp Ho.
    by apply (Hq t x (λ p, p) g y). }
  assert (∀ t x f g, gs s !! t = Some g →
            (∀ tid, tid ≠ t → pc_at (moved t x (set_pool f s)) tid = pc_at s tid) ∧
            pc_at (moved t x (set_pool f s)) t = x)
    as Ho.
  { intros t x f g Hg. split.
    - intros tid Hne. rewrite (pc_at_moved _ _ _ _ _ _ Hg). by rewrite decide_False.
    - rewrite (pc_at_moved _ _ _ _ _ _ Hg). by rewrite decide_True. }
  assert (∀ t x g, gs s !! t = Some g →
            (∀ tid, tid ≠ t → pc_at (moved t x s) tid = pc_at s tid) ∧
            pc_at (moved t x s) t = x)
    as Ho'.
  { intros t x g Hg. by apply (Ho t x (λ p, p) g). }
  destruct Hs.
  - (* AddWorker *)
    left. split; [by repeat constructor|]. intros tid. unfold pc_at. simpl.
    destruct (gs s !! tid) as [g|] eqn:Hg.
    + by rewrite (lookup_app_l_Some _ _ _ _ Hg).
    + apply lookup_ge_None in Hg. rewrite lookup_app_r by done.
      by destruct (tid - length (gs s))%nat.
  - left. split; [by repeat constructor|]. intros tid.
    apply obs_woken, woken_cancel_ctx.
  - left. split; [by repeat constructor|]. done.
  - (* hand-off *)
    destruct (proj1 (inv_recvq _ HI tid)) as (g & Hg & Hp).
    { match goal with H : recvq _ = _ |- _ => rewrite H end. left. }
    right. exists tid. destruct (Ho tid (WProc job) (set_jobs (with_recvq q)) g Hg)
      as [Hoth Hpc].
    split; [done|]. right. left. exists job, [EvAccept job].
    split; [done|]. split; [by repeat constructor|]. split; [|done].
    unfold pc_at. by rewrite Hg, Hp.
  - left. split; [by repeat constructor|]. done.
  - left. split; [by repeat constructor|]. done.
  - left. split; [by repeat constructor|]. intros tid.
    apply obs_woken. rewrite gs_set_sd. by apply woken_closed.
  - left. split.
    + constructor; [done|]. apply Forall_app. split; [apply quiet_cancels|].
      by repeat constructor.
    + intros tid. apply obs_woken. rewrite gs_set_sd. apply woken_cancel_list.
  - left. split; [by repeat constructor|]. done.
  - (* started *)
    right. exists tid. destruct (Ho' tid WSelect g) as [Hoth Hpc]; [done|].
    split; [done|]. left. rewrite (Hids tid g) by done.
    split; [done|]. split; [|done]. unfold pc_at.
    match goal with H : gs s !! tid = Some g |- _ => rewrite H end. done.
  - left. split; [done|]. by eapply Hq.
  - left. split; [done|]. by eapply Hq'.
  - (* receive *)
    right. exists tid.
    destruct (Ho tid (WProc job) (set_jobs (with_buf rest)) g) as [Hoth Hpc]; [done|].
    split; [done|]. right. left. exists job, []. split; [done|].
    split; [done|]. split; [|done]. unfold pc_at.
    match goal with H : gs s !! tid = Some g |- _ => rewrite H end.
    match goal with H : g_pc g = _ |- _ => rewrite H end. done.
  - left. split; [done|]. by eapply Hq'.
  - (* processing *)
    right. exists tid. destruct (Ho' tid WSelect g) as [Hoth Hpc]; [done|].
    split; [done|]. right. right. left. exists job. rewrite (Hids tid g) by done.
    split; [done|]. split; [|done]. unfold pc_at.
    match goal with H : gs s !! tid = Some g |- _ => rewrite H end. done.
  - left. split; [by repeat constructor|]. by eapply Hq.
  - left. split; [by repeat constructor|]. by eapply Hq.
  - left. split; [by repeat constructor|]. by eapply Hq.
  - left. split; [by repeat constructor|]. by eapply Hq.
  - (* stopped *)
    right. exists tid. destruct (Ho' tid WExited g) as [Hoth Hpc]; [done|].
    split; [done|]. right. right. right. rewrite (Hids tid g) by done.
    split; [done|]. split; [|done]. unfold pc_at.
    match goal with H : gs s !! tid = Some g |- _ => rewrite H end. done.
Qed.

Lemma print_trace o tid id :
  delivered_to tid [EvPrint o] = [] ∧
  processed_by id [EvPrint o]
    = match o with
      | Processing i job => if decide (i = id) then [job] else []
      | _ => []
      end ∧
  lines_of id [EvPrint o] = if decide (id_of o = id) then [o] else [].
Proof.
  split; [done|]. split.
  - unfold processed_by. simpl. destruct o; try done. by destruct (decide _).
  - unfold lines_of. simpl. rewrite filter_cons, filter_nil. done.
Qed.

Lemma deliver_trace pre t job tid id :
  Forall (λ e, quiet e = true) pre →
  delivered_to tid (pre ++ [EvDeliver t job])
    = (if decide (t = tid) then [job] else []) ∧
  processed_by id (pre ++ [EvDeliver t job]) = [] ∧
  lines_of id (pre ++ [EvDeliver t job]) = [].
Proof.
  intros Hq. destruct (quiet_trace pre tid id Hq) as (H1 & H2 & H3).
  rewrite delivered_to_app, processed_by_app, lines_of_app, H1, H2, H3.
  split; [|done]. unfold delivered_to. simpl. by destruct (decide _).
Qed.

Lemma trace_ok_step s a e1 e2 s' :
  Inv s → (∀ t g, gs s !! t = Some g → g_id g = Z.of_nat t) →
  trace_ok e1 s → step s a e2 s' → trace_ok (e1 ++ e2) s'.
Proof.
  intros HI Hids HT Hs tid. destruct (HT tid) as (Hd & Hl & Hn).
  rewrite delivered_to_app, processed_by_app, lines_of_app.
  destruct (step_kinds _ _ _ _ HI Hids Hs) as [[Hq Ho]|(t & Hoth & Hk)].
  - destruct (quiet_trace e2 tid (Z.of_nat tid) Hq) as (-> & -> & ->).
    specialize (Ho tid). unfold obs in Ho. injection Ho as Hi Hst Hex.
    rewrite !app_nil_r, Hi. unfold lines in *. rewrite Hst, Hex.
    split; [done|]. split; [done|]. done.
  - destruct (decide (tid = t)) as [->|Hne].
    + destruct Hk as [(-> & Hp & Hp')|[(job & pre & -> & Hq & Hob & Hp')|
                      [(job & -> & Hp & Hp')|(-> & Hp & Hp')]]].
      * destruct (print_trace (Started (Z.of_nat t)) t (Z.of_nat t)) as (-> & -> & ->).
        rewrite Hp in *. rewrite Hp'. rewrite Hn by done.
        rewrite Hn in Hl, Hd by done. simpl in *.
        rewrite decide_True by done. rewrite Hd, Hl. done.
      * destruct (deliver_trace pre t job t (Z.of_nat t) Hq) as (-> & -> & ->).
        unfold obs in Hob. injection Hob as Hi Hst Hex.
        rewrite Hp'. rewrite Hi in Hd. rewrite decide_True by done.
        rewrite !app_nil_r in *. unfold lines in *. rewrite Hst, Hex in Hl.
        simpl. split; [by rewrite Hd|]. split; [done|]. done.
      * destruct (print_trace (Processing (Z.of_nat t) job) t (Z.of_nat t))
          as (-> & -> & ->).
        rewrite Hp in *. rewrite Hp'. simpl in *.
        rewrite !decide_True by done. rewrite !app_nil_r in *.
        split; [done|]. split; [|done].
        unfold lines in *. simpl in *. rewrite Hl, fmap_app, !app_nil_r. done.
      * destruct (print_trace (Stopped (Z.of_nat t)) t (Z.of_nat t)) as (-> & -> & ->).
        rewrite Hp in *. rewrite Hp'. simpl in *.
        rewrite decide_True by done. rewrite !app_nil_r in *.
        split; [done|]. split; [|done].
        unfold lines in *. simpl in *. rewrite Hl, !app_nil_r. done.
    + rewrite (Hoth tid Hne).
      assert (delivered_to tid e2 = [] ∧ processed_by (Z.of_nat tid) e2 = [] ∧
              lines_of (Z.of_nat tid) e2 = []) as (-> & -> & ->).
      { assert (Z.of_nat t ≠ Z.of_nat tid) as Hz by lia.
        destruct Hk as [(-> & _)|[(job & pre & -> & Hq & _)|
                        [(job & -> & _)|(-> & _)]]].
        - destruct (print_trace (Started (Z.of_nat t)) tid (Z.of_nat tid))
            as (-> & -> & ->).
          simpl. by rewrite decide_False.
        - destruct (deliver_trace pre t job tid (Z.of_nat tid) Hq) as (-> & -> & ->).
          by rewrite decide_False.
        - destruct (print_trace (Processing (Z.of_nat t) job) tid (Z.of_nat tid))
            as (-> & -> & ->).
          simpl. by rewrite !decide_False.
        - destruct (print_trace (Stopped (Z.of_nat t)) tid (Z.of_nat tid))
            as (-> & -> & ->).
          simpl. by rewrite decide_False. }
      by rewrite !app_nil_r.
Qed.

Lemma trace_ok_run acts s e0 evs s' :
  Inv s → trace_ok e0 s → run acts s = Ret (tt, evs, s') →
  Z.of_nat (length (gs s')) ≤ max_int + 1 → trace_ok (e0 ++ evs) s'.
Proof.
  revert s e0 evs. induction acts as [|a acts IH]; intros s e0 evs HI HT Hr Hlen.
  - simpl in Hr. injection Hr as <- <-. by rewrite app_nil_r.
  - apply run_cons in Hr as (e1 & s1 & e2 & Ha & Hr & ->).
    pose proof (run_gs_length _ _ _ _ Hr) as Hl1.
    pose proof (step_gs_length _ _ _ _ (exec_step _ _ _ _ Ha)) as Hl0.
    rewrite app_assoc. eapply IH; [by eapply Inv_exec| |done|done].
    eapply trace_ok_step; [done| |done|by apply exec_step].
    intros t g Hg. eapply ids_in_range; [done| |done]. lia.
Qed.

Lemma trace_ok_new n s0 acts evs s :
  NewPool n = Ret s0 → run acts s0 = Ret (tt, evs, s) →
  Z.of_nat (length (gs s)) ≤ max_int + 1 → trace_ok evs s.
Proof.
  intros Hnew Hr Hlen.
  apply (trace_ok_run acts s0 [] evs s); [by eapply Inv_init| |done|done].
  intros tid. unfold NewPool in Hnew.
  destruct (makeChan n); [|done|done]. by injection Hnew as <-.
Qed.





(** ** [main] *)

Lemma post_bind {A B} (m : M A) (k : A → M B) s
    (Q : A → list event → state → Prop) (R : B → list event → state → Prop) :
  post (m s) Q →
  (∀ a e s', Q a e s' → post (k a s') (λ b e2 s'', R b (e ++ e2) s'')) →
  post ((m ≫= k) s) R.
Proof.
  rewrite bind_eq. destruct (m s) as [[[a e] s']| |]; simpl; try done.
  intros HQ Hk. specialize (Hk _ _ _ HQ).
  by destruct (k a s') as [[[b e2] s'']| |].
Qed.

Lemma post_mono {A} (o : outcome (A * list event * state))
    (Q Q' : A → list event → state → Prop) :
  post o Q → (∀ a e s, Q a e s → Q' a e s) → post o Q'.
Proof. destruct o as [[[a e] s]| |]; simpl; auto. Qed.

Lemma Inv_pool10 : Inv pool10.
Proof. by apply (Inv_init 10). Qed.

Lemma main_at_Inv js n x evs s : main_at js n x evs s → Inv s.
Proof. intros (acts & Hr & _). eapply Inv_run; [apply Inv_pool10|done]. Qed.

Lemma sent_app l1 l2 : sent (l1 ++ l2) = sent l1 ++ sent l2.
Proof. unfold sent. by rewrite omap_app. Qed.

Lemma count_adds_app l1 l2 :
  count_adds (l1 ++ l2) = (count_adds l1 + count_adds l2)%nat.
Proof. unfold count_adds. by rewrite countb_app. Qed.

Lemma exec_stage a js n x evs s :
  main_at js n x evs s →
  (∀ job, a = SendJobCall job → x = SdNotCalled) →
  (a = ShutdownStep → x ≠ SdReturned) →
  post (exec a s) (λ _ e s',
    main_at (js ++ sent [a]) (n + count_adds [a]) (sd s') (evs ++ e) s' ∧
    (a ≠ ShutdownStep → sd s' = x)).
Proof.
  intros HK H1 H2. pose proof (main_at_Inv _ _ _ _ _ HK) as HI.
  destruct HK as (acts & Hr & Hs & Hn & Hx).
  destruct (exec a s) as [[[[] e] s']| |msg] eqn:E; simpl; [|done|].
  - split.
    + exists (acts ++ [a]). split; [apply run_snoc; by exists evs, s, e|].
      by rewrite sent_app, count_adds_app, Hs, Hn.
    + intros Ha. rewrite <- Hx. by eapply step_sd_other; [apply exec_step|].
  - destruct (exec_Panic _ _ _ HI E) as [Hsd [[[job Ha] _]|(Ha & Hret & _)]].
    + rewrite (H1 job Ha) in Hx. congruence.
    + apply H2; [done|]. congruence.
Qed.

Lemma yield_stage ws js n x evs s :
  main_at js n x evs s →
  post (yield ws s) (λ _ e s', main_at js n x (evs ++ e) s').
Proof.
  revert evs s. induction ws as [|[t b] ws IH]; intros evs s HK.
  - simpl. by rewrite app_nil_r.
  - change (yield ((t, b) :: ws) s) with ((exec (Go t b) ≫= λ _, yield ws) s).
    eapply post_bind; [by apply exec_stage|].
    intros [] e s' [HK' Hsd]. simpl in HK'.
    rewrite app_nil_r, Nat.add_0_r, Hsd in HK' by done.
    eapply post_mono; [apply (IH _ _ HK')|].
    intros [] e2 s2 H. by rewrite app_assoc.
Qed.

Lemma callAddWorker_eq s :
  callAddWorker s =
  match exec AddWorkerCall s with
  | Ret (_, e, s') => Ret (nextID (pool s), e, s')
  | Blocked => Blocked
  | Panic msg => Panic msg
  end.
Proof.
  rewrite exec_AddWorkerCall_eq. unfold callAddWorker. rewrite bind_eq.
  rewrite AddWorker_eq. destruct (mu (pool s)); [done|].
  by destruct (wg (pool s) + 1 <? 0).
Qed.

Lemma addworker_stage js n x evs s :
  main_at js n x evs s →
  post (callAddWorker s) (λ _ e s', main_at js (S n) x (evs ++ e) s').
Proof.
  intros HK. rewrite callAddWorker_eq.
  pose proof (exec_stage AddWorkerCall js n x evs s HK) as H.
  destruct (exec AddWorkerCall s) as [[[[] e] s']| |msg]; simpl in *; [|done|].
  - destruct H as [HK' Hsd]; [done|done|].
    rewrite app_nil_r, Hsd in HK' by done.
    change (count_adds [AddWorkerCall]) with 1%nat in HK'.
    by rewrite Nat.add_1_r in HK'.
  - by apply H.
Qed.

Lemma removeworker_stage id js n x evs s :
  main_at js n x evs s →
  post (RemoveWorker id s) (λ _ e s', main_at js n x (evs ++ e) s').
Proof.
  intros HK. change (RemoveWorker id s) with (exec (RemoveWorkerCall id) s).
  eapply post_mono; [by apply exec_stage|].
  intros [] e s' [HK' Hsd].
  change (sent [RemoveWorkerCall id]) with (@nil string) in HK'.
  change (count_adds [RemoveWorkerCall id]) with 0%nat in HK'.
  by rewrite app_nil_r, Nat.add_0_r, Hsd in HK'.
Qed.

Lemma rejected_app e1 e2 : rejected (e1 ++ e2) = rejected e1 ++ rejected e2.
Proof. unfold rejected. by rewrite omap_app. Qed.

Lemma SendJob_exec job s :
  SendJob job s =
  match exec (SendJobCall job) s with
  | Ret (_, e, s') =>
      Ret (match rejected e with [] => None | _ => Some QueueFullError end, e, s')
  | Blocked => Blocked
  | Panic msg => Panic msg
  end.
Proof.
  rewrite exec_SendJobCall_eq, SendJob_eq.
  destruct (closed (jobs (pool s))); [done|].
  destruct (recvq (jobs (pool s))); [|done].
  by destruct (_ <? _).
Qed.

Lemma sendjob_stage job js n evs s :
  main_at js n SdNotCalled evs s → (length js < 10)%nat →
  post (SendJob job s) (λ err e s',
    main_at (js ++ [job]) n SdNotCalled (evs ++ e) s' ∧ err = None).
Proof.
  intros HK Hlen. rewrite SendJob_exec.
  pose proof (exec_stage (SendJobCall job) js n SdNotCalled evs s HK) as H.
  destruct (exec (SendJobCall job) s) as [[[[] e] s']| |msg]; simpl in *; [|done|].
  - destruct H as [HK' Hsd]; [done|done|].
    rewrite Nat.add_0_r, Hsd in HK' by done. split; [done|].
    destruct HK' as (acts & Hr & Hs & _).
    destruct (run_room acts pool10 _ _ Inv_pool10 Hr) as [_ Hrej].
    { rewrite Hs, length_app. simpl. lia. }
    rewrite rejected_app in Hrej. apply app_eq_nil in Hrej as [_ ->]. done.
  - by apply H.
Qed.

Lemma sendTasks_stage σ ns k js n evs s :
  main_at js n SdNotCalled evs s → (length js + length ns ≤ 10)%nat →
  post (sendTasks σ k ns s) (λ lines e s',
    main_at (js ++ (task <$> ns)) n SdNotCalled (evs ++ e) s' ∧ lines = []).
Proof.
  revert k js evs s. induction ns as [|i ns IH]; intros k js evs s HK Hlen.
  - simpl. by rewrite !app_nil_r.
  - simpl in Hlen.
    change (sendTasks σ k (i :: ns)) with
      (yield (σ k) ≫= λ _,
       SendJob (task i) ≫= λ err,
       sendTasks σ (S k) ns ≫= λ rest,
       mret (match err with Some e => [FailedToSend e] | None => [] end ++ rest)).
    eapply post_bind; [by apply yield_stage|]. intros [] e0 s0 H0.
    eapply post_bind; [apply (sendjob_stage _ _ _ _ _ H0); lia|].
    intros err e1 s1 [H1 ->].
    eapply post_bind; [apply (IH _ _ _ _ H1); rewrite length_app; simpl; lia|].
    intros rest e2 s2 [H2 ->]. simpl. split; [|done].
    rewrite app_nil_r. rewrite <- !app_assoc in H2. simpl in H2.
    exact H2.
Qed.

Lemma shutdown_stage js n x evs s :
  main_at js n x evs s → x ≠ SdReturned →
  post (Shutdown_step s) (λ _ e s',
    main_at js n (sd_next x) (evs ++ e) s' ∧
    (x = SdCancelled → wg (pool s') = 0)).
Proof.
  intros HK Hx.
  pose proof (exec_stage ShutdownStep js n x evs s HK) as H.
  assert (sd s = x) as Hsd by (by destruct HK as (? & ? & ? & ? & ?)).
  change (Shutdown_step s) with (exec ShutdownStep s).
  pose proof (Shutdown_step_eq s) as Heq. rewrite Hsd in Heq.
  destruct (exec ShutdownStep s) as [[[[] e] s']| |msg]; simpl in *; [|done|].
  - destruct H as [HK' _]; [done|done|].
    rewrite app_nil_r, Nat.add_0_r in HK'.
    assert (sd s' = sd_next x ∧ (x = SdCancelled → wg (pool s') = 0)) as [Hn Hw].
    { destruct x; [| | |done].
      - destruct (closed (jobs (pool s))); [done|]. by injection Heq as -> ->.
      - destruct (mu (pool s)); [done|]. by injection Heq as -> ->.
      - destruct (wg (pool s) =? 0) eqn:Hz; [|done]. injection Heq as -> ->.
        split; [done|]. intros _. simpl. lia. }
    split; [|done]. by rewrite <- Hn.
  - by apply H.
Qed.

Lemma shutdown_with_stage ws1 ws2 js n evs s :
  main_at js n SdNotCalled evs s →
  post (Shutdown_with ws1 ws2 s) (λ _ e s',
    main_at js n SdReturned (evs ++ e) s' ∧ wg (pool s') = 0).
Proof.
  intros H0. unfold Shutdown_with.
  eapply post_bind; [eapply shutdown_stage; [eassumption|done]|].
  intros [] e1 s1 H1; cbv beta in H1; destruct H1 as [H1 _].
  eapply post_bind; [by apply yield_stage|]. intros [] e2 s2 H2; cbv beta in H2.
  eapply post_bind; [eapply shutdown_stage; [eassumption|done]|].
  intros [] e3 s3 H3; cbv beta in H3; destruct H3 as [H3 _].
  eapply post_bind; [by apply yield_stage|]. intros [] e4 s4 H4; cbv beta in H4.
  eapply post_mono; [eapply shutdown_stage; [eassumption|done]|].
  intros [] e5 s5 [H5 Hwg]. split; [|by apply Hwg].
  rewrite <- !app_assoc in H5. exact H5.
Qed.

Lemma mainM_post σ :
  post (mainM σ pool10) (λ lines evs s,
    lines = [ShuttingDown; ShutdownComplete] ∧
    main_at (task <$> seqZ 0 8) 3 SdReturned evs s ∧ wg (pool s) = 0).
Proof.
  assert (main_at [] 0 SdNotCalled [] pool10) as H0.
  { by exists []. }
  unfold mainM.
  eapply post_bind; [by apply yield_stage|]. intros [] e1 s1 H1; cbv beta in H1.
  eapply post_bind; [by apply addworker_stage|]. intros worker1 e2 s2 H2; cbv beta in H2.
  eapply post_bind; [by apply yield_stage|]. intros [] e3 s3 H3; cbv beta in H3.
  eapply post_bind; [by apply addworker_stage|]. intros w2 e4 s4 H4; cbv beta in H4.
  eapply post_bind; [apply (sendTasks_stage _ _ _ _ _ _ _ H4); simpl; lia|].
  intros l1 e5 s5 H5; cbv beta in H5; destruct H5 as [H5 ->].
  eapply post_bind; [by apply yield_stage|]. intros [] e6 s6 H6; cbv beta in H6.
  eapply post_bind; [by apply addworker_stage|]. intros w3 e7 s7 H7; cbv beta in H7.
  eapply post_bind; [apply (sendTasks_stage _ _ _ _ _ _ _ H7); simpl; lia|].
  intros l2 e8 s8 H8; cbv beta in H8; destruct H8 as [H8 ->].
  eapply post_bind; [by apply yield_stage|]. intros [] e9 s9 H9; cbv beta in H9.
  eapply post_bind; [by apply removeworker_stage|].
  intros [] e10 s10 H10; cbv beta in H10.
  eapply post_bind; [by apply yield_stage|]. intros [] e11 s11 H11; cbv beta in H11.
  eapply post_bind; [by apply shutdown_with_stage|].
  intros [] e12 s12 H12; cbv beta in H12; destruct H12 as [H12 Hwg].
  simpl. split; [done|]. split; [|done].
  rewrite app_nil_r. rewrite <- !app_assoc in H12. exact H12.
Qed.

(** X13.  The program [main].  Under every scheduler: main never
    panics; and when it returns it has printed "Shutting down pool..."
    and "Pool shutdown complete." and never "Failed to send job" (the
    buffer of 10 has room for its 8 jobs, so every SendJob returned nil);
    its three calls of AddWorker have returned the ids 0, 1 and 2; the
    jobs "Task 0" to "Task 7" were accepted in this order, and they are
    the jobs delivered to workers followed by those left in the buffer;
    Shutdown has returned with the wait group at zero and the registry
    empty; and each of the three workers has called Done and has printed
    the processing line of every job it received. *)
Theorem X13_main σ :
  (∀ msg, main σ ≠ Panic msg) ∧
  (∀ lines evs s,
     main σ = Ret (lines, evs, s) →
     lines = [ShuttingDown; ShutdownComplete] ∧
     returned_ids evs = [0; 1; 2] ∧
     accepted evs = task <$> seqZ 0 8 ∧ rejected evs = [] ∧
     accepted evs = delivered evs ++ buf (jobs (pool s)) ∧
     sd s = SdReturned ∧ wg (pool s) = 0 ∧ workers (pool s) = ∅ ∧
     length (gs s) = 3%nat ∧
     ∀ tid g, gs s !! tid = Some g →
       (g_pc g = WStopMsg ∨ g_pc g = WExited) ∧
       delivered_to tid evs = processed_by (g_id g) evs).
Proof.
  pose proof (mainM_post σ) as Hpost.
  change (main σ) with (mainM σ pool10). split.
  - intros msg Hp. by rewrite Hp in Hpost.
  - intros lines evs s Hr. rewrite Hr in Hpost. simpl in Hpost.
    destruct Hpost as (-> & (acts & Hrun & Hsent & Hadds & Hsd) & Hwg).
    pose proof (Inv_run _ _ _ _ Inv_pool10 Hrun) as HI.
    destruct (run_room acts pool10 _ _ Inv_pool10 Hrun) as [Hacc Hrej].
    { rewrite Hsent. vm_compute. discriminate. }
    destruct (run_returned acts pool10 evs s Hrun) as [Hids _].
    { vm_compute. discriminate. }
    { rewrite Hadds. vm_compute. discriminate. }
    pose proof (run_fifo _ _ _ _ Inv_pool10 Hrun) as Hfifo.
    pose proof (run_gs_length _ _ _ _ Hrun) as Hlen. rewrite Hadds in Hlen.
    destruct (quiescent s HI Hwg) as [Hw Hlive].
    split; [done|]. split; [by rewrite Hids, Hadds|].
    split; [by rewrite Hacc, Hsent|]. split; [done|]. split; [done|].
    split; [done|]. split; [done|]. split; [done|]. split; [done|].
    intros tid g Hg. specialize (Hlive _ _ Hg).
    assert (g_pc g = WStopMsg ∨ g_pc g = WExited) as Hpc.
    { unfold live in Hlive. destruct (g_pc g); auto; done. }
    split; [done|].
    assert (Z.of_nat (length (gs s)) ≤ max_int + 1) as Hbound.
    { rewrite Hlen. vm_compute. discriminate. }
    destruct (trace_ok_new 10 pool10 acts evs s eq_refl Hrun Hbound tid) as (Hd & _).
    rewrite (ids_in_range s tid g HI Hbound Hg), Hd. unfold pc_at. rewrite Hg.
    destruct Hpc as [-> | ->]; simpl; by rewrite app_nil_r.
Qed.

Lemma X13_witness :
  ∃ evs s,
    main readme_sched = Ret ([ShuttingDown; ShutdownComplete], evs, s) ∧
    printed evs =
      [Started 0; Started 1;
       Processing 1 "Task 1"; Processing 0 "Task 0"; Processing 0 "Task 2";
       Processing 1 "Task 3"; Processing 0 "Task 4"; Processing 0 "Task 6";
       Started 2; Processing 2 "Task 7"; Processing 1 "Task 5";
       Stopped 0; Stopped 2; Stopped 1] ∧
    workers (pool s) = ∅.
Proof.
  eexists _, _. split; [vm_compute; reflexivity|]. split; [vm_compute; reflexivity|].
  destruct (X13_main readme_sched) as [_ H].
  by destruct (H _ _ _ ltac:(vm_compute; reflexivity)) as (_ & _ & _ & _ & _ & _ & _ & Hw & _).
Defined.

(** ** Shutdown without interleaving *)

Lemma Shutdown_eq s :
  Shutdown s =
  if closed (jobs (pool s)) then Panic "close of closed channel"
  else if mu (pool s) then Blocked
  else let s1 := closed_state s in
       let s2 := cancel_list (handles s1) s1 in
       if wg (pool s2) =? 0
       then Ret (tt, EvClose :: (EvLock Caller :: (EvCancel <$> handles s1)
                       ++ [EvUnlock Caller]) ++ [EvWgWait], s2)
       else Blocked.
Proof.
  unfold Shutdown, Shutdown_close, Shutdown_wait.
  rewrite bind_eq. unfold closeJobs at 1.
  destruct (closed (jobs (pool s))); [done|].
  rewrite bind_eq, Shutdown_cancel_eq.
  change (mu (pool (closed_state s))) with (mu (pool s)).
  destruct (mu (pool s)); [done|]. unfold wgWait. cbv zeta.
  by destruct (wg (pool (cancel_list (handles (closed_state s)) (closed_state s))) =? 0).
Qed.

Lemma holder_live s :
  Inv s → mu (pool s) = true → wg (pool s) ≠ 0.
Proof.
  intros HI Hmu. destruct (lock_holder s HI Hmu) as (t & g & Hg & Hp).
  assert (live g = true) as Hl.
  { unfold live. by destruct Hp as [-> | ->]. }
  pose proof (countb_pos live (gs s) g (list_elem_of_lookup_2 _ _ _ Hg) Hl).
  rewrite (inv_wg _ HI). lia.
Qed.

(** X14.  Shutdown called while no goroutine runs.  On a reachable pool
    on which Shutdown has not been called, a call of Shutdown that is not
    interleaved with steps of the workers never panics, and it returns
    if and only if the wait group counter is zero, that is, when every
    worker added so far has called Done (or none was added); otherwise
    it waits for workers.  When it returns it has closed the queue and
    changed nothing else: the registry was empty, so no context was
    cancelled.  The three steps of Shutdown, taken in a row, do the
    same. *)
Theorem X14_Shutdown_without_interleaving s :
  reachable s → sd s = SdNotCalled →
  (∀ msg, Shutdown s ≠ Panic msg) ∧
  (Shutdown s = Blocked ↔ wg (pool s) ≠ 0) ∧
  (wg (pool s) = 0 →
     Shutdown s
     = Ret (tt, [EvClose; EvLock Caller; EvUnlock Caller; EvWgWait],
            set_pool (set_jobs close_chan) s) ∧
     run [ShutdownStep; ShutdownStep; ShutdownStep] s
     = Ret (tt, [EvClose; EvLock Caller; EvUnlock Caller; EvWgWait],
            set_sd SdReturned (set_pool (set_jobs close_chan) s))).
Proof.
  intros Hre Hsd. pose proof (reachable_Inv _ Hre) as HI.
  assert (closed (jobs (pool s)) = false) as Hc by (by apply (inv_sd _ HI)).
  assert (wg (pool (cancel_list (handles (closed_state s)) (closed_state s)))
          = wg (pool s)) as Hwg.
  { by destruct (cancel_list_frame (handles (closed_state s)) (closed_state s))
      as (_ & _ & -> & _). }
  assert (wg (pool s) = 0 →
          Shutdown s
          = Ret (tt, [EvClose; EvLock Caller; EvUnlock Caller; EvWgWait],
                 set_pool (set_jobs close_chan) s)) as Hidle.
  { intros Hz. destruct (quiescent s HI Hz) as [Hw Hlive].
    assert (mu (pool s) = false) as Hmu.
    { destruct (mu (pool s)) eqn:Hmu; [|done]. by destruct (holder_live s HI). }
    assert (recvq (jobs (pool s)) = []) as Hq.
    { destruct (recvq (jobs (pool s))) as [|t q] eqn:Hq; [done|].
      destruct (proj1 (inv_recvq _ HI t)) as (g & Hg & Hp); [rewrite Hq; left|].
      specialize (Hlive _ _ Hg). unfold live in Hlive. by rewrite Hp in Hlive. }
    assert (closed_state s = set_pool (set_jobs close_chan) s) as Hcs.
    { unfold closed_state. by rewrite Hq. }
    assert (handles (closed_state s) = []) as Hh.
    { unfold handles. rewrite Hcs. simpl. rewrite Hw. by rewrite map_to_list_empty. }
    rewrite Shutdown_eq, Hc, Hmu. cbv zeta. rewrite Hwg, Hz, Hh, Hcs. done. }
  split; [|split].
  - intros msg. rewrite Shutdown_eq, Hc. destruct (mu (pool s)); [done|].
    cbv zeta. by destruct (_ =? _).
  - rewrite Shutdown_eq, Hc. destruct (mu (pool s)) eqn:Hmu.
    + split; [intros _; by apply holder_live|done].
    + cbv zeta. rewrite Hwg. destruct (wg (pool s) =? 0) eqn:Hz.
      * split; [done|]. lia.
      * split; [lia|done].
  - intros Hz. split; [by apply Hidle|].
    rewrite (Shutdown_steps_agree s Hsd), (Hidle Hz). done.
Qed.

Lemma X14_witness :
  Shutdown pool1
  = Ret (tt, [EvClose; EvLock Caller; EvUnlock Caller; EvWgWait],
         set_pool (set_jobs close_chan) pool1).
Proof.
  assert (reachable pool1) as Hre.
  { exists 1, pool1, [], []. split; reflexivity. }
  destruct (X14_Shutdown_without_interleaving pool1 Hre eq_refl) as (_ & _ & H).
  by destruct (H eq_refl) as [H1 _].
Defined.

(** ** Workers left to run *)

Lemma idle_step_decreases s tid pref evs s' :
  step s (Go tid pref) evs s' → (idle_measure s' < idle_measure s)%nat.
Proof.
  intros Hs. unfold idle_measure.
  inversion Hs; subst; autorewrite with st;
    match goal with
    | Hg : gs s !! tid = Some ?g, Hpc : g_pc ?g = _
      |- context [sumf idle_weight (alter (set_pc ?y) tid (gs s))] =>
        pose proof (sumf_alter idle_weight (set_pc y) tid (gs s) g Hg) as Hsum;
        set (c1 := sumf idle_weight (alter (set_pc y) tid (gs s))) in *;
        set (c2 := sumf idle_weight (gs s)) in *;
        unfold idle_weight in Hsum; simpl in Hsum; rewrite Hpc in Hsum;
        clearbody c1 c2; try lia
    end.
  match goal with H : buf _ = _ :: _ |- _ => rewrite H end.
  simpl. lia.
Qed.

Lemma idle_steps_bounded acts s evs s' :
  Forall is_go acts → run acts s = Ret (tt, evs, s') →
  (length acts + idle_measure s' ≤ idle_measure s)%nat.
Proof.
  revert s evs. induction acts as [|a acts IH]; intros s evs Hf Hr.
  - simpl in Hr. injection Hr as <- <-. simpl. lia.
  - apply run_cons in Hr as (e1 & s1 & e2 & Ha & Hr & ->).
    apply Forall_cons in Hf as [Hfa Hf]. destruct a; try done.
    pose proof (idle_step_decreases _ _ _ _ _ (exec_step _ _ _ _ Ha)).
    pose proof (IH _ _ Hf Hr). simpl. lia.
Qed.

Lemma busy_step s tid g :
  Inv s → gs s !! tid = Some g → resting g = false →
  ∃ t pref evs s', step s (Go t pref) evs s'.
Proof.
  intros HI Hg Hbusy. unfold resting in Hbusy.
  destruct (g_pc g) eqn:Hpc; try done.
  - exists tid, PreferJob. eexists _, _. by eapply step_start.
  - destruct (ctx_done (g_ctx g) s) eqn:Hd.
    + exists tid, PreferDone. eexists _, _. eapply step_cancelled; eauto.
    + destruct (buf (jobs (pool s))) as [|job rest] eqn:Hb.
      * destruct (closed (jobs (pool s))) eqn:Hc.
        -- exists tid, PreferJob. eexists _, _. eapply step_drained; eauto.
        -- exists tid, PreferJob. eexists _, _. eapply step_park; eauto.
      * exists tid, PreferJob. eexists _, _. eapply step_recv; eauto.
  - exists tid, PreferJob. eexists _, _. by eapply step_proc.
  - destruct (mu (pool s)) eqn:Hmu.
    + destruct (lock_holder s HI Hmu) as (t & h & Hh & [Hp|Hp]).
      * exists t, PreferJob. eexists _, _. by eapply step_delete.
      * exists t, PreferJob. eexists _, _. by eapply step_unlock.
    + exists tid, PreferJob. eexists _, _. by eapply step_lock.
  - exists tid, PreferJob. eexists _, _. by eapply step_delete.
  - exists tid, PreferJob. eexists _, _. eapply step_unlock; eauto.
    pose proof (inv_mu _ HI) as Hmu.
    assert (holds_mu g = true) as Hh by (unfold holds_mu; by rewrite Hpc).
    pose proof (countb_pos holds_mu (gs s) g (list_elem_of_lookup_2 _ _ _ Hg) Hh).
    destruct (mu (pool s)); [done|lia].
  - exists tid, PreferJob. eexists _, _. eapply step_done; eauto.
    assert (live g = true) as Hl by (unfold live; by rewrite Hpc).
    pose proof (countb_pos live (gs s) g (list_elem_of_lookup_2 _ _ _ Hg) Hl).
    pose proof (inv_wg _ HI). lia.
  - exists tid, PreferJob. eexists _, _. by eapply step_stopmsg.
Qed.

Lemma at_rest_iff s :
  Inv s → at_rest s ↔ ∀ tid g, gs s !! tid = Some g → resting g = true.
Proof.
  intros HI. split.
  - intros Hrest tid g Hg. destruct (resting g) eqn:Hb; [done|].
    destruct (busy_step s tid g HI Hg Hb) as (t & pref & evs & s' & Hs).
    by destruct (Hrest t pref evs s'); apply step_exec.
  - intros Hall tid pref evs s' He. apply exec_step in He.
    inversion He; subst;
      match goal with
      | Hg : gs s !! tid = Some ?g, Hpc : g_pc ?g = _ |- _ =>
          specialize (Hall _ _ Hg); unfold resting in Hall; by rewrite Hpc in Hall
      end.
Qed.

Lemma come_to_rest n s :
  Inv s → (idle_measure s ≤ n)%nat →
  ∃ acts evs s', Forall is_go acts ∧ run acts s = Ret (tt, evs, s') ∧ at_rest s'.
Proof.
  revert s. induction n as [|n IH]; intros s HI Hn;
    (destruct (Forall_Exists_dec (λ g, resting g = true) (λ g, resting g = false)
                 (λ g, match resting g as b return {b = true} + {b = false} with
                       | true => left eq_refl
                       | false => right eq_refl
                       end) (gs s)) as [Hall|Hex];
     [ exists [], [], s; split; [done|]; split; [done|];
       apply at_rest_iff; [done|]; intros tid g Hg;
       by apply (proj1 (Forall_lookup _ _) Hall tid g)
     | apply Exists_exists in Hex as (g & Hin & Hb);
       apply list_elem_of_lookup in Hin as [tid Hg];
       destruct (busy_step s tid g HI Hg Hb) as (t & pref & e1 & s1 & Hs);
       pose proof (idle_step_decreases _ _ _ _ _ Hs) ]).
  - lia.
  - destruct (IH s1) as (acts & e2 & s2 & Hf & Hr & Hrest);
      [by eapply Inv_step|lia|].
    exists (Go t pref :: acts), (e1 ++ e2), s2.
    split; [by constructor|]. split; [|done].
    apply run_cons. exists e1, s1, e2. split; [by apply step_exec|done].
Qed.

(** X15.  Left to run, the workers come to rest, and only when there is
    nothing they can do.  From a reachable state, a schedule of worker
    steps is never longer than a bound given by the state (at most eight
    steps for each worker and two for each job in the buffer): a worker
    does not spin in its loop.  Some such schedule leads to a state in
    which no worker can take a step.  In such a state every worker is
    blocked in its select or has exited; and if there is still a job in
    the buffer, every worker has exited: no job is left waiting while a
    worker is in its loop. *)
Theorem X15_workers_come_to_rest s :
  reachable s →
  (∀ acts evs s',
     Forall is_go acts → run acts s = Ret (tt, evs, s') →
     (length acts + idle_measure s' ≤ idle_measure s)%nat) ∧
  (∃ acts evs s',
     Forall is_go acts ∧ run acts s = Ret (tt, evs, s') ∧ at_rest s') ∧
  (at_rest s →
     (∀ tid g, gs s !! tid = Some g → g_pc g = WParked ∨ g_pc g = WExited) ∧
     (buf (jobs (pool s)) ≠ [] →
        ∀ tid g, gs s !! tid = Some g → g_pc g = WExited)).
Proof.
  intros Hre. pose proof (reachable_Inv _ Hre) as HI.
  split; [|split].
  - intros acts evs s'. apply idle_steps_bounded.
  - by apply (come_to_rest (idle_measure s)).
  - intros Hrest.
    assert (∀ tid g, gs s !! tid = Some g →
              g_pc g = WParked ∨ g_pc g = WExited) as Hall.
    { intros tid g Hg. pose proof (proj1 (at_rest_iff s HI) Hrest tid g Hg) as Hb.
      unfold resting in Hb. destruct (g_pc g); auto; done. }
    split; [done|]. intros Hbuf tid g Hg.
    destruct (Hall tid g Hg) as [Hp|Hp]; [|done].
    destruct (inv_parked _ HI) as [Hb _]; [|done].
    intros Hq. assert (tid ∈ recvq (jobs (pool s))) as Hin.
    { apply (inv_recvq _ HI). eauto. }
    rewrite Hq in Hin. by apply elem_of_nil in Hin.
Qed.

Lemma X15_witness :
  ∃ acts evs s',
    Forall is_go acts ∧ run acts mid_job_state = Ret (tt, evs, s') ∧ at_rest s'.
Proof.
  assert (reachable mid_job_state) as Hre.
  { exists 2, pool2, mid_job_schedule. eexists. split; [reflexivity|].
    vm_compute. reflexivity. }
  by destruct (X15_workers_come_to_rest mid_job_state Hre) as (_ & H & _).
Defined.

(** ** The mutex in the trace *)

Lemma lock_trace_app h e1 e2 :
  lock_trace h (e1 ++ e2) =
  match lock_trace h e1 with
  | Some h' => lock_trace h' e2
  | None => None
  end.
Proof.
  revert h. induction e1 as [|e e1 IH]; intros h; simpl; [done|].
  by destruct (lock_event h e).
Qed.

Lemma lock_trace_cancels cs :
  lock_trace (Some Caller) (EvCancel <$> cs) = Some (Some Caller).
Proof.
  induction cs as [|c cs IH]; [done|].
  change (lock_trace (Some Caller) (EvCancel <$> c :: cs))
    with (match lock_event (Some Caller) (EvCancel c) with
          | Some h' => lock_trace h' (EvCancel <$> cs)
          | None => None
          end).
  unfold lock_event. by rewrite decide_True.
Qed.

Lemma holder_free s h : holder s h → mu (pool s) = false → h = None.
Proof. destruct h as [[|t]|]; simpl; [done| |done]. intros [Hmu _]. congruence. Qed.

Lemma holder_keep s s' h :
  holder s h → mu (pool s') = mu (pool s) →
  (∀ t g, gs s !! t = Some g → holds_mu g = true → gs s' !! t = Some g) →
  holder s' h.
Proof.
  destruct h as [[|t]|]; simpl; [done| |congruence].
  intros (Hmu & g & Hg & Hh) Hmu' Hkeep. split; [congruence|].
  exists g. split; [by apply Hkeep|done].
Qed.

Lemma holder_woken s s' h :
  holder s h → mu (pool s') = mu (pool s) → woken (gs s) (gs s') → holder s' h.
Proof.
  intros Hh Hmu [_ Hw]. eapply holder_keep; [done|done|].
  intros t g Hg Hhold. destruct (Hw _ _ Hg) as [Hx|[Hp _]]; [done|].
  unfold holds_mu in Hhold. by rewrite Hp in Hhold.
Qed.

Lemma holder_moved s h tid x f g :
  holder s h → gs s !! tid = Some g → holds_mu g = false →
  mu (f (pool s)) = mu (pool s) →
  holder (moved tid x (set_pool f s)) h.
Proof.
  intros Hh Hg Hn Hmu. eapply holder_keep; [done|by rewrite pool_moved, pool_set_pool|].
  intros t g' Hg' Hhold. rewrite lookup_moved, gs_set_pool.
  destruct (decide (t = tid)) as [->|]; [|done]. congruence.
Qed.

Lemma holder_moved' s h tid x g :
  holder s h → gs s !! tid = Some g → holds_mu g = false →
  holder (moved tid x s) h.
Proof.
  intros Hh Hg Hn.
  by apply (holder_moved (mkState (pool s) (ctxs s) (gs s) (sd s)) h tid x (λ p, p) g).
Qed.

Lemma holder_is s h tid g :
  Inv s → holder s h → gs s !! tid = Some g → holds_mu g = true →
  h = Some (G tid) ∧ mu (pool s) = true.
Proof.
  intros HI Hh Hg Hhold. pose proof (inv_mu _ HI) as Hcnt.
  pose proof (countb_pos holds_mu (gs s) g (list_elem_of_lookup_2 _ _ _ Hg) Hhold).
  destruct (mu (pool s)) eqn:Hmu; [|lia].
  destruct h as [[|t]|]; simpl in Hh; [done| |congruence].
  destruct Hh as (_ & g' & Hg' & Hhold').
  by rewrite (countb_one_unique holds_mu (gs s) t tid g' g Hcnt Hg' Hg Hhold' Hhold).
Qed.

Lemma lookup_moved_self tid x f s g :
  gs s !! tid = Some g →
  gs (moved tid x (set_pool f s)) !! tid = Some (set_pc x g).
Proof.
  intros Hg. rewrite lookup_moved, decide_True by done.
  by rewrite gs_set_pool, Hg.
Qed.

Ltac not_holding :=
  unfold holds_mu; match goal with H : g_pc _ = _ |- _ => by rewrite H end.

Lemma lock_step s a evs s' h :
  Inv s → holder s h → step s a evs s' →
  ∃ h', lock_trace h evs = Some h' ∧ holder s' h'.
Proof.
  intros HI Hh Hs. destruct Hs.
  - (* AddWorker *)
    rewrite (holder_free s h Hh) by done. by exists None.
  - rewrite (holder_free s h Hh) by done. exists None. split; [done|].
    unfold holder. by rewrite cancel_ctx_mu.
  - rewrite (holder_free s h Hh) by done. by exists None.
  - (* hand-off *)
    destruct (handoff_parked s tid q HI) as (g & Hg & Hp); [done|].
    exists h. split; [done|]. eapply holder_moved; [done|done| |done]. not_holding.
  - by exists h.
  - by exists h.
  - exists h. split; [done|]. eapply holder_woken; [done|done|].
    rewrite gs_set_sd. by apply woken_closed.
  - rewrite (holder_free s h Hh) by done. exists None. split.
    + change (lock_trace None (EvLock Caller ::
                (EvCancel <$> handles s) ++ [EvUnlock Caller]))
        with (lock_trace (Some Caller)
                ((EvCancel <$> handles s) ++ [EvUnlock Caller])).
      by rewrite lock_trace_app, lock_trace_cancels.
    + unfold holder. by rewrite pool_set_sd, cancel_list_mu.
  - by exists h.
  - exists h. split; [done|]. eapply holder_moved'; [done|done|]. not_holding.
  - exists h. split; [done|]. eapply holder_moved; [done|done| |done]. not_holding.
  - exists h. split; [done|]. eapply holder_moved'; [done|done|]. not_holding.
  - exists h. split; [done|]. eapply holder_moved; [done|done| |done]. not_holding.
  - exists h. split; [done|]. eapply holder_moved'; [done|done|]. not_holding.
  - exists h. split; [done|]. eapply holder_moved'; [done|done|]. not_holding.
  - (* Lock *)
    rewrite (holder_free s h Hh) by done. exists (Some (G tid)). split; [done|].
    unfold holder. split; [done|]. exists (set_pc WDelete g). split; [|done].
    by apply lookup_moved_self.
  - (* delete *)
    destruct (holder_is s h tid g HI Hh) as [-> Hmu]; [done|not_holding|].
    exists (Some (G tid)). split; [simpl; by rewrite decide_True|].
    unfold holder. split; [done|]. exists (set_pc WUnlock g). split; [|done].
    by apply lookup_moved_self.
  - (* Unlock *)
    destruct (holder_is s h tid g HI Hh) as [-> Hmu]; [done|not_holding|].
    exists None. split; [simpl; by rewrite decide_True|]. done.
  - exists h. split; [done|]. eapply holder_moved; [done|done| |done]. not_holding.
  - exists h. split; [done|]. eapply holder_moved'; [done|done|]. not_holding.
Qed.

Lemma lock_run acts s evs s' h :
  Inv s → holder s h → run acts s = Ret (tt, evs, s') →
  ∃ h', lock_trace h evs = Some h' ∧ holder s' h'.
Proof.
  revert s evs h. induction acts as [|a acts IH]; intros s evs h HI Hh Hr.
  - simpl in Hr. injection Hr as <- <-. by exists h.
  - apply run_cons in Hr as (e1 & s1 & e2 & Ha & Hr & ->).
    destruct (lock_step _ _ _ _ _ HI Hh (exec_step _ _ _ _ Ha)) as (h1 & Ht1 & Hh1).
    destruct (IH _ _ _ (Inv_exec _ _ _ _ HI Ha) Hh1 Hr) as (h2 & Ht2 & Hh2).
    exists h2. split; [|done]. by rewrite lock_trace_app, Ht1.
Qed.

(** X16.  The mutex protects the registry.  In the trace of every
    schedule from a new pool, read from left to right with the holder of
    the mutex: every Lock finds the mutex free; every Unlock is by the
    thread that holds it; and the registry is written (the store of
    AddWorker, the delete of a worker's deferred function) and a cancel
    function taken from it is called (RemoveWorker, the loop of
    Shutdown) only by the thread that holds the mutex at that moment.
    At the end the mutex is free, or held by the one goroutine that is
    between the Lock and the Unlock of its deferred function. *)
Theorem X16_mutex_protects_registry n s0 acts evs s :
  NewPool n = Ret s0 → run acts s0 = Ret (tt, evs, s) →
  ∃ h, lock_trace None evs = Some h ∧ holder s h ∧
    ∀ e1 e2, evs = e1 ++ e2 → is_Some (lock_trace None e1).
Proof.
  intros Hnew Hr.
  destruct (lock_run acts s0 evs s None) as (h & Ht & Hh);
    [by eapply Inv_init| |done|].
  { unfold NewPool in Hnew. destruct (makeChan n); [|done|done].
    by injection Hnew as <-. }
  exists h. split; [done|]. split; [done|].
  intros e1 e2 ->. rewrite lock_trace_app in Ht.
  by destruct (lock_trace None e1).
Qed.

Lemma X16_witness : lock_trace None full_trace = Some None.
Proof.
  destruct (X16_mutex_protects_registry 1 pool1 full_schedule full_trace full_state)
    as (h & Ht & Hh & _); [reflexivity|vm_compute; reflexivity|].
  rewrite Ht. f_equal. apply (holder_free full_state h Hh). reflexivity.
Defined.

(** ** A worker added after Shutdown *)

Lemma moved_back tid x s g :
  gs s !! tid = Some g → moved tid (g_pc g) (moved tid x s) = s.
Proof.
  intros Hg. destruct s as [p c l d]. unfold moved, set_gs. simpl in *. f_equal.
  apply list_eq. intros i. destruct (decide (i = tid)) as [->|Hne].
  - rewrite !list_lookup_alter_eq, Hg. simpl. by destruct g.
  - by rewrite !list_lookup_alter_ne.
Qed.

(** A worker in its loop whose select takes the job case empties the
    buffer: two steps for each job. *)
Lemma drain_buffer js s tid g :
  gs s !! tid = Some g → g_pc g = WSelect → buf (jobs (pool s)) = js →
  ∃ evs,
    run (replicate (2 * length js) (Go tid PreferJob)) s
      = Ret (tt, evs, set_pool (set_jobs (with_buf [])) s) ∧
    delivered evs = js ∧ printed evs = Processing (g_id g) <$> js.
Proof.
  revert s. induction js as [|j js IH]; intros s Hg Hp Hb.
  - exists []. split; [|done]. simpl.
    destruct s as [[m w [b c cl q] nx wgc] cx l d]. simpl in *. by subst.
  - set (s1 := set_pool (set_jobs (with_buf js)) s).
    assert (exec (Go tid PreferJob) s
            = Ret (tt, [EvDeliver tid j], moved tid (WProc j) s1)) as H1.
    { apply step_exec. eapply step_recv; eauto. }
    assert (exec (Go tid PreferJob) (moved tid (WProc j) s1)
            = Ret (tt, [EvPrint (Processing (g_id g) j)], s1)) as H2.
    { assert (gs (moved tid (WProc j) s1) !! tid = Some (set_pc (WProc j) g)) as Hg1.
      { by apply lookup_moved_self. }
      rewrite <- (moved_back tid (WProc j) s1 g) at 2 by done. rewrite Hp.
      apply step_exec.
      by apply (step_proc _ tid PreferJob (set_pc (WProc j) g) j). }
    destruct (IH s1) as (evs & Hr & Hd & Hpr); [done|done|done|].
    exists ([EvDeliver tid j] ++ [EvPrint (Processing (g_id g) j)] ++ evs).
    split; [|split].
    + replace (2 * length (j :: js))%nat with (S (S (2 * length js))) by (simpl; lia).
      apply run_cons. eexists _, _, _. split; [exact H1|]. split; [|done].
      apply run_cons. eexists _, _, _. split; [exact H2|]. split; [|done].
      exact Hr.
    + simpl. by rewrite Hd.
    + simpl. by rewrite Hpr.
Qed.

Lemma lookup_moved_self' tid x s g :
  gs s !! tid = Some g → gs (moved tid x s) !! tid = Some (set_pc x g).
Proof. intros Hg. rewrite lookup_moved, decide_True by done. by rewrite Hg. Qed.

(** A worker that finds the queue closed and drained runs to its exit in
    six steps of its own when the mutex is free. *)
Lemma exit_alone s tid g :
  gs s !! tid = Some g → g_pc g = WSelect →
  buf (jobs (pool s)) = [] → closed (jobs (pool s)) = true →
  mu (pool s) = false → 1 ≤ wg (pool s) →
  ∃ s',
    run (replicate 6 (Go tid PreferJob)) s
      = Ret (tt, [EvLock (G tid); EvDelete tid (g_id g); EvUnlock (G tid);
                  EvWgDone tid; EvPrint (Stopped (g_id g))], s') ∧
    gs s' !! tid = Some (set_pc WExited g) ∧
    workers (pool s') = delete (g_id g) (workers (pool s)) ∧
    wg (pool s') = wg (pool s) - 1 ∧
    buf (jobs (pool s')) = [] ∧ mu (pool s') = false.
Proof.
  intros Hg Hp Hb Hc Hmu Hwg.
  set (sA := moved tid WLock s).
  set (sB := moved tid WDelete (set_pool (set_mu true) sA)).
  set (sC := moved tid WUnlock (set_pool (set_workers (delete (g_id g))) sB)).
  set (sD := moved tid WDone (set_pool (set_mu false) sC)).
  set (sE := moved tid WStopMsg (set_pool (set_wg (wg (pool sD) + -1)) sD)).
  set (sF := moved tid WExited sE).
  assert (gs sA !! tid = Some (set_pc WLock g)) as HA
    by (by apply lookup_moved_self').
  assert (gs sB !! tid = Some (set_pc WDelete (set_pc WLock g))) as HB
    by (by apply lookup_moved_self).
  assert (gs sC !! tid = Some (set_pc WUnlock (set_pc WDelete (set_pc WLock g)))) as HC
    by (by apply lookup_moved_self).
  assert (gs sD !! tid
          = Some (set_pc WDone (set_pc WUnlock (set_pc WDelete (set_pc WLock g))))) as HD
    by (by apply lookup_moved_self).
  assert (gs sE !! tid
          = Some (set_pc WStopMsg (set_pc WDone (set_pc WUnlock
                    (set_pc WDelete (set_pc WLock g)))))) as HE
    by (by apply lookup_moved_self).
  assert (gs sF !! tid = Some (set_pc WExited g)) as HF.
  { unfold sF. by rewrite (lookup_moved_self' _ _ _ _ HE). }
  exists sF. split; [|split; [done|]].
  - change (replicate 6 (Go tid PreferJob))
      with ([Go tid PreferJob] ++ [Go tid PreferJob] ++ [Go tid PreferJob] ++
            [Go tid PreferJob] ++ [Go tid PreferJob] ++ [Go tid PreferJob]).
    apply run_app. eexists [], sA, _. split; [|split; [|done]].
    { apply run_one, step_exec. eapply step_drained; eauto. }
    apply run_app. eexists [EvLock (G tid)], sB, _. split; [|split; [|done]].
    { apply run_one, step_exec. by eapply step_lock. }
    apply run_app. eexists [EvDelete tid (g_id g)], sC, _. split; [|split; [|done]].
    { apply run_one, step_exec.
      by apply (step_delete sB tid PreferJob _ HB). }
    apply run_app. eexists [EvUnlock (G tid)], sD, _. split; [|split; [|done]].
    { apply run_one, step_exec. by eapply step_unlock. }
    apply run_app. eexists [EvWgDone tid], sE, _. split; [|split; [|done]].
    { apply run_one, step_exec. eapply step_done; [done|done|].
      change (wg (pool sD)) with (wg (pool s)). lia. }
    apply run_one, step_exec.
    by apply (step_stopmsg sE tid PreferJob _ HE).
  - split; [done|]. split; [|done].
    change (wg (pool sF)) with (wg (pool s) + -1). lia.
Qed.

(** X17.  A worker added after Shutdown processes what Shutdown left.
    In a reachable state in which the queue is closed and every worker
    added so far has called Done (as when Shutdown has returned),
    AddWorker still returns a new worker; run on its own, this worker
    prints its first line, receives and processes the jobs that are still
    in the buffer, in order, finds the queue closed and drained, and
    exits through its deferred function without waiting for a
    cancellation: afterwards the buffer and the registry are empty and
    the wait group counter is zero again. *)
Theorem X17_late_worker_drains s :
  reachable s → sd s ≠ SdNotCalled → wg (pool s) = 0 →
  let tid := length (gs s) in
  let id := nextID (pool s) in
  let js := buf (jobs (pool s)) in
  ∃ e1 s1 acts e2 s2,
    AddWorker s = Ret (id, e1, s1) ∧
    Forall (λ a, a = Go tid PreferJob) acts ∧
    run acts s1 = Ret (tt, e2, s2) ∧
    delivered e2 = js ∧
    printed e2 = Started id :: (Processing id <$> js) ++ [Stopped id] ∧
    buf (jobs (pool s2)) = [] ∧ workers (pool s2) = ∅ ∧ wg (pool s2) = 0 ∧
    ∃ g, gs s2 !! tid = Some g ∧ g_pc g = WExited.
Proof.
  intros Hre Hsd Hwg tid id js. pose proof (reachable_Inv _ Hre) as HI.
  assert (closed (jobs (pool s)) = true) as Hc.
  { destruct (closed (jobs (pool s))) eqn:Hc; [done|].
    by apply (inv_sd _ HI) in Hc. }
  destruct (quiescent s HI Hwg) as [Hw _].
  assert (mu (pool s) = false) as Hmu.
  { destruct (mu (pool s)) eqn:Hmu; [|done]. by destruct (holder_live s HI). }
  set (g0 := mkG id (length (ctxs s)) WStart).
  set (sS := moved tid WSelect (added s)).
  assert (gs (added s) !! tid = Some g0) as Hg0.
  { rewrite gs_added. apply list_lookup_middle. done. }
  assert (gs sS !! tid = Some (set_pc WSelect g0)) as HgS
    by (by apply lookup_moved_self').
  destruct (drain_buffer js sS tid (set_pc WSelect g0) HgS eq_refl eq_refl)
    as (ed & Hrd & Hdd & Hpd).
  destruct (exit_alone (set_pool (set_jobs (with_buf [])) sS) tid (set_pc WSelect g0))
    as (sF & Hrx & HgF & HwF & HwgF & HbF & HmuF);
    [done|done|done|done|done| |].
  { change (1 ≤ wg (pool s) + 1). lia. }
  exists [EvLock Caller; EvStore id; EvWgAdd; EvSpawn tid; EvUnlock Caller],
    (added s),
    ([Go tid PreferJob] ++ replicate (2 * length js) (Go tid PreferJob) ++
     replicate 6 (Go tid PreferJob)).
  eexists _, sF.
  split; [|split; [|split; [|split; [|split; [|split; [|split; [|split]]]]]]].
  - rewrite AddWorker_eq, Hmu, Hwg. done.
  - apply Forall_app. split; [by repeat constructor|].
    apply Forall_app. split; by apply Forall_replicate.
  - apply run_app. eexists _, sS, _. split; [|split; [|reflexivity]].
    { apply run_one, step_exec. by apply (step_start (added s) tid PreferJob g0). }
    apply run_app. eexists _, _, _. split; [exact Hrd|]. split; [exact Hrx|].
    reflexivity.
  - unfold delivered in *. simpl. rewrite omap_app, Hdd. simpl. by rewrite app_nil_r.
  - unfold printed in *. simpl. rewrite omap_app, Hpd. done.
  - done.
  - rewrite HwF. simpl. change (workers (pool s)) with (workers (pool s)).
    rewrite Hw. unfold id. by rewrite delete_insert_eq, delete_empty.
  - rewrite HwgF. change (wg (pool s) + 1 - 1 = 0). lia.
  - by exists (set_pc WExited (set_pc WSelect g0)).
Qed.

Lemma X17_witness :
  ∃ e1 s1 acts e2 s2,
    AddWorker shut_pool1 = Ret (0, e1, s1) ∧
    run acts s1 = Ret (tt, e2, s2) ∧
    printed e2 = [Started 0; Stopped 0] ∧ workers (pool s2) = ∅.
Proof.
  assert (reachable shut_pool1) as Hre.
  { exists 1, pool1, [ShutdownStep; ShutdownStep; ShutdownStep]. eexists.
    split; [reflexivity|]. vm_compute. reflexivity. }
  destruct (X17_late_worker_drains shut_pool1 Hre)
    as (e1 & s1 & acts & e2 & s2 & Ha & _ & Hr & _ & Hp & _ & Hw & _);
    [done|reflexivity|].
  by exists e1, s1, acts, e2, s2.
Defined.

(** ** The size of the buffer *)

(** X18.  The queue never holds more jobs than the buffer size the pool
    was made with.  In every state that a schedule reaches from
    [NewPool(n)], the capacity of the queue is still [n], the buffer
    holds at most [n] jobs, and so the jobs that have been accepted and
    not yet delivered to a worker are at most [n]. *)
Theorem X18_buffer_bounded n s0 acts evs s :
  NewPool n = Ret s0 → run acts s0 = Ret (tt, evs, s) →
  0 ≤ n ∧ cap (jobs (pool s)) = n ∧
  Z.of_nat (length (buf (jobs (pool s)))) ≤ n ∧
  Z.of_nat (length (accepted evs)) ≤ Z.of_nat (length (delivered evs)) + n.
Proof.
  intros Hnew Hr. pose proof (Inv_init _ _ Hnew) as HI0.
  pose proof (Inv_run _ _ _ _ HI0 Hr) as HI.
  pose proof (run_cap _ _ _ _ Hr) as Hcap.
  pose proof (run_fifo _ _ _ _ HI0 Hr) as Hf.
  pose proof (inv_cap _ HI) as Hb.
  unfold NewPool, makeChan in Hnew. destruct (n <? 0) eqn:Hn; [done|].
  injection Hnew as <-. simpl in *.
  split; [lia|]. split; [done|]. split; [lia|].
  rewrite Hf, length_app. lia.
Qed.

Lemma X18_witness :
  ∃ evs s,
    run [SendJobCall "a"; SendJobCall "b"; SendJobCall "c"] pool2
      = Ret (tt, evs, s) ∧
    Z.of_nat (length (buf (jobs (pool s)))) ≤ 2.
Proof.
  eexists _, _. split; [vm_compute; reflexivity|].
  match goal with
  | |- Z.of_nat (length (buf (jobs (pool ?s)))) ≤ _ =>
      by destruct (X18_buffer_bounded 2 pool2
                     [SendJobCall "a"; SendJobCall "b"; SendJobCall "c"] _ s
                     eq_refl ltac:(vm_compute; reflexivity)) as (_ & _ & H & _)
  end.
Defined.

(** ** Why a worker stops *)

Lemma ctx_done_cancel_inv c c' s :
  ctx_done c (cancel_ctx c' s) = true → c = c' ∨ ctx_done c s = true.
Proof.
  intros Hd. destruct (decide (c = c')) as [->|Hne]; [by left|right].
  by rewrite ctx_done_cancel_ne in Hd.
Qed.

Lemma ctx_done_cancel_list_inv c cs s :
  ctx_done c (cancel_list cs s) = true → c ∈ cs ∨ ctx_done c s = true.
Proof.
  revert s. induction cs as [|c' cs IH]; intros s Hd; [by right|].
  simpl in Hd. destruct (IH _ Hd) as [Hin|Hd'].
  - left. by right.
  - destruct (ctx_done_cancel_inv _ _ _ Hd') as [->|Hd'']; [left; left|by right].
Qed.

Lemma step_ctx_done_inv s a evs s' c :
  step s a evs s' → ctx_done c s' = true →
  ctx_done c s = true ∨ a = ShutdownStep ∨
  ∃ id w, a = RemoveWorkerCall id ∧ workers (pool s) !! id = Some w ∧ Cancel w = c.
Proof.
  intros Hs Hd. destruct Hs; try (by left); try (by right; left).
  - left. unfold ctx_done in *. simpl in Hd.
    destruct (ctxs s !! c) as [b|] eqn:E.
    + by rewrite (lookup_app_l_Some _ _ _ _ E) in Hd.
    + apply lookup_ge_None in E. rewrite lookup_app_r in Hd by done.
      by destruct (c - length (ctxs s))%nat as [|[|k]].
  - destruct (ctx_done_cancel_inv _ _ _ Hd) as [->|Hd']; [|by left].
    right. right. by exists id, w.
Qed.

Lemma step_closed_inv s a evs s' :
  step s a evs s' → closed (jobs (pool s')) = true →
  closed (jobs (pool s)) = true ∨ a = ShutdownStep.
Proof.
  intros Hs Hc. destruct Hs; try (by left); by right.
Qed.

Lemma reason_keep s s' :
  (∀ tid g, gs s !! tid = Some g → (2 ≤ rank (g_pc g))%nat →
     ctx_done (g_ctx g) s = true ∨ closed (jobs (pool s)) = true) →
  (∀ c, ctx_done c s = true → ctx_done c s' = true) →
  (closed (jobs (pool s)) = true → closed (jobs (pool s')) = true) →
  (∀ tid g', gs s' !! tid = Some g' → (2 ≤ rank (g_pc g'))%nat →
     closed (jobs (pool s')) = true ∨ ctx_done (g_ctx g') s' = true ∨
     ∃ g, gs s !! tid = Some g ∧ g_ctx g = g_ctx g' ∧ (2 ≤ rank (g_pc g))%nat) →
  ∀ tid g', gs s' !! tid = Some g' → (2 ≤ rank (g_pc g'))%nat →
    ctx_done (g_ctx g') s' = true ∨ closed (jobs (pool s')) = true.
Proof.
  intros HP Hd Hc Hfrom tid g' Hg' Hrk.
  destruct (Hfrom _ _ Hg' Hrk) as [H|[H|(g & Hg & Hctx & Hrk0)]]; [by right|by left|].
  destruct (HP _ _ Hg Hrk0) as [H|H]; [left|right; by apply Hc].
  rewrite <- Hctx. by apply Hd.
Qed.

Lemma reason_step s a evs s' :
  Inv s →
  (∀ tid g, gs s !! tid = Some g → (2 ≤ rank (g_pc g))%nat →
     ctx_done (g_ctx g) s = true ∨ closed (jobs (pool s)) = true) →
  step s a evs s' →
  ∀ tid g', gs s' !! tid = Some g' → (2 ≤ rank (g_pc g'))%nat →
    ctx_done (g_ctx g') s' = true ∨ closed (jobs (pool s')) = true.
Proof.
  intros HI HP Hs. apply (reason_keep s s' HP).
  - intros c. by eapply step_ctx_done.
  - by eapply step_closed.
  - intros t g' Hg' Hrk.
    assert (∀ tid x f g,
              gs s !! tid = Some g →
              gs (moved tid x (set_pool f s)) !! t = Some g' →
              ((2 ≤ rank x)%nat → (2 ≤ rank (g_pc g))%nat ∨
                 ctx_done (g_ctx g) s = true ∨
                 closed (jobs (f (pool s))) = true) →
              closed (jobs (f (pool s))) = true ∨
              ctx_done (g_ctx g') s = true ∨
              ∃ g0, gs s !! t = Some g0 ∧ g_ctx g0 = g_ctx g' ∧
                    (2 ≤ rank (g_pc g0))%nat) as Hm.
    { intros tid x f g Hg Hl Hx. rewrite lookup_moved, gs_set_pool in Hl.
      destruct (decide (t = tid)) as [->|Hne].
      - rewrite Hg in Hl. simpl in Hl. injection Hl as <-. simpl in *.
        destruct (Hx Hrk) as [H|[H|H]]; [|by right; left|by left].
        right. right. by exists g.
      - right. right. by exists g'. }
    assert (∀ tid x g,
              gs s !! tid = Some g →
              gs (moved tid x s) !! t = Some g' →
              ((2 ≤ rank x)%nat → (2 ≤ rank (g_pc g))%nat ∨
                 ctx_done (g_ctx g) s = true ∨
                 closed (jobs (pool s)) = true) →
              closed (jobs (pool s)) = true ∨
              ctx_done (g_ctx g') s = true ∨
              ∃ g0, gs s !! t = Some g0 ∧ g_ctx g0 = g_ctx g' ∧
                    (2 ≤ rank (g_pc g0))%nat) as Hm'.
    { intros tid x g Hg Hl Hx.
      by apply (Hm tid x (λ p, p) g). }
    destruct Hs.
    + (* AddWorker *)
      simpl in Hg'. apply lookup_app_Some in Hg' as [Hg'|[_ Hg']].
      * right. right. by exists g'.
      * destruct (t - length (gs s))%nat; [|done]. simpl in Hg'.
        injection Hg' as <-. simpl in Hrk. lia.
    + (* RemoveWorker *)
      simpl in Hg'. rewrite list_lookup_fmap in Hg'.
      destruct (gs s !! t) as [g|] eqn:Hg; [|done]. simpl in Hg'.
      injection Hg' as <-. destruct (waits_on (Cancel w) g) eqn:Hw.
      * right. left. simpl. unfold waits_on in Hw.
        apply andb_true_iff in Hw as [_ Hc%Nat.eqb_eq]. rewrite Hc.
        apply ctx_done_cancel.
        by destruct (inv_reg _ HI _ _ H0) as (_ & Hlt & _).
      * right. right. by exists g.
    + right. right. by exists g'.
    + destruct (handoff_parked s tid q HI) as (g & Hg & Hp); [done|].
      eapply (Hm tid _ _ g Hg Hg'). simpl. lia.
    + right. right. by exists g'.
    + right. right. by exists g'.
    + by left.
    + left. rewrite pool_set_sd.
      destruct (cancel_list_frame (handles s) s) as (_ & _ & _ & _ & _ & -> & _).
      destruct (closed (jobs (pool s))) eqn:Hc; [done|].
      apply (inv_sd _ HI) in Hc. congruence.
    + right. right. by exists g'.
    + eapply (Hm' tid _ g H Hg'). simpl. lia.
    + eapply (Hm tid _ _ g H Hg'). simpl. lia.
    + eapply (Hm' tid _ g H Hg'). intros _. right. by left.
    + eapply (Hm tid _ _ g H Hg'). simpl. lia.
    + eapply (Hm' tid _ g H Hg'). intros _. right. by right.
    + eapply (Hm' tid _ g H Hg'). simpl. lia.
    + eapply (Hm tid _ _ g H Hg'). intros _. left. rewrite H0. simpl. lia.
    + eapply (Hm tid _ _ g H Hg'). intros _. left. rewrite H0. simpl. lia.
    + eapply (Hm tid _ _ g H Hg'). intros _. left. rewrite H0. simpl. lia.
    + eapply (Hm tid _ _ g H Hg'). intros _. left. rewrite H0. simpl. lia.
    + eapply (Hm' tid _ g H Hg'). intros _. left. rewrite H0. simpl. lia.
Qed.

Lemma stop_reasons_step acts0 s a evs s' :
  Inv s → reg_exact s → Z.of_nat (length (gs s)) ≤ max_int + 1 →
  stop_reasons acts0 s → step s a evs s' → stop_reasons (acts0 ++ [a]) s'.
Proof.
  intros HI HR Hlen (H1 & H2 & H3) Hs. split; [|split].
  - intros c Hd.
    destruct (step_ctx_done_inv _ _ _ _ _ Hs Hd) as [Hd0|[->|(id & w & -> & Hw & Hc)]].
    + destruct (H1 _ Hd0) as [Hin|Hin]; [left|right];
        apply elem_of_app; by left.
    + right. apply elem_of_app. right. left.
    + left. apply elem_of_app. right.
      destruct (inv_reg _ HI _ _ Hw) as (_ & _ & tid & g & Hg & Hid & Hr).
      pose proof (HR _ _ Hg Hr) as Hw'. rewrite Hid, Hw in Hw'.
      injection Hw' as ->. simpl in Hc. subst c.
      rewrite <- (ids_in_range s tid g HI Hlen Hg), Hid. left.
  - intros Hc. destruct (step_closed_inv _ _ _ _ Hs Hc) as [Hc0| ->].
    + apply elem_of_app. left. by apply H2.
    + apply elem_of_app. right. left.
  - by eapply reason_step.
Qed.

Lemma stop_reasons_run acts acts0 s evs s' :
  Inv s → reg_exact s → Z.of_nat (length (gs s')) ≤ max_int + 1 →
  stop_reasons acts0 s → run acts s = Ret (tt, evs, s') →
  stop_reasons (acts0 ++ acts) s'.
Proof.
  revert acts0 s evs. induction acts as [|a acts IH]; intros acts0 s evs HI HR Hlen HS Hr.
  - simpl in Hr. injection Hr as <- <-. by rewrite app_nil_r.
  - apply run_cons in Hr as (e1 & s1 & e2 & Ha & Hr & ->).
    pose proof (run_gs_length _ _ _ _ Hr) as Hl1.
    pose proof (step_gs_length _ _ _ _ (exec_step _ _ _ _ Ha)) as Hl0.
    replace (acts0 ++ a :: acts) with ((acts0 ++ [a]) ++ acts)
      by (by rewrite <- app_assoc).
    eapply IH; [by eapply Inv_exec| |done| |done].
    + eapply reg_exact_step; [done| |done|by apply exec_step]. lia.
    + eapply stop_reasons_step; [done|done| |done|by apply exec_step]. lia.
Qed.

(** X19.  A worker does not stop on its own.  Along every schedule from
    a new pool (with at most 2^63 workers added), a worker goroutine
    that has left its loop (it is in its deferred function, or has
    exited) has a cancelled context or has seen the queue closed; and a
    context is cancelled only by RemoveWorker called with the id of its
    worker, or by Shutdown, which is also the only call that closes the
    queue.  So if a worker has left its loop, then RemoveWorker was
    called with its id or Shutdown was called. *)
Theorem X19_workers_stop_for_a_reason n s0 acts evs s tid g :
  NewPool n = Ret s0 → run acts s0 = Ret (tt, evs, s) →
  Z.of_nat (length (gs s)) ≤ max_int + 1 →
  gs s !! tid = Some g → (2 ≤ rank (g_pc g))%nat →
  (ctx_done (g_ctx g) s = true ∨ closed (jobs (pool s)) = true) ∧
  (RemoveWorkerCall (g_id g) ∈ acts ∨ ShutdownStep ∈ acts).
Proof.
  intros Hnew Hr Hlen Hg Hrk. pose proof (Inv_init _ _ Hnew) as HI0.
  pose proof (Inv_run _ _ _ _ HI0 Hr) as HI.
  assert (gs s0 = [] ∧ ctxs s0 = [] ∧ closed (jobs (pool s0)) = false)
    as (Hgs0 & Hcx0 & Hc0).
  { unfold NewPool, makeChan in Hnew. destruct (n <? 0); [done|].
    by injection Hnew as <-. }
  destruct (stop_reasons_run acts [] s0 evs s HI0) as (H1 & H2 & H3);
    [|done| |done|].
  { intros t g0 Hg0. by rewrite Hgs0 in Hg0. }
  { split; [|split].
    - intros c. unfold ctx_done. by rewrite Hcx0.
    - by rewrite Hc0.
    - intros t g0 Hg0. by rewrite Hgs0 in Hg0. }
  simpl in *. destruct (H3 _ _ Hg Hrk) as [Hd|Hc].
  - split; [by left|]. rewrite (ids_in_range s tid g HI Hlen Hg).
    rewrite (inv_ctx _ HI _ _ Hg) in Hd. by apply H1.
  - split; [by right|]. right. by apply H2.
Qed.

Lemma X19_witness :
  RemoveWorkerCall 0 ∈ exit_schedule ∨ ShutdownStep ∈ exit_schedule.
Proof.
  destruct (X19_workers_stop_for_a_reason 1 pool1 exit_schedule exit_trace
              exit_state 0%nat (mkG 0 0 WStopMsg)) as [_ H];
    [reflexivity|vm_compute; reflexivity|vm_compute; discriminate|
     reflexivity|simpl; lia|].
  exact H.
Defined.

(** ** When Shutdown loses no job *)


